(** * gridea: a shallow embedding of the square-packing solver

    The development follows the Python sources file by file
    ([utils.py], [scoring.py], [initialize.py], [gridea.py], [network.py]).
    numpy arrays are lists indexed by Python integers ([Z]); every indexed
    read and write is bounds-checked and raises [IndexError] when it leaves
    the array, so that a result [Ok _] certifies that no access went out of
    range.  [while] loops carry a fuel argument computed from the data; a
    loop that exhausts it yields [OutOfFuel], which is never [Ok]. *)

From Stdlib Require Import ZArith Lia QArith.
From stdpp Require Import base tactics numbers list gmap strings.

Local Open Scope Z_scope.

(** ** Exceptions and the result monad *)

Inductive exn : Set :=
| IndexError
| AssertionError
| ZeroDivisionError.

Inductive result (A : Type) : Type :=
| Ok (a : A)
| Raise (e : exn)
| OutOfFuel.

Arguments Ok {A} a.
Arguments Raise {A} e.
Arguments OutOfFuel {A}.

#[global] Instance result_ret : MRet result := fun A a => Ok a.
#[global] Instance result_bind : MBind result := fun A B k m =>
  match m with
  | Ok a => k a
  | Raise e => Raise e
  | OutOfFuel => OutOfFuel
  end.

(** [for x in l: s = body(s, x)] *)
Fixpoint foldM {A S} (body : S -> A -> result S) (l : list A) (s : S)
  : result S :=
  match l with
  | [] => Ok s
  | x :: l' => s' ← body s x; foldM body l' s'
  end.

(** Python's [range(n)] and [range(a, b)]. *)
Definition range (n : Z) : list Z := seqZ 0 n.
Definition range2 (a b : Z) : list Z := seqZ a (b - a).

(** A chain [c1 and c2 and ...] of conditions that read memory, evaluated
    left to right and stopping at the first false one. *)
Fixpoint all_of (cs : list (result bool)) : result bool :=
  match cs with
  | [] => Ok true
  | c :: cs' => c ≫= λ x : bool, if x then all_of cs' else Ok false
  end.

(** Python's [%] and [//] on integers (floor semantics, as [Z.modulo] and
    [Z.div]); a zero divisor raises. *)
Definition py_mod (a b : Z) : result Z :=
  if b =? 0 then Raise ZeroDivisionError else Ok (a mod b).
Definition py_floordiv (a b : Z) : result Z :=
  if b =? 0 then Raise ZeroDivisionError else Ok (a / b).

(** ** numpy arrays *)

(** One-dimensional indexing.  Negative indices, which numpy would wrap
    around, are treated as out of range: the model is stricter than the
    source there. *)
Definition getitem {A} (a : list A) (i : Z) : result A :=
  if decide (0 <= i) then
    match a !! Z.to_nat i with
    | Some x => Ok x
    | None => Raise IndexError
    end
  else Raise IndexError.

Definition setitem {A} (a : list A) (i : Z) (x : A) : result (list A) :=
  if decide (0 <= i < Z.of_nat (length a)) then Ok (<[Z.to_nat i := x]> a)
  else Raise IndexError.

(** Two-dimensional arrays are lists of rows; numpy guarantees the rows
    have one length, which is the hypothesis [rectangular]. *)
Abbreviation array2 := (list (list Z)).

Definition shape0 (a : array2) : Z := Z.of_nat (length a).
Definition shape1 (a : array2) : Z :=
  match a with
  | [] => 0
  | r :: _ => Z.of_nat (length r)
  end.

Definition rectangular (a : array2) : Prop :=
  Forall (fun r => Z.of_nat (length r) = shape1 a) a.

Definition get2 (a : array2) (i j : Z) : result Z :=
  r ← getitem a i; getitem r j.

Definition set2 (a : array2) (i j v : Z) : result array2 :=
  r ← getitem a i;
  r' ← setitem r j v;
  setitem a i r'.

(** [a.sum()] *)
Definition np_sum (a : array2) : Z := foldr Z.add 0 (concat a).

Definition wrap32 (x : Z) : Z := x mod 2 ^ 32.
Definition wrap8 (x : Z) : Z := x mod 2 ^ 8.

(** ** utils.py *)

Module Utils.

(** The four [uint32] words of [random_state]. *)
Record random_state : Set := RandomState { s0 : Z; s1 : Z; s2 : Z; s3 : Z }.

(** [xorshift(random_state)]: returns the drawn word and the updated state.
    The left shift is taken in the element type [uint32], and the store
    into [random_state[3]] truncates to 32 bits. *)
Definition xorshift (rs : random_state) : Z * random_state :=
  let t := Z.lxor (s0 rs) (wrap32 (Z.shiftl (s0 rs) 11)) in
  let w := wrap32 (Z.lxor (Z.lxor (Z.lxor (s3 rs) (Z.shiftr (s3 rs) 19)) t)
                          (Z.shiftr t 8)) in
  (w, {| s0 := s1 rs; s1 := s2 rs; s2 := s3 rs; s3 := w |}).

(** The same recurrence when the shift result is kept in a 64-bit
    intermediate (the promotion a JIT may apply to [uint32 << int]). *)
Definition xorshift_wide (rs : random_state) : Z * random_state :=
  let t := Z.lxor (s0 rs) (Z.shiftl (s0 rs) 11 mod 2 ^ 64) in
  let w := wrap32 (Z.lxor (Z.lxor (Z.lxor (s3 rs) (Z.shiftr (s3 rs) 19)) t)
                          (Z.shiftr t 8)) in
  (w, {| s0 := s1 rs; s1 := s2 rs; s2 := s3 rs; s3 := w |}).

(** [swap_1d(population[a], population[b])]: the two arguments are views
    of rows [a] and [b] of one matrix and may be the same row, so the
    element-wise exchange is threaded through the matrix. *)
Definition swap_1d (pop : array2) (a b : Z) : result array2 :=
  row_a ← getitem pop a;
  foldM (fun pop x =>
           va ← get2 pop a x;
           vb ← get2 pop b x;
           pop ← set2 pop a x vb;
           set2 pop b x va)
        (range (Z.of_nat (length row_a))) pop.

(** [while low <= high and population[low, 0] <= pivot: low += 1] *)
Fixpoint scan_low (fuel : nat) (pop : array2) (pivot low high : Z)
  : result Z :=
  match fuel with
  | O => OutOfFuel
  | S fuel' =>
      if low <=? high then
        v ← get2 pop low 0;
        if v <=? pivot then scan_low fuel' pop pivot (low + 1) high
        else Ok low
      else Ok low
  end.

(** [while population[high, 0] >= pivot and high >= low: high -= 1] *)
Fixpoint scan_high (fuel : nat) (pop : array2) (pivot low high : Z)
  : result Z :=
  match fuel with
  | O => OutOfFuel
  | S fuel' =>
      v ← get2 pop high 0;
      if (v >=? pivot) && (high >=? low)
      then scan_high fuel' pop pivot low (high - 1)
      else Ok high
  end.

(** The [while not done] loop of [partition_population]. *)
Fixpoint partition_loop (fuel : nat) (pop : array2) (pivot low high : Z)
  : result (array2 * Z) :=
  match fuel with
  | O => OutOfFuel
  | S fuel' =>
      let inner := S (length pop) in
      low ← scan_low inner pop pivot low high;
      high ← scan_high inner pop pivot low high;
      if high <? low then Ok (pop, high)
      else
        pop ← swap_1d pop low high;
        partition_loop fuel' pop pivot low high
  end.

Definition partition_population (pop : array2) (first_idx last_idx : Z)
  : result (array2 * Z) :=
  let pivot_idx := (last_idx - first_idx) / 2 + first_idx in
  pivot ← get2 pop pivot_idx 0;
  pop ← swap_1d pop pivot_idx first_idx;
  let low := first_idx + 1 in
  let high := last_idx in
  '(pop, high) ← partition_loop (2 * length pop + 2)%nat pop pivot low high;
  pop ← swap_1d pop first_idx high;
  Ok (pop, high).

(** The [while] loop of [divide_population]. *)
Fixpoint divide_loop (fuel : nat) (pop : array2)
         (divide_idx first_idx last_idx split_idx : Z) : result array2 :=
  match fuel with
  | O => OutOfFuel
  | S fuel' =>
      if (first_idx <? last_idx) && negb (split_idx =? divide_idx) then
        '(pop, split_idx) ← partition_population pop first_idx last_idx;
        if split_idx >? divide_idx then
          divide_loop fuel' pop divide_idx first_idx (split_idx - 1) split_idx
        else if split_idx <? divide_idx then
          divide_loop fuel' pop divide_idx (split_idx + 1) last_idx split_idx
        else
          divide_loop fuel' pop divide_idx first_idx last_idx split_idx
      else Ok pop
  end.

Definition divide_population (pop : array2) (divide_idx : Z)
  : result array2 :=
  let first_idx := 0 in
  let last_idx := shape0 pop - 1 in
  let split_idx := 0 in
  divide_loop (S (length pop)) pop divide_idx first_idx last_idx split_idx.

Definition split_point (point : Z) : Z * Z :=
  (Z.shiftr point 16, Z.land point 0xffff).

(** [copy_1d(src, dst)] for two distinct arrays; returns the new [dst]. *)
Definition copy_1d (src dst : list Z) : result (list Z) :=
  foldM (fun dst i => v ← getitem src i; setitem dst i v)
        (range (Z.of_nat (length dst))) dst.

(** [copy_2d(src, dst)]; returns the new [dst]. *)
Definition copy_2d (src dst : array2) : result array2 :=
  foldM (fun dst k =>
           src_k ← getitem src k;
           dst_k ← getitem dst k;
           dst_k' ← copy_1d src_k dst_k;
           setitem dst k dst_k')
        (range (shape0 dst)) dst.

(** The [while i > dst_idx] loop of [shift_to]. *)
Fixpoint shift_down (fuel : nat) (array : list Z) (i dst_idx : Z)
  : result (list Z) :=
  match fuel with
  | O => OutOfFuel
  | S fuel' =>
      if i >? dst_idx then
        v ← getitem array (i - 1);
        array ← setitem array i v;
        shift_down fuel' array (i - 1) dst_idx
      else Ok array
  end.

(** [shift_to(src_idx, dst_idx, array)]; returns the new [array]. *)
Definition shift_to (src_idx dst_idx : Z) (array : list Z)
  : result (list Z) :=
  val ← getitem array src_idx;
  array ←
    (if src_idx <? dst_idx then
       foldM (fun array i => v ← getitem array (i + 1); setitem array i v)
             (range2 src_idx dst_idx) array
     else if dst_idx <? src_idx then
       shift_down (S (Z.to_nat (src_idx - dst_idx))) array src_idx dst_idx
     else Ok array);
  setitem array dst_idx val.

(** [zero_fill_2d(dst)]; returns the new [dst]. *)
Definition zero_fill_2d (dst : array2) : result array2 :=
  foldM (fun dst i =>
           foldM (fun dst j => set2 dst i j 0) (range (shape1 dst)) dst)
        (range (shape0 dst)) dst.

End Utils.

(** ** scoring.py *)

Module Scoring.
Import Utils.

(** One square of the challenge API: [{'X': x, 'Y': y, 'Size': n}]. *)
Record square : Set := Square { X : Z; Y : Z; Size : Z }.

(** The scanning [for k in range(n + 1)] loop with its two [break]s;
    the result is the value of [hit_wall] when the loop is left. *)
Fixpoint scan_ring (scratch : array2) (i j n : Z) (ks : list Z)
  : result bool :=
  match ks with
  | [] => Ok false
  | k :: ks' =>
      a ← get2 scratch (i + n) (j + k);
      if negb (a =? 1) then Ok true
      else
        b ← get2 scratch (i + k) (j + n);
        if negb (b =? 1) then Ok true
        else scan_ring scratch i j n ks'
  end.

(** The drawing [for k in range(n + 1)] loop. *)
Definition fill_ring (scratch : array2) (i j n : Z) (ks : list Z)
  : result array2 :=
  foldM (fun scratch k =>
           scratch ← set2 scratch (i + n) (j + k) 3;
           set2 scratch (i + k) (j + n) 3)
        ks scratch.

(** [while not hit_wall and i + n < height and j + n < width], the loop
    shared by [expand_solution] and the tail of [score_solution]; returns
    the scratch grid and the final [n]. *)
Fixpoint grow (fuel : nat) (height width : Z) (scratch : array2)
         (i j n : Z) : result (array2 * Z) :=
  match fuel with
  | O => OutOfFuel
  | S fuel' =>
      if (i + n <? height) && (j + n <? width) then
        hit_wall ← scan_ring scratch i j n (range (n + 1));
        if hit_wall : bool then Ok (scratch, n)
        else
          scratch ← fill_ring scratch i j n (range (n + 1));
          grow fuel' height width scratch i j (n + 1)
      else Ok (scratch, n)
  end.

Definition grow_fuel (height : Z) : nat := S (Z.to_nat height).

(** Body of [for point in solution] in [expand_solution]. *)
Definition expand_point (height width : Z)
           (st : array2 * list (Z * Z * Z)) (point : Z)
  : result (array2 * list (Z * Z * Z)) :=
  let '(scratch, boxes) := st in
  let '(i, j) := split_point point in
  c ← get2 scratch i j;
  if c >? 0 then
    if c =? 1 then
      '(scratch, n) ← grow (grow_fuel height) height width scratch i j 1;
      if n >? 1 then
        scratch ← set2 scratch i j 2;
        Ok (scratch, boxes ++ [(i, j, n)])
      else Ok (scratch, boxes)
    else Ok (scratch, boxes)
  else Raise AssertionError.

(** The final pass drawing all 1x1 boxes. *)
Definition sweep (height width : Z) (scratch : array2)
           (boxes : list (Z * Z * Z)) : result (list (Z * Z * Z)) :=
  foldM (fun boxes i =>
           foldM (fun boxes j =>
                    c ← get2 scratch i j;
                    if c =? 1 then Ok (boxes ++ [(i, j, 1)]) else Ok boxes)
                 (range width) boxes)
        (range height) boxes.

Definition expand_solution (puzzle : array2) (solution : list Z)
  : result (list square) :=
  let height := shape0 puzzle in
  let width := shape1 puzzle in
  let scratch := puzzle in
  '(scratch, boxes) ← foldM (expand_point height width) solution (scratch, []);
  boxes ← sweep height width scratch boxes;
  Ok (map (fun '(y, x, size) => {| X := x; Y := y; Size := size |}) boxes).

Definition is1 (scratch : array2) (i j : Z) : result bool :=
  c ← get2 scratch i j; Ok (c =? 1).

(** Body of [for point in solution] in [score_solution]; the state is
    [(scratch, score, tiles_used)]. *)
Definition score_point (height width : Z) (st : array2 * Z * Z) (point : Z)
  : result (array2 * Z * Z) :=
  let '(scratch, score, tiles_used) := st in
  let '(i, j) := split_point point in
  c2 ← all_of [is1 scratch i j; is1 scratch i (j + 1);
               is1 scratch (i + 1) j; is1 scratch (i + 1) (j + 1)];
  if c2 : bool then
    scratch ← set2 scratch (i + 0) (j + 0) 2;
    scratch ← set2 scratch (i + 0) (j + 1) 3;
    scratch ← set2 scratch (i + 1) (j + 0) 3;
    scratch ← set2 scratch (i + 1) (j + 1) 3;
    c3 ← all_of [Ok (i + 2 <? height); Ok (j + 2 <? width);
                 is1 scratch (i + 0) (j + 2);
                 is1 scratch (i + 1) (j + 2);
                 is1 scratch (i + 2) (j + 0);
                 is1 scratch (i + 2) (j + 1);
                 is1 scratch (i + 2) (j + 2)];
    '(scratch, n) ←
      (if c3 : bool then
         scratch ← set2 scratch (i + 0) (j + 2) 3;
         scratch ← set2 scratch (i + 1) (j + 2) 3;
         scratch ← set2 scratch (i + 2) (j + 0) 3;
         scratch ← set2 scratch (i + 2) (j + 1) 3;
         scratch ← set2 scratch (i + 2) (j + 2) 3;
         c4 ← all_of [Ok (i + 3 <? height); Ok (j + 3 <? width);
                      is1 scratch (i + 3) (j + 0);
                      is1 scratch (i + 3) (j + 1);
                      is1 scratch (i + 3) (j + 2);
                      is1 scratch (i + 3) (j + 3);
                      is1 scratch (i + 0) (j + 3);
                      is1 scratch (i + 1) (j + 3);
                      is1 scratch (i + 2) (j + 3)];
         if c4 : bool then
           scratch ← set2 scratch (i + 0) (j + 3) 3;
           scratch ← set2 scratch (i + 1) (j + 3) 3;
           scratch ← set2 scratch (i + 2) (j + 3) 3;
           scratch ← set2 scratch (i + 3) (j + 0) 3;
           scratch ← set2 scratch (i + 3) (j + 1) 3;
           scratch ← set2 scratch (i + 3) (j + 2) 3;
           scratch ← set2 scratch (i + 3) (j + 3) 3;
           grow (grow_fuel height) height width scratch i j 4
         else Ok (scratch, 3)
       else Ok (scratch, 2));
    Ok (scratch, score + 1, tiles_used + n * n)
  else Ok (scratch, score, tiles_used).

(** [score_solution(puzzle, puzzle_sum, scratch, solution)]; the integer
    counters are unbounded (the source's 64-bit counters cannot overflow
    on a grid whose coordinates fit 16 bits). *)
Definition score_solution (puzzle : array2) (puzzle_sum : Z)
           (scratch : array2) (solution : list Z) : result Z :=
  let height := shape0 puzzle in
  let width := shape1 puzzle in
  scratch ← copy_2d puzzle scratch;
  let score := 0 in
  let tiles_used := 0 in
  '(scratch, score, tiles_used) ←
    foldM (score_point height width) solution (scratch, score, tiles_used);
  Ok (score + (puzzle_sum - tiles_used)).

(** [get_valid_points(puzzle)].  The four cells are [uint8] and so is
    their sum.  The conversion to a [uint32] array is modelled by
    truncation; a point that does not fit is caught by the first
    assertion (a numpy that refuses the conversion raises as well). *)
Definition get_valid_points (puzzle : array2) : result (list Z) :=
  valid_points ←
    foldM (fun vps i =>
             foldM (fun vps j =>
                      a ← get2 puzzle (i + 0) (j + 0);
                      b ← get2 puzzle (i + 0) (j + 1);
                      c ← get2 puzzle (i + 1) (j + 0);
                      d ← get2 puzzle (i + 1) (j + 1);
                      let two_box := wrap8 (wrap8 (wrap8 (a + b) + c) + d) in
                      if two_box =? 4 then Ok (vps ++ [(i, j)]) else Ok vps)
                   (range (shape1 puzzle - 1)) vps)
          (range (shape0 puzzle - 1)) [];
  let valid_points_compact :=
    map (fun '(i, j) => wrap32 (Z.shiftl i 16 + j)) valid_points in
  if decide (map split_point valid_points_compact = valid_points) then
    if decide (length (remove_dups valid_points_compact)
               = length valid_points)
    then Ok valid_points_compact
    else Raise AssertionError
  else Raise AssertionError.

(** The contents [score_solution] leaves in [scratch]; the next call
    overwrites them with the puzzle. *)
Definition score_solution_scratch (puzzle scratch : array2)
           (solution : list Z) : result array2 :=
  let height := shape0 puzzle in
  let width := shape1 puzzle in
  scratch ← copy_2d puzzle scratch;
  '(scratch, _, _) ←
    foldM (score_point height width) solution (scratch, 0, 0);
  Ok scratch.

(** [score_population(puzzle, puzzle_sum, puzzle_scratch, population)];
    returns the new [population] and the scratch grid.  [population[k, 1:]]
    is the row without its first word, and the store into the [uint32]
    matrix truncates to 32 bits. *)
Definition score_population (puzzle : array2) (puzzle_sum : Z)
           (puzzle_scratch population : array2)
  : result (array2 * array2) :=
  foldM (fun '(population, puzzle_scratch) k =>
           row ← getitem population k;
           let solution := drop 1 row in
           score ← score_solution puzzle puzzle_sum puzzle_scratch solution;
           puzzle_scratch ←
             score_solution_scratch puzzle puzzle_scratch solution;
           population ← set2 population k 0 (wrap32 score);
           Ok (population, puzzle_scratch))
        (range (shape0 population)) (population, puzzle_scratch).

(** The [while not hit_wall and i + n < height and j + n < width] loop of
    [calculate_max_sizes], which scans like [expand_solution] but draws
    nothing; returns the final [n]. *)
Fixpoint max_size_loop (fuel : nat) (height width : Z) (scratch : array2)
         (i j n : Z) : result Z :=
  match fuel with
  | O => OutOfFuel
  | S fuel' =>
      if (i + n <? height) && (j + n <? width) then
        hit_wall ← scan_ring scratch i j n (range (n + 1));
        if hit_wall : bool then Ok n
        else max_size_loop fuel' height width scratch i j (n + 1)
      else Ok n
  end.

(** [calculate_max_sizes(puzzle)]: the list of [(n, point)] pairs; the
    points are Python integers and are not truncated. *)
Definition calculate_max_sizes (puzzle : array2) : result (list (Z * Z)) :=
  let height := shape0 puzzle in
  let width := shape1 puzzle in
  let scratch := puzzle in
  foldM (fun boxes i =>
           foldM (fun boxes j =>
                    c ← get2 puzzle i j;
                    if c =? 1 then
                      n ← max_size_loop (grow_fuel height) height width
                                        scratch i j 1;
                      if n >? 1 then Ok (boxes ++ [(n, Z.shiftl i 16 + j)])
                      else Ok boxes
                    else Ok boxes)
                 (range width) boxes)
        (range height) [].

End Scoring.

(** ** initialize.py *)

Module Initialize.
Import Utils.

(** A sort key maps an [(n, point)] pair to a tuple, compared
    lexicographically; a one-element tuple stands for a scalar key.  The
    source's floats are read as exact rationals. *)
Definition heuristic : Type := Z * Z -> list Q.

Definition make_angle_heuristic (pi pj pn : Q) : heuristic :=
  fun n_and_point =>
    let '(n, point) := n_and_point in
    let '(i, j) := split_point point in
    [(inject_Z i * pi + inject_Z j * pj - inject_Z n * pn)%Q].

Definition make_heuristic_list : list heuristic :=
  let hi (p : Z) := inject_Z (Z.shiftr p 16) in
  let lo (p : Z) := inject_Z (Z.land p 0xffff) in
  let heuristics : list heuristic :=
    [ (fun n_p => [inject_Z (- n_p.1); hi n_p.2; lo n_p.2]);
      (fun n_p => [inject_Z (- n_p.1); lo n_p.2; hi n_p.2]);
      (fun n_p => [hi n_p.2; inject_Z (- n_p.1); lo n_p.2]);
      (fun n_p => [lo n_p.2; inject_Z (- n_p.1); hi n_p.2]);
      (fun n_p => [hi n_p.2; lo n_p.2]);
      (fun n_p => [lo n_p.2; hi n_p.2]) ] in
  let samples := 50 in
  foldl (fun heuristics ij =>
           foldl (fun heuristics ratio =>
                    let split :=
                      (inject_Z ij / inject_Z (samples - 1))%Q in
                    heuristics ++
                      [make_angle_heuristic split (1 - split)%Q
                                            (inject_Z ratio)])
                 heuristics (range 5))
        heuristics (range samples).

(** [fill_population_repeating(population, num_heuristics)].  The source
    row [k % num_heuristics] lies below [num_heuristics] and the
    destination row [k] does not, so the two views never overlap. *)
Definition fill_population_repeating (population : array2)
           (num_heuristics : Z) : result array2 :=
  foldM (fun population k =>
           m ← py_mod k num_heuristics;
           src ← getitem population m;
           dst ← getitem population k;
           dst' ← copy_1d src dst;
           setitem population k dst')
        (range2 num_heuristics (shape0 population)) population.

(** Python's [<] on sort keys: tuples compare lexicographically, and a
    proper prefix comes first. *)
Fixpoint key_lt (a b : list Q) : bool :=
  match a, b with
  | _, [] => false
  | [], _ :: _ => true
  | x :: a', y :: b' =>
      match (x ?= y)%Q with
      | Lt => true
      | Gt => false
      | Eq => key_lt a' b'
      end
  end.

(** [max_sizes.sort(key=heuristic)].  Python's sort is stable, and the
    result of a stable sort does not depend on the algorithm; it is
    computed here by insertion, each element going behind those whose
    key is not larger. *)
Fixpoint insert_by (h : heuristic) (x : Z * Z) (l : list (Z * Z))
  : list (Z * Z) :=
  match l with
  | [] => [x]
  | y :: l' =>
      if key_lt (h x) (h y) then x :: y :: l' else y :: insert_by h x l'
  end.

Definition sort_by (h : heuristic) (l : list (Z * Z)) : list (Z * Z) :=
  foldl (fun sorted x => insert_by h x sorted) [] l.

(** [init_population(puzzle, puzzle_sum, puzzle_scratch, count)]; returns
    the population and the scratch grid.  [count] is a number of rows
    (numpy refuses a negative one); the points are stored into [uint32]
    words; [population[:len(heuristics)]] is the matrix of the first
    rows, written back in place. *)
Definition init_population (puzzle : array2) (puzzle_sum : Z)
           (puzzle_scratch : array2) (count : Z)
  : result (array2 * array2) :=
  max_sizes ← Scoring.calculate_max_sizes puzzle;
  let population :=
    replicate (Z.to_nat count) (replicate (S (length max_sizes)) 0) in
  let heuristics := make_heuristic_list in
  '(max_sizes, population) ←
    foldM (fun '(max_sizes, population) '(k, heuristic) =>
             let max_sizes := sort_by heuristic max_sizes in
             row ← getitem population k;
             population ←
               setitem population k
                       (take 1 row ++ (wrap32 <$> max_sizes.*2));
             Ok (max_sizes, population))
          (zip (range (Z.of_nat (length heuristics))) heuristics)
          (max_sizes, population);
  let seeds := length heuristics in
  '(scored, puzzle_scratch) ←
    Scoring.score_population puzzle puzzle_sum puzzle_scratch
                             (take seeds population);
  let population := scored ++ drop seeds population in
  population ←
    fill_population_repeating population (Z.of_nat (length heuristics));
  Ok (population, puzzle_scratch).

End Initialize.

(** ** gridea.py *)

Module Gridea.
Import Utils.

(** The output row together with a ghost log of the writes made to it,
    each as [(index, value)], oldest first. *)
Abbreviation logged := (list Z * list (Z * Z))%type.

Definition write (out : logged) (i v : Z) : result logged :=
  d ← setitem out.1 i v; Ok (d, out.2 ++ [(i, v)]).

(** The three-way branch that places one point; it occurs once in
    [copy_and_mutate] and twice in [crossover_and_mutate].  The state is
    [(solution_out, out_idx, shift_fwd_idx, shift_back_idx)]. *)
Definition place (size : Z) (st : logged * Z * Z * Z) (point : Z)
  : result (logged * Z * Z * Z) :=
  let '(out, out_idx, shift_fwd_idx, shift_back_idx) := st in
  if out_idx =? shift_fwd_idx then
    out ← write out 0 point;
    Ok (out, out_idx, 0, shift_back_idx)
  else if out_idx =? shift_back_idx then
    out ← write out (size - 1) point;
    Ok (out, out_idx, shift_fwd_idx, 0)
  else
    out ← write out out_idx point;
    Ok (out, out_idx + 1, shift_fwd_idx, shift_back_idx).

(** [copy_and_mutate(solution_in, solution_out, random_state)], for an
    output row distinct from the input row (the caller reads a survivor
    and writes a spawn slot). *)
Definition copy_and_mutate (solution_in solution_out : list Z)
           (rs : random_state) : result (logged * random_state) :=
  let size := Z.of_nat (length solution_out) in
  let '(r, rs) := xorshift rs in
  m ← py_mod r (size - 1);
  let shift_fwd_idx := m + 1 in
  let '(r, rs) := xorshift rs in
  m ← py_mod r (size - 1);
  let shift_back_idx := m + 1 in
  let out_idx := 1 in
  '(out, _, _, _) ←
    foldM (place size) solution_in
          ((solution_out, []), out_idx, shift_fwd_idx, shift_back_idx);
  Ok (out, rs).

(** The half-plane test [i_mult * i + j_mult * j <= split]. *)
Definition above (i_mult j_mult split point : Z) : bool :=
  let '(i, j) := split_point point in
  i_mult * i + j_mult * j <=? split.

Definition crossover_and_mutate (solution_a solution_b solution_out : list Z)
           (rs : random_state) (puzzle : array2)
  : result (logged * random_state) :=
  let large_number := 10000 in
  let '(r, rs) := xorshift rs in
  split ← py_mod r large_number;
  let '(r, rs) := xorshift rs in
  p ← py_mod r large_number;
  i_mult ← py_floordiv p (shape0 puzzle);
  j_mult ← py_floordiv (large_number - p) (shape1 puzzle);
  let size := Z.of_nat (length solution_out) in
  let '(r, rs) := xorshift rs in
  m ← py_mod r (size - 1);
  let shift_fwd_idx := m + 1 in
  let '(r, rs) := xorshift rs in
  m ← py_mod r (size - 1);
  let shift_back_idx := m + 1 in
  let out_idx := 1 in
  st ← foldM (fun st point =>
                if above i_mult j_mult split point
                then place size st point else Ok st)
             solution_a
             ((solution_out, []), out_idx, shift_fwd_idx, shift_back_idx);
  '(out, _, _, _) ←
    foldM (fun st point =>
             if negb (above i_mult j_mult split point)
             then place size st point else Ok st)
          solution_b st;
  Ok (out, rs).

(** [mutate(solution)], the unoptimized operator; the two results of
    [random.randint(0, solution.shape[0])], which lie between [0] and the
    length inclusive, are arguments. *)
Definition mutate (solution : list Z) (shift_fwd_idx shift_back_idx : Z)
  : result (list Z) :=
  solution ← shift_to shift_fwd_idx 0 solution;
  shift_to shift_back_idx (Z.of_nat (length solution) - 1) solution.

(** [spawn_new_population_members(population, spawn_count, puzzle,
    random_state)]; returns the new [population] and random state.  The
    rows [population[a]], [population[b]] and [population[k]] are views
    of one matrix; where the indexing succeeds [a] and [b] lie below
    [split_point] and [k] does not, so the output row is never an input
    row. *)
Definition spawn_new_population_members (population : array2)
           (spawn_count : Z) (puzzle : array2) (rs : random_state)
  : result (array2 * random_state) :=
  let split_point := shape0 population - spawn_count in
  foldM (fun '(population, rs) k =>
           let '(r, rs) := xorshift rs in
           a ← py_mod r split_point;
           if k mod 2 =? 0 then
             let '(r, rs) := xorshift rs in
             b ← py_mod r split_point;
             row_a ← getitem population a;
             row_b ← getitem population b;
             row_k ← getitem population k;
             '(out, rs) ← crossover_and_mutate row_a row_b row_k rs puzzle;
             population ← setitem population k out.1;
             Ok (population, rs)
           else
             row_a ← getitem population a;
             row_k ← getitem population k;
             '(out, rs) ← copy_and_mutate row_a row_k rs;
             population ← setitem population k out.1;
             Ok (population, rs))
        (range2 split_point (shape0 population)) (population, rs).

(** First row of the slice [population[start:]] of [len] rows. *)
Definition slice_start (len start : Z) : nat :=
  Z.to_nat (if start <? 0 then Z.max 0 (len + start) else Z.min start len).

(** [GrideaWorker.generation()] on the worker's [population], [puzzle],
    [puzzle_scratch], [puzzle_sum], [random_state] and the arguments
    [pop_size] and [spawn_count].  The view [population[:, 1:]] is the
    matrix without its score column, written back column-wise; the view
    [population[pop_size:]] is the matrix without its first rows. *)
Definition generation (population puzzle puzzle_scratch : array2)
           (puzzle_sum pop_size spawn_count : Z) (rs : random_state)
  : result (array2 * array2 * random_state) :=
  population ← divide_population population pop_size;
  '(members, rs) ←
    spawn_new_population_members (drop 1 <$> population) spawn_count
                                 puzzle rs;
  let population :=
    zip_with (fun row member => take 1 row ++ member) population members in
  let start := slice_start (shape0 population) pop_size in
  '(scored, puzzle_scratch) ←
    Scoring.score_population puzzle puzzle_sum puzzle_scratch
                             (drop start population);
  Ok (take start population ++ scored, puzzle_scratch, rs).

End Gridea.

(** ** network.py *)

Module Network.

(** The class attributes of [GlobalBest].  [None] is Python's [None];
    the lock makes [reset] and [update] atomic, so each is one state
    transition.  The clock reading [time.time()] is an argument. *)
Record GlobalBest : Type := MkGlobalBest {
  puzzle_id : option string;
  score : option Z;
  solution : option (list Z);
  timestamp : Q
}.

Definition reset (cls : GlobalBest) (puzzle_id : option string) (now : Q)
  : GlobalBest :=
  {| puzzle_id := puzzle_id; score := None; solution := None;
     timestamp := now |}.

Definition update (cls : GlobalBest) (puzzle_id : option string)
           (score : Z) (solution : list Z) (now : Q) : bool * GlobalBest :=
  if negb (bool_decide (puzzle_id = cls.(Network.puzzle_id))) then
    (* log.warning(...) *)
    (false, cls)
  else if match cls.(Network.score) with
          | None => true
          | Some current => score <? current
          end
  then
    (true, {| puzzle_id := cls.(Network.puzzle_id);
              score := Some score;
              solution := Some solution;
              timestamp := now |})
  else (false, cls).

(** Protocol instances are named by numbers.  What a call does to the
    connections is the list of lines it hands to [sendLine] of a
    peer. *)
Inductive action : Set :=
| SendLine (peer : nat) (line : string).

(** [GrideaProtocol.broadcast(self, line)] over the class attribute
    [peers]; Python iterates the set in an order of its own, here the
    order of [elements]. *)
Definition broadcast (self : nat) (line : string) (peers : gset nat)
  : list action :=
  (fun peer => SendLine peer line)
    <$> filter (fun peer => peer <> self) (elements peers).

(** [GrideaProtocol.best(self, puzzle_id, score, solution)]: the new
    register and the lines sent.  [json_dumps] stands for the encoding
    [json.dumps({'puzzle_id': ..., 'score': ..., 'solution': ...})]. *)
Definition best (json_dumps : option string -> Z -> list Z -> string)
           (self : nat) (peers : gset nat) (cls : GlobalBest)
           (puzzle_id : option string) (score : Z) (solution : list Z)
           (now : Q) : GlobalBest * list action :=
  let '(accepted, cls) := update cls puzzle_id score solution now in
  (cls, if accepted : bool
        then broadcast self (json_dumps puzzle_id score solution) peers
        else []).

End Network.

(** ** gridea.py: the worker's entry point *)

Module GrideaWorker.
Import Utils.

(** [column.argmin()]: the first index of the least element.  (numpy
    raises on an empty column; here the row lookup that follows the
    call raises in its place.) *)
Fixpoint argmin_from (best_idx best i : Z) (l : list Z) : Z :=
  match l with
  | [] => best_idx
  | x :: l' =>
      if x <? best then argmin_from i x (i + 1) l'
      else argmin_from best_idx best (i + 1) l'
  end.

Definition argmin (l : list Z) : Z :=
  match l with
  | [] => 0
  | x :: l' => argmin_from 0 x 1 l'
  end.

(** The state of [solve]'s loop: population, scratch grid, random state,
    the register [GlobalBest] and the lines sent so far. *)
Definition worker : Type :=
  array2 * array2 * random_state * Network.GlobalBest
  * list Network.action.

Section Solve.
Variable json_dumps : option string -> Z -> list Z -> string.
(** The worker's own protocol instance and the connected peers. *)
Variables (self : nat) (peers : gset nat).
Variables (puzzle_id : option string) (puzzle : array2).
Variables (puzzle_sum pop_size spawn_count : Z).

(** [best_idx = self.population[:, 0].argmin()] followed by
    [self.network.best(self.puzzle_id,
                       int(self.population[best_idx, 0]),
                       map(int, self.population[best_idx, 1:]))]. *)
Definition share (cls : Network.GlobalBest) (population : array2)
           (now : Q) : result (Network.GlobalBest * list Network.action) :=
  let best_idx := argmin (hd 0 <$> population) in
  score ← get2 population best_idx 0;
  row ← getitem population best_idx;
  Ok (Network.best json_dumps self peers cls puzzle_id score
                   (drop 1 row) now).

(** The loop [while time.time() < stop_time].  The clock decides how
    many rounds there are and which of them share the best member:
    [ticks] has one entry per round, [Some now] for a round that
    shares at time [now]. *)
Fixpoint evolve (ticks : list (option Q)) (st : worker) : result worker :=
  match ticks with
  | [] => Ok st
  | tick :: ticks' =>
      let '(population, puzzle_scratch, rs, cls, sent) := st in
      '(population, puzzle_scratch, rs) ←
        Gridea.generation population puzzle puzzle_scratch puzzle_sum
                          pop_size spawn_count rs;
      '(cls, sent) ←
        match tick with
        | Some now =>
            '(cls, lines) ← share cls population now;
            Ok (cls, sent ++ lines)
        | None => Ok (cls, sent)
        end;
      evolve ticks' (population, puzzle_scratch, rs, cls, sent)
  end.
End Solve.

(** [GrideaWorker.solve(puzzle_metadata)] for the puzzle
    [np.array(puzzle_metadata['puzzle'], dtype=np.uint8)] and its id;
    [puzzle_scratch] is the uninitialised grid of the puzzle's shape,
    [now] the time of the last report.  Returns the squares, the
    register and the lines sent. *)
Definition solve (json_dumps : option string -> Z -> list Z -> string)
           (self : nat) (peers : gset nat)
           (puzzle_id : option string) (puzzle puzzle_scratch : array2)
           (pop_size spawn_count : Z) (rs : random_state)
           (cls : Network.GlobalBest) (ticks : list (option Q)) (now : Q)
  : result (list Scoring.square * Network.GlobalBest
            * list Network.action) :=
  let puzzle_sum := np_sum puzzle in
  '(population, puzzle_scratch) ←
    Initialize.init_population puzzle puzzle_sum puzzle_scratch
                               (pop_size + spawn_count);
  '(population, puzzle_scratch, rs, cls, sent) ←
    evolve json_dumps self peers puzzle_id puzzle puzzle_sum pop_size
           spawn_count ticks (population, puzzle_scratch, rs, cls, []);
  '(cls, lines) ←
    share json_dumps self peers puzzle_id cls population now;
  let best_idx := argmin (hd 0 <$> population) in
  row ← getitem population best_idx;
  squares ← Scoring.expand_solution puzzle (drop 1 row);
  Ok (squares, cls, sent ++ lines).

End GrideaWorker.

(** ** Specification vocabulary *)

(** A sequence of [GlobalBest.update] calls with no [reset] in between. *)
Definition run_updates (cls : Network.GlobalBest)
           (calls : list (option string * Z * list Z * Q))
  : Network.GlobalBest :=
  foldl (fun g '(pid, sc, sol, now) => (Network.update g pid sc sol now).2)
        cls calls.

(** The 4x4 all-interior puzzle and the packed points (1,1) and (0,0). *)
Definition full4 : array2 := replicate 4 (replicate 4 1).
Definition pt_1_1 : Z := 0x00010001.
Definition pt_0_0 : Z := 0x00000000.


(** The value of a cell ([0] outside the array), the in-bounds predicate
    and the unchecked single-cell update. *)
Definition cell (a : array2) (i j : Z) : Z :=
  match get2 a i j with Ok v => v | _ => 0 end.
Definition inb (a : array2) (i j : Z) : Prop :=
  0 <= i < shape0 a /\ 0 <= j < shape1 a.
Definition upd (a : array2) (i j v : Z) : array2 :=
  alter (<[Z.to_nat j := v]>) (Z.to_nat i) a.
Definition same_shape (a b : array2) : Prop :=
  shape0 a = shape0 b /\ shape1 a = shape1 b.


(** Exchange of two whole rows. *)
Definition swap_rows (pop : array2) (a b : Z) : array2 :=
  match pop !! Z.to_nat a, pop !! Z.to_nat b with
  | Some ra, Some rb => <[Z.to_nat b := ra]> (<[Z.to_nat a := rb]> pop)
  | _, _ => pop
  end.

(** The score of row [i]: [population[i, 0]]. *)
Definition key (pop : array2) (i : Z) : Z := cell pop i 0.

(** Every row below [k] scores no more than every row from [k] on. *)
Definition divided (pop : array2) (k : Z) : Prop :=
  forall i j, 0 <= i < k -> k <= j < shape0 pop -> key pop i <= key pop j.

(** [pop'] is [pop] with the rows of the index range [lo..hi] permuted
    among themselves. *)
Definition shuffled (lo hi : Z) (pop pop' : array2) : Prop :=
  rectangular pop' /\ same_shape pop' pop /\ pop' ≡ₚ pop /\
  (forall i, lo <= i <= hi -> exists i', lo <= i' <= hi /\ key pop' i = key pop i') /\
  (forall i, 0 <= i -> i < lo \/ hi < i -> key pop' i = key pop i).

(** The array obtained from [out0] by performing the logged writes. *)
Definition replay (log : list (Z * Z)) (out0 : list Z) : list Z :=
  foldl (fun o w => <[Z.to_nat w.1 := w.2]> o) out0 log.

(** State [(solution_out, out_idx, shift_fwd_idx, shift_back_idx)] of the
    placement loop after the points [pre], for an output row that started
    as [out0] and diversion indices drawn as [f] and [b]. *)
Definition place_inv (out0 : list Z) (f b : Z) (pre : list Z)
           (st : list Z * list (Z * Z) * Z * Z * Z) : Prop :=
  let '(out, out_idx, fw, bk) := st in
  out.1 = replay out.2 out0
  /\ out.2.*2 = pre
  /\ 1 <= out_idx
  /\ (fw = 0 \/ (fw = f /\ out_idx <= f))
  /\ (bk = 0 \/ (bk = b /\ out_idx <= b))
  /\ out.2.*1 ≡ₚ seqZ 1 (out_idx - 1)
                  ++ (if fw =? 0 then [0] else [])
                  ++ (if bk =? 0 then [Z.of_nat (length out0) - 1] else []).

(** Cell [(r, c)] lies in the square of side [n] anchored at [(i, j)]. *)
Definition in_square (i j n r c : Z) : Prop :=
  i <= r < i + n /\ j <= c < j + n.

(** The cells the growth loop tests before extending a square of side [n]:
    all are interior and free. *)
Definition ring_clear (s : array2) (i j n : Z) : bool :=
  forallb (fun k => (cell s (i + n) (j + k) =? 1) && (cell s (i + k) (j + n) =? 1))
          (range (n + 1)).

(** Cells covered by the boxes of a list of [(row, col, size)] triples. *)
Definition box_tiles (bs : list (Z * Z * Z)) : Z :=
  foldr (fun b acc => b.2 * b.2 + acc) 0 bs.

(** What one point does to the scratch grid [s]: nothing, or one square of
    side [n >= 2] anchored at [(i, j)], drawn over cells that were all
    free, the anchor marked 2 and the rest 3. *)
Definition drawn (s s' : array2) (i j : Z) (bs : list (Z * Z * Z)) : Prop :=
  (bs = [] /\ s' = s)
  \/ (exists n, bs = [(i, j, n)] /\ 2 <= n
        /\ i + n <= shape0 s /\ j + n <= shape1 s
        /\ (forall r c, in_square i j n r c -> cell s r c = 1)
        /\ (forall r c,
              cell s' r c =
              if decide (in_square i j n r c)
              then (if bool_decide (r = i /\ c = j) then 2 else 3)
              else cell s r c)).

(** The free cells of a scratch grid (the interior cells of a puzzle), in
    the row-major order of the final sweep. *)
Definition free_cells (s : array2) : list (Z * Z) :=
  filter (fun rc => cell s rc.1 rc.2 = 1)
         (cprod (range (shape0 s)) (range (shape1 s))).

(** Cell [(r, c)] lies in the box [(row, col, size)]. *)
Definition box_covers (b : Z * Z * Z) (r c : Z) : Prop :=
  in_square b.1.1 b.1.2 b.2 r c.

(** Cell [(r, c)] lies in a square of the API format ([Y] is the row). *)
Definition covers (q : Scoring.square) (r c : Z) : Prop :=
  in_square (Scoring.Y q) (Scoring.X q) (Scoring.Size q) r c.

(** No cell lies in two boxes of the list (boxes taken by position). *)
Definition pairwise_disjoint {B} (cov : B -> Z -> Z -> Prop) (l : list B) : Prop :=
  forall k1 k2 b1 b2, l !! k1 = Some b1 -> l !! k2 = Some b2 -> k1 <> k2 ->
    forall r c, ~ (cov b1 r c /\ cov b2 r c).

(** Every cell is 0 or 1. *)
Definition binary (a : array2) : Prop :=
  Forall (Forall (fun v => v = 0 \/ v = 1)) a.

(** A point whose 2x2 south-east block lies in the grid and is interior. *)
Definition valid_point (puzzle : array2) (p : Z) : Prop :=
  let '(i, j) := Utils.split_point p in
  0 <= i /\ 0 <= j /\ i + 1 < shape0 puzzle /\ j + 1 < shape1 puzzle
  /\ cell puzzle i j = 1 /\ cell puzzle i (j + 1) = 1
  /\ cell puzzle (i + 1) j = 1 /\ cell puzzle (i + 1) (j + 1) = 1.

(** The state [(scratch, boxes)] of the expander's loop, relative to the
    puzzle: free cells are interior cells no box covers, every interior
    cell is free or covered, boxes lie on interior cells and do not
    overlap, and free cells and box areas add up to the interior. *)
Definition expand_inv (puzzle s : array2) (boxes : list (Z * Z * Z)) : Prop :=
  rectangular s /\ same_shape s puzzle
  /\ (forall r c, cell puzzle r c = 1 -> 1 <= cell s r c)
  /\ (forall r c, cell s r c = 1 ->
        cell puzzle r c = 1 /\ Forall (fun b => ~ box_covers b r c) boxes)
  /\ (forall r c, cell puzzle r c = 1 ->
        cell s r c = 1 \/ Exists (fun b => box_covers b r c) boxes)
  /\ (forall b r c, b ∈ boxes -> box_covers b r c -> cell puzzle r c = 1)
  /\ pairwise_disjoint box_covers boxes
  /\ Z.of_nat (length (free_cells s)) + box_tiles boxes
     = Z.of_nat (length (free_cells puzzle)).

(** A box [(row, col, size)] in the API format. *)
Definition to_square (b : Z * Z * Z) : Scoring.square :=
  let '(y, x, size) := b in
  {| Scoring.X := x; Scoring.Y := y; Scoring.Size := size |}.

(** Sample data for the instances below. *)
Definition zeros4 : array2 := replicate 4 (replicate 4 0).
Definition full4_points : list Z :=
  [0x00000000; 0x00000001; 0x00000002;
   0x00010000; 0x00010001; 0x00010002;
   0x00020000; 0x00020001; 0x00020002].
Definition full4_solution : list Z :=
  [0x00010001; 0x00000000; 0x00000001; 0x00000002;
   0x00010000; 0x00010002;
   0x00020000; 0x00020001; 0x00020002].
Definition sample_population : array2 :=
  [[5; 10; 11]; [3; 20; 21]; [9; 30; 31]; [1; 40; 41]; [7; 50; 51]; [3; 60; 61]].
Definition seeded_population : array2 :=
  (fun k => [k; 7]) <$> seqZ 0 258.

(** The four words of a random state are [uint32] values. *)
Definition words32 (rs : Utils.random_state) : Prop :=
  0 <= Utils.s0 rs < 2 ^ 32 /\ 0 <= Utils.s1 rs < 2 ^ 32
  /\ 0 <= Utils.s2 rs < 2 ^ 32 /\ 0 <= Utils.s3 rs < 2 ^ 32.

(** The random state after [n] calls of [xorshift]. *)
Fixpoint xorshift_iter (n : nat) (rs : Utils.random_state)
  : Utils.random_state :=
  match n with
  | O => rs
  | S n' => xorshift_iter n' (Utils.xorshift rs).2
  end.

(** The 2x2 block whose north-west corner is [rc] is interior. *)
Definition block_free (puzzle : array2) (rc : Z * Z) : Prop :=
  cell puzzle rc.1 rc.2 = 1 /\ cell puzzle rc.1 (rc.2 + 1) = 1
  /\ cell puzzle (rc.1 + 1) rc.2 = 1 /\ cell puzzle (rc.1 + 1) (rc.2 + 1) = 1.

(** The corners of the interior 2x2 blocks of a puzzle, row by row. *)
Definition anchors (puzzle : array2) : list (Z * Z) :=
  filter (block_free puzzle)
         (cprod (range (shape0 puzzle - 1)) (range (shape1 puzzle - 1))).

(** The packed form [(i << 16) + j] of a coordinate pair. *)
Definition pack (rc : Z * Z) : Z := Z.shiftl rc.1 16 + rc.2.

(** An all-interior square of side [n] fits the grid at [(i, j)]. *)
Definition square_free (puzzle : array2) (i j n : Z) : Prop :=
  i + n <= shape0 puzzle /\ j + n <= shape1 puzzle
  /\ forall r c, in_square i j n r c -> cell puzzle r c = 1.

(** [box] is the pair [(n, point)] of the packed corner [rc] and the side
    [n >= 2] of the largest all-interior square anchored there. *)
Definition largest_square_at (puzzle : array2) (box : Z * Z) (rc : Z * Z)
  : Prop :=
  box.2 = pack rc /\ 2 <= box.1
  /\ square_free puzzle rc.1 rc.2 box.1
  /\ ~ square_free puzzle rc.1 rc.2 (box.1 + 1).

(** The unit box on a cell. *)
Definition unit_box (rc : Z * Z) : Z * Z * Z := (rc.1, rc.2, 1).

(** The area of a list of squares. *)
Definition squares_area (qs : list Scoring.square) : Z :=
  foldr (fun q acc => Scoring.Size q * Scoring.Size q + acc) 0 qs.

(** The interior cells no box of the list covers, row by row. *)
Definition uncovered (puzzle : array2) (boxes : list (Z * Z * Z))
  : list (Z * Z) :=
  filter (fun rc => cell puzzle rc.1 rc.2 = 1
                    /\ Forall (fun b => ~ box_covers b rc.1 rc.2) boxes)
         (cprod (range (shape0 puzzle)) (range (shape1 puzzle))).

(** The row of a population matrix after scoring: the score, truncated to
    32 bits, in front of the unchanged permutation. *)
Definition scored_row (puzzle : array2) (puzzle_sum : Z) (scratch : array2)
           (row : list Z) : list Z :=
  match Scoring.score_solution puzzle puzzle_sum scratch (drop 1 row) with
  | Ok sc => wrap32 sc :: drop 1 row
  | _ => row
  end.

(** Every row holds, after its score word, valid points only. *)
Definition members_valid (puzzle population : array2) : Prop :=
  Forall (fun row => Forall (valid_point puzzle) (drop 1 row)) population.

(** A population row: a score word followed by a permutation of [P]. *)
Definition member_of (P : list Z) (row : list Z) : Prop :=
  (0 < length row)%nat /\ drop 1 row ≡ₚ P.

(** The first word of the row is the score of the row's permutation. *)
Definition carries_score (puzzle : array2) (puzzle_sum : Z) (scratch : array2)
           (row : list Z) : Prop :=
  exists sc,
    Scoring.score_solution puzzle puzzle_sum scratch (drop 1 row) = Ok sc
    /\ hd 0 row = wrap32 sc.

(** Sample populations: two survivors and two free rows without score
    column, and three scored members over the points of [full4]. *)
Definition sample_members : array2 :=
  [[10; 20; 30]; [30; 10; 20]; [0; 0; 0]; [0; 0; 0]].
Definition full4_population : array2 :=
  [7 :: full4_points; 9 :: full4_solution; 8 :: full4_points].



(** Further sample data: the 2x2 puzzle with its single valid point, a
    puzzle with a wall in the corner, and an encoder of reports. *)
Definition block2 : array2 := [[1; 1]; [1; 1]].
Definition zeros2 : array2 := [[0; 0]; [0; 0]].
Definition no_dumps (puzzle_id : option string) (score : Z)
           (solution : list Z) : string := EmptyString.
(** * Properties *)

(** ** The result monad *)

Lemma bind_Ok {A B} (m : result A) (k : A -> result B) (b : B) :
  m ≫= k = Ok b <-> exists a, m = Ok a /\ k a = Ok b.
Proof.
  destruct m as [a| |]; simpl; split.
  - intros H. exists a. auto.
  - intros (a' & Ha & Hk). inversion Ha. subst. exact Hk.
  - discriminate.
  - intros (a' & Ha & _). discriminate.
  - discriminate.
  - intros (a' & Ha & _). discriminate.
Qed.

Lemma bind_ret {A B} (a : A) (k : A -> result B) : Ok a ≫= k = k a.
Proof. reflexivity. Qed.

(** ** xorshift *)

Section Xorshift.
Import Utils.

(** When the first word is below 2^21 the left shift by 11 does not
    overflow 32 bits, so the width of the intermediate is immaterial. *)
Lemma xorshift_wide_small (rs : random_state) :
  0 <= s0 rs < 2 ^ 21 -> xorshift_wide rs = xorshift rs.
Proof.
  intros H. unfold xorshift_wide, xorshift, wrap32.
  assert (Hs : 0 <= Z.shiftl (s0 rs) 11 < 2 ^ 32).
  { rewrite Z.shiftl_mul_pow2 by lia. lia. }
  rewrite (Z.mod_small (Z.shiftl (s0 rs) 11) (2 ^ 32)) by lia.
  rewrite (Z.mod_small (Z.shiftl (s0 rs) 11) (2 ^ 64)) by lia.
  reflexivity.
Qed.

(** The value the spec quotes is not what the recurrence yields. *)
Lemma xorshift_1234_not_105A01 :
  (xorshift (RandomState 1 2 3 4)).1 <> 0x00105A01.
Proof. vm_compute. discriminate. Qed.

(** C7 (amended): from the state [1, 2, 3, 4] the first value returned by
    [xorshift] is 0x0000080D, and the state becomes [2, 3, 4, 0x80D]:
    t = 1 XOR (1 << 11) = 0x801 and 4 XOR (4 >> 19) XOR t XOR (t >> 8)
    = 0x80D in 32-bit arithmetic. *)
Theorem xorshift_1234_first_output :
  xorshift (RandomState 1 2 3 4) = (0x0000080D, RandomState 2 3 4 0x80D)
  /\ (let t := Z.lxor 1 (wrap32 (Z.shiftl 1 11)) in
      t = 0x801
      /\ wrap32 (Z.lxor (Z.lxor (Z.lxor 4 (Z.shiftr 4 19)) t) (Z.shiftr t 8))
         = 0x80D).
Proof. vm_compute. auto. Qed.

End Xorshift.

(** ** GlobalBest *)

Section GlobalBestRegister.
Import Network.

Lemma update_false_unchanged cls pid sc sol now :
  (update cls pid sc sol now).1 = false -> (update cls pid sc sol now).2 = cls.
Proof.
  unfold update. destruct (negb _); [reflexivity|].
  destruct (score cls) as [cur|]; [|discriminate].
  destruct (sc <? cur); [discriminate|reflexivity].
Qed.

Lemma update_true_iff cls pid sc sol now :
  (update cls pid sc sol now).1 = true <->
  pid = puzzle_id cls
  /\ (score cls = None \/ exists cur, score cls = Some cur /\ sc < cur).
Proof.
  unfold update. case_bool_decide as Hid; simpl.
  - destruct (score cls) as [cur|] eqn:Hs.
    + destruct (Z.ltb_spec sc cur); simpl; split.
      * intros _. split; [assumption|]. right. exists cur. auto.
      * reflexivity.
      * discriminate.
      * intros (_ & [Hn | (c & Hc & Hlt)]); [discriminate|].
        inversion Hc. lia.
    + simpl. split; [intros _; auto | reflexivity].
  - split; [discriminate | intros [Heq _]; contradiction].
Qed.

Lemma update_score_step cls pid sc sol now s :
  score cls = Some s ->
  exists s', score (update cls pid sc sol now).2 = Some s' /\ s' <= s.
Proof.
  intros Hs. unfold update. destruct (negb _); simpl.
  - exists s. split; [assumption | lia].
  - rewrite Hs. destruct (Z.ltb_spec sc s); simpl.
    + exists sc. split; [reflexivity | lia].
    + exists s. split; [assumption | lia].
Qed.

Lemma run_updates_score calls : forall cls s,
  score cls = Some s ->
  exists s', score (run_updates cls calls) = Some s' /\ s' <= s.
Proof.
  induction calls as [|[[[pid sc] sol] now] calls IH]; intros cls s Hs.
  - exists s. split; [assumption | lia].
  - destruct (update_score_step cls pid sc sol now s Hs) as (s1 & H1 & Hle).
    destruct (IH _ _ H1) as (s2 & H2 & Hle2).
    exists s2. split; [exact H2 | lia].
Qed.

Lemma run_updates_puzzle_id calls : forall cls,
  puzzle_id (run_updates cls calls) = puzzle_id cls.
Proof.
  induction calls as [|[[[pid sc] sol] now] calls IH]; intros cls.
  - reflexivity.
  - simpl. rewrite IH. unfold update.
    destruct (negb _); [reflexivity|].
    destruct (match score cls with Some c => sc <? c | None => true end);
      reflexivity.
Qed.

(** C5: [update] returns true exactly when the id matches and the stored
    score is unset or strictly greater than the new one, and then stores
    the new score and solution; when it returns false the register is
    unchanged; hence over any run of updates without a reset the stored
    score, once set, never increases (and the id stays the same). *)
Theorem GlobalBest_update_spec cls pid sc sol now :
  ((update cls pid sc sol now).1 = true <->
     pid = puzzle_id cls
     /\ (score cls = None \/ exists cur, score cls = Some cur /\ sc < cur))
  /\ ((update cls pid sc sol now).1 = true ->
      (update cls pid sc sol now).2
      = MkGlobalBest (puzzle_id cls) (Some sc) (Some sol) now)
  /\ ((update cls pid sc sol now).1 = false ->
      (update cls pid sc sol now).2 = cls)
  /\ (forall calls s, score cls = Some s ->
        exists s', score (run_updates cls calls) = Some s' /\ s' <= s)
  /\ (forall calls, puzzle_id (run_updates cls calls) = puzzle_id cls).
Proof.
  split; [apply update_true_iff|].
  split.
  { unfold update. destruct (negb _); [discriminate|].
    destruct (match score cls with Some c => sc <? c | None => true end);
      [reflexivity | discriminate]. }
  split; [apply update_false_unchanged|].
  split; [intros calls s; apply run_updates_score|].
  intros calls. apply run_updates_puzzle_id.
Qed.

End GlobalBestRegister.

(** ** Loops *)

Lemma foldM_app {A S} (body : S -> A -> result S) l1 l2 s :
  foldM body (l1 ++ l2) s = foldM body l1 s ≫= foldM body l2.
Proof.
  revert s. induction l1 as [|x l1 IH]; intros s; simpl; [reflexivity|].
  destruct (body s x); simpl; auto.
Qed.

(** Invariant rule for a [for] loop: [I pre s] relates the state to the
    part [pre] of the list already traversed. *)
Lemma foldM_inv {A S} (I : list A -> S -> Prop) (body : S -> A -> result S)
      (l : list A) (s0 : S) :
  I [] s0 ->
  (forall pre x post s, l = pre ++ x :: post -> I pre s ->
     exists s', body s x = Ok s' /\ I (pre ++ [x]) s') ->
  exists s', foldM body l s0 = Ok s' /\ I l s'.
Proof.
  intros H0 Hstep.
  assert (G : forall post pre s, l = pre ++ post -> I pre s ->
            exists s', foldM body post s = Ok s' /\ I l s').
  { induction post as [|x post IH]; intros pre s Hl Hs.
    - rewrite app_nil_r in Hl. subst pre. exists s. split; [reflexivity|assumption].
    - destruct (Hstep pre x post s Hl Hs) as (s1 & Hb & H1).
      destruct (IH (pre ++ [x]) s1) as (s2 & Hf & H2).
      + rewrite <- app_assoc. exact Hl.
      + exact H1.
      + exists s2. split; [|exact H2]. simpl. rewrite Hb. exact Hf. }
  apply (G l [] s0); [reflexivity | exact H0].
Qed.

(** The same rule for [for k in range(a, a + n)], indexed by the counter. *)
Lemma foldM_seqZ_inv {S} (I : Z -> S -> Prop) (body : S -> Z -> result S)
      (a n : Z) (s0 : S) :
  0 <= n ->
  I a s0 ->
  (forall k s, a <= k < a + n -> I k s ->
     exists s', body s k = Ok s' /\ I (k + 1) s') ->
  exists s', foldM body (seqZ a n) s0 = Ok s' /\ I (a + n) s'.
Proof.
  intros Hn H0 Hstep.
  destruct (foldM_inv (fun pre s => I (a + Z.of_nat (length pre)) s) body
                      (seqZ a n) s0) as (s' & Hf & Hs').
  - simpl. rewrite Z.add_0_r. exact H0.
  - intros pre x post s Hl Hs.
    assert (Hx : seqZ a n !! length pre = Some x).
    { rewrite Hl. rewrite lookup_app_r by lia.
      rewrite Nat.sub_diag. reflexivity. }
    apply lookup_seqZ in Hx. destruct Hx as [-> Hlt].
    destruct (Hstep (a + Z.of_nat (length pre)) s) as (s' & Hb & H1);
      [lia | exact Hs |].
    exists s'. split; [exact Hb|].
    rewrite length_app. simpl.
    replace (a + Z.of_nat (length pre + 1)) with (a + Z.of_nat (length pre) + 1)
      by lia.
    exact H1.
  - exists s'. split; [exact Hf|].
    rewrite length_seqZ in Hs'. rewrite Z2Nat.id in Hs' by lia. exact Hs'.
Qed.

(** ** One-dimensional arrays *)

Lemma getitem_Ok {A} (a : list A) i x :
  getitem a i = Ok x <-> 0 <= i /\ a !! Z.to_nat i = Some x.
Proof.
  unfold getitem. destruct (decide (0 <= i)).
  - destruct (a !! Z.to_nat i) eqn:E; split.
    + intros H. inversion H. subst. auto.
    + intros [_ H]. inversion H. reflexivity.
    + discriminate.
    + intros [_ H]. discriminate.
  - split; [discriminate | intros [H _]; contradiction].
Qed.

Lemma getitem_in_range {A} (a : list A) i :
  0 <= i < Z.of_nat (length a) -> exists x, getitem a i = Ok x.
Proof.
  intros H. destruct (lookup_lt_is_Some_2 a (Z.to_nat i)) as [x Hx]; [lia|].
  exists x. apply getitem_Ok. split; [lia | exact Hx].
Qed.

Lemma getitem_Ok_range {A} (a : list A) i x :
  getitem a i = Ok x -> 0 <= i < Z.of_nat (length a).
Proof.
  intros H. apply getitem_Ok in H. destruct H as [H0 H].
  apply lookup_lt_Some in H. lia.
Qed.

Lemma setitem_Ok {A} (a : list A) i x a' :
  setitem a i x = Ok a' <->
  0 <= i < Z.of_nat (length a) /\ a' = <[Z.to_nat i := x]> a.
Proof.
  unfold setitem. destruct (decide _); split.
  - intros H. inversion H. auto.
  - intros [_ ->]. reflexivity.
  - discriminate.
  - intros [H _]. contradiction.
Qed.

(** ** Two-dimensional arrays *)

Lemma rectangular_row (a : array2) (i : nat) r :
  rectangular a -> a !! i = Some r -> Z.of_nat (length r) = shape1 a.
Proof.
  intros Hr Hi. unfold rectangular in Hr.
  rewrite Forall_lookup in Hr. exact (Hr i r Hi).
Qed.

Lemma get2_Ok (a : array2) i j v :
  get2 a i j = Ok v <->
  exists r, 0 <= i /\ a !! Z.to_nat i = Some r /\ 0 <= j
            /\ r !! Z.to_nat j = Some v.
Proof.
  unfold get2. rewrite bind_Ok. split.
  - intros (r & Hr & Hv). apply getitem_Ok in Hr. apply getitem_Ok in Hv.
    exists r. tauto.
  - intros (r & H1 & H2 & H3 & H4). exists r.
    split; apply getitem_Ok; auto.
Qed.

Lemma get2_inb (a : array2) i j :
  rectangular a -> inb a i j -> get2 a i j = Ok (cell a i j).
Proof.
  intros Hr [Hi Hj]. unfold shape0 in Hi.
  destruct (lookup_lt_is_Some_2 a (Z.to_nat i)) as [r Hrow]; [lia|].
  pose proof (rectangular_row a _ r Hr Hrow) as Hlen.
  destruct (lookup_lt_is_Some_2 r (Z.to_nat j)) as [v Hv]; [lia|].
  assert (H : get2 a i j = Ok v).
  { apply get2_Ok. exists r. repeat split; auto; lia. }
  unfold cell. rewrite H. reflexivity.
Qed.

Lemma get2_Ok_inb (a : array2) i j v :
  rectangular a -> get2 a i j = Ok v -> inb a i j /\ v = cell a i j.
Proof.
  intros Hr H. split.
  - apply get2_Ok in H. destruct H as (r & H0 & Hrow & Hj & Hv).
    pose proof (rectangular_row a _ r Hr Hrow) as Hlen.
    apply lookup_lt_Some in Hrow. apply lookup_lt_Some in Hv.
    unfold inb, shape0. lia.
  - unfold cell. rewrite H. reflexivity.
Qed.

Lemma cell_outside (a : array2) i j :
  rectangular a -> ~ inb a i j -> cell a i j = 0.
Proof.
  intros Hr Hn. unfold cell. destruct (get2 a i j) eqn:E; auto.
  apply get2_Ok_inb in E; [|assumption]. tauto.
Qed.

Lemma upd_shape0 a i j v : shape0 (upd a i j v) = shape0 a.
Proof. unfold shape0, upd. rewrite length_alter. reflexivity. Qed.

Lemma upd_shape1 a i j v : shape1 (upd a i j v) = shape1 a.
Proof.
  unfold shape1, upd. destruct a as [|r a]; [reflexivity|].
  destruct (Z.to_nat i); simpl; [|reflexivity].
  rewrite length_insert. reflexivity.
Qed.

Lemma upd_rectangular a i j v : rectangular a -> rectangular (upd a i j v).
Proof.
  intros Hr. unfold rectangular. rewrite upd_shape1.
  apply Forall_lookup. intros k r Hk. unfold upd in Hk.
  destruct (decide (k = Z.to_nat i)) as [->|Hne].
  - rewrite list_lookup_alter_eq in Hk.
    destruct (a !! Z.to_nat i) as [r0|] eqn:E; [|discriminate].
    simpl in Hk. inversion Hk. rewrite length_insert.
    exact (rectangular_row a _ r0 Hr E).
  - rewrite list_lookup_alter_ne in Hk by auto.
    exact (rectangular_row a _ r Hr Hk).
Qed.

Lemma upd_inb a i j v r c : inb (upd a i j v) r c <-> inb a r c.
Proof. unfold inb. rewrite upd_shape0, upd_shape1. tauto. Qed.

Lemma set2_inb (a : array2) i j v :
  rectangular a -> inb a i j -> set2 a i j v = Ok (upd a i j v).
Proof.
  intros Hr [Hi Hj]. unfold shape0 in Hi.
  destruct (lookup_lt_is_Some_2 a (Z.to_nat i)) as [r Hrow]; [lia|].
  pose proof (rectangular_row a _ r Hr Hrow) as Hlen.
  unfold set2.
  assert (Hg : getitem a i = Ok r) by (apply getitem_Ok; split; [lia|auto]).
  rewrite Hg. simpl.
  assert (Hs : setitem r j v = Ok (<[Z.to_nat j := v]> r))
    by (apply setitem_Ok; split; [lia|auto]).
  rewrite Hs. simpl.
  apply setitem_Ok. split; [lia|].
  unfold upd. apply list_eq. intros k.
  destruct (decide (k = Z.to_nat i)) as [->|Hne].
  - rewrite list_lookup_alter_eq, Hrow. simpl.
    rewrite list_lookup_insert_eq by lia. reflexivity.
  - rewrite list_lookup_alter_ne by auto.
    rewrite list_lookup_insert_ne by auto. reflexivity.
Qed.

Lemma set2_Ok (a : array2) i j v a' :
  rectangular a -> set2 a i j v = Ok a' -> inb a i j /\ a' = upd a i j v.
Proof.
  intros Hr H.
  assert (Hin : inb a i j).
  { unfold set2 in H. apply bind_Ok in H. destruct H as (r & Hg & H).
    apply bind_Ok in H. destruct H as (r' & Hs & _).
    apply getitem_Ok in Hg. destruct Hg as [H0 Hrow].
    apply setitem_Ok in Hs. destruct Hs as [Hj _].
    pose proof (rectangular_row a _ r Hr Hrow) as Hlen.
    apply lookup_lt_Some in Hrow. unfold inb, shape0. lia. }
  split; [exact Hin|].
  rewrite (set2_inb a i j v Hr Hin) in H. inversion H. reflexivity.
Qed.

Lemma cell_upd (a : array2) i j v r c :
  rectangular a -> inb a i j ->
  cell (upd a i j v) r c = if bool_decide (r = i /\ c = j) then v else cell a r c.
Proof.
  intros Hr Hin.
  destruct (decide (inb a r c)) as [Hrc|Hrc].
  - assert (Hg : get2 (upd a i j v) r c
                 = Ok (if bool_decide (r = i /\ c = j) then v else cell a r c)).
    { pose proof (get2_inb a r c Hr Hrc) as Hold.
      apply get2_Ok in Hold. destruct Hold as (row & H0 & Hrow & Hc & Hv).
      apply get2_Ok. unfold upd.
      destruct (decide (r = i)) as [->|Hne].
      - exists (<[Z.to_nat j := v]> row). repeat split; auto.
        + rewrite list_lookup_alter_eq, Hrow. reflexivity.
        + case_bool_decide as Hd.
          * destruct Hd as [_ ->]. apply list_lookup_insert_eq.
            apply lookup_lt_Some in Hv. exact Hv.
          * rewrite list_lookup_insert_ne; [exact Hv|].
            intros Heq. apply Hd. split; [reflexivity|].
            destruct Hin as [_ Hj]. lia.
      - exists row. repeat split; auto.
        + rewrite list_lookup_alter_ne; [exact Hrow|].
          destruct Hin as [Hi _]. lia.
        + case_bool_decide as Hd; [destruct Hd; contradiction | exact Hv]. }
    unfold cell at 1. rewrite Hg. reflexivity.
  - rewrite (cell_outside a r c Hr Hrc).
    rewrite cell_outside.
    + case_bool_decide as Hd; [|reflexivity].
      destruct Hd as [-> ->]. contradiction.
    + apply upd_rectangular; assumption.
    + rewrite upd_inb. assumption.
Qed.

Lemma array2_ext (a b : array2) :
  rectangular a -> rectangular b -> same_shape a b ->
  (forall i j, inb a i j -> cell a i j = cell b i j) -> a = b.
Proof.
  intros Ha Hb [H0 H1] Hc. unfold shape0 in H0.
  apply list_eq_same_length with (length a); [lia | reflexivity |].
  intros i ra rb Hi Hra Hrb.
  pose proof (rectangular_row a _ ra Ha Hra) as La.
  pose proof (rectangular_row b _ rb Hb Hrb) as Lb.
  apply list_eq_same_length with (length ra); [lia | reflexivity |].
  intros j x y Hj Hx Hy.
  assert (Hin : inb a (Z.of_nat i) (Z.of_nat j)) by (unfold inb, shape0; lia).
  specialize (Hc _ _ Hin).
  assert (Ga : get2 a (Z.of_nat i) (Z.of_nat j) = Ok x).
  { apply get2_Ok. exists ra. rewrite !Nat2Z.id. repeat split; auto; lia. }
  assert (Gb : get2 b (Z.of_nat i) (Z.of_nat j) = Ok y).
  { apply get2_Ok. exists rb. rewrite !Nat2Z.id. repeat split; auto; lia. }
  unfold cell in Hc. rewrite Ga, Gb in Hc. exact Hc.
Qed.

(** ** Row exchange *)

Lemma cell_row (pop : array2) r c row :
  0 <= r -> 0 <= c -> pop !! Z.to_nat r = Some row ->
  cell pop r c = default 0 (row !! Z.to_nat c).
Proof.
  intros Hr Hc Hrow. unfold cell.
  destruct (row !! Z.to_nat c) as [v|] eqn:E; simpl.
  - assert (H : get2 pop r c = Ok v) by (apply get2_Ok; exists row; auto).
    rewrite H. reflexivity.
  - destruct (get2 pop r c) as [v| |] eqn:G; auto.
    apply get2_Ok in G. destruct G as (row' & _ & Hrow' & _ & Hv).
    congruence.
Qed.

Lemma row_in_range (pop : array2) i :
  0 <= i < shape0 pop -> exists row, pop !! Z.to_nat i = Some row.
Proof.
  intros H. unfold shape0 in H.
  destruct (lookup_lt_is_Some_2 pop (Z.to_nat i)) as [r Hr]; [lia|eauto].
Qed.

Section SwapRows.
Variables (pop : array2) (a b : Z).
Hypothesis Hrect : rectangular pop.
Hypothesis Ha : 0 <= a < shape0 pop.
Hypothesis Hb : 0 <= b < shape0 pop.

Lemma swap_rows_length : length (swap_rows pop a b) = length pop.
Proof.
  unfold swap_rows. destruct (pop !! Z.to_nat a), (pop !! Z.to_nat b); auto.
  rewrite !length_insert. reflexivity.
Qed.

Lemma swap_rows_lookup (i : nat) :
  swap_rows pop a b !! i =
  if decide (i = Z.to_nat b) then pop !! Z.to_nat a
  else if decide (i = Z.to_nat a) then pop !! Z.to_nat b
  else pop !! i.
Proof.
  unfold swap_rows.
  destruct (row_in_range pop a Ha) as [ra Hra].
  destruct (row_in_range pop b Hb) as [rb Hrb].
  rewrite Hra, Hrb.
  pose proof (lookup_lt_Some _ _ _ Hra). pose proof (lookup_lt_Some _ _ _ Hrb).
  destruct (decide (i = Z.to_nat b)) as [->|Hnb].
  - rewrite list_lookup_insert_eq; [reflexivity|].
    rewrite length_insert. assumption.
  - rewrite list_lookup_insert_ne by auto.
    destruct (decide (i = Z.to_nat a)) as [->|Hna].
    + rewrite list_lookup_insert_eq by assumption. reflexivity.
    + rewrite list_lookup_insert_ne by auto. reflexivity.
Qed.

Lemma swap_rows_perm : swap_rows pop a b ≡ₚ pop.
Proof.
  unfold swap_rows.
  destruct (pop !! Z.to_nat a) eqn:Ea; [|reflexivity].
  destruct (pop !! Z.to_nat b) eqn:Eb; [|reflexivity].
  apply Permutation_insert_swap; assumption.
Qed.

Lemma swap_rows_shape0 : shape0 (swap_rows pop a b) = shape0 pop.
Proof. unfold shape0. rewrite swap_rows_length. reflexivity. Qed.

Lemma swap_rows_row_length (i : nat) r :
  swap_rows pop a b !! i = Some r -> Z.of_nat (length r) = shape1 pop.
Proof.
  rewrite swap_rows_lookup. repeat case_decide; intros Hlk;
    exact (rectangular_row pop _ r Hrect Hlk).
Qed.

Lemma swap_rows_shape1 : shape1 (swap_rows pop a b) = shape1 pop.
Proof.
  destruct (swap_rows pop a b) as [|r rest] eqn:E.
  - assert (length pop = 0%nat) by (rewrite <- swap_rows_length, E; reflexivity).
    destruct pop; [reflexivity | discriminate].
  - simpl. apply (swap_rows_row_length 0). rewrite E. reflexivity.
Qed.

Lemma swap_rows_rectangular : rectangular (swap_rows pop a b).
Proof.
  unfold rectangular. rewrite swap_rows_shape1.
  apply Forall_lookup. intros i r. apply swap_rows_row_length.
Qed.

Lemma cell_swap_rows r c :
  0 <= r -> 0 <= c ->
  cell (swap_rows pop a b) r c =
  if decide (r = b) then cell pop a c
  else if decide (r = a) then cell pop b c
  else cell pop r c.
Proof.
  intros Hr Hc.
  destruct (decide (r < shape0 pop)) as [Hlt|Hge].
  - destruct (row_in_range (swap_rows pop a b) r) as [row Hrow].
    { rewrite swap_rows_shape0. lia. }
    rewrite (cell_row _ r c row Hr Hc Hrow).
    rewrite swap_rows_lookup in Hrow.
    destruct (decide (r = b)) as [->|Hnb].
    + rewrite decide_True in Hrow by reflexivity.
      symmetry. apply cell_row; auto; lia.
    + rewrite decide_False in Hrow by lia.
      destruct (decide (r = a)) as [->|Hna].
      * rewrite decide_True in Hrow by reflexivity.
        symmetry. apply cell_row; auto; lia.
      * rewrite decide_False in Hrow by lia.
        symmetry. apply cell_row; auto.
  - rewrite decide_False by lia. rewrite decide_False by lia.
    rewrite !cell_outside; auto using swap_rows_rectangular.
    + unfold inb. lia.
    + unfold inb. rewrite swap_rows_shape0. lia.
Qed.

(** [swap_1d] on two rows of a matrix exchanges the rows as wholes. *)
Lemma swap_1d_rows : Utils.swap_1d pop a b = Ok (swap_rows pop a b).
Proof.
  unfold Utils.swap_1d.
  destruct (row_in_range pop a Ha) as [ra Hra].
  assert (Hg : getitem pop a = Ok ra) by (apply getitem_Ok; split; [lia|auto]).
  rewrite Hg. simpl.
  rewrite (rectangular_row pop _ ra Hrect Hra).
  set (I := fun (k : Z) (s : array2) =>
              rectangular s /\ same_shape s pop /\
              forall r c, inb pop r c ->
                cell s r c =
                if decide (c < k) then cell (swap_rows pop a b) r c
                else cell pop r c).
  assert (Hw : 0 <= shape1 pop).
  { unfold shape1. destruct pop; lia. }
  destruct (foldM_seqZ_inv I
    (fun pop0 x => va ← get2 pop0 a x; vb ← get2 pop0 b x;
                   pop1 ← set2 pop0 a x vb; set2 pop1 b x va)
    0 (shape1 pop) pop Hw) as (s' & Hf & Hs').
  - unfold I. split; [assumption|]. split; [split; reflexivity|].
    intros r c [_ Hc]. rewrite decide_False by lia. reflexivity.
  - intros k s Hk (Hsr & [Hs0 Hs1] & Hcell).
    assert (Hak : inb s a k) by (unfold inb; lia).
    assert (Hbk : inb s b k) by (unfold inb; lia).
    rewrite (get2_inb s a k Hsr Hak). simpl.
    rewrite (get2_inb s b k Hsr Hbk). simpl.
    rewrite (set2_inb s a k _ Hsr Hak). simpl.
    rewrite set2_inb; [|apply upd_rectangular; assumption
                       |apply upd_inb; assumption].
    eexists. split; [reflexivity|].
    unfold I. split; [auto using upd_rectangular|].
    split. { split; rewrite ?upd_shape0, ?upd_shape1; assumption. }
    intros r c Hrc.
    rewrite cell_upd; [|auto using upd_rectangular|apply upd_inb; assumption].
    rewrite cell_upd by assumption.
    destruct Hrc as [Hr Hc].
    assert (Eak : cell s a k = cell pop a k).
    { rewrite Hcell by (unfold inb; lia). rewrite decide_False by lia.
      reflexivity. }
    assert (Ebk : cell s b k = cell pop b k).
    { rewrite Hcell by (unfold inb; lia). rewrite decide_False by lia.
      reflexivity. }
    rewrite Eak, Ebk, (Hcell r c) by (unfold inb; lia).
    rewrite cell_swap_rows by lia.
    destruct (decide (c = k)) as [->|Hck].
    + rewrite (decide_True (P := k < k + 1)) by lia.
      rewrite (decide_False (P := k < k)) by lia.
      destruct (decide (r = b)) as [->|Hrb].
      * rewrite bool_decide_eq_true_2 by auto. reflexivity.
      * rewrite (bool_decide_eq_false_2 (r = b /\ k = k)) by tauto.
        destruct (decide (r = a)) as [->|Hna].
        -- rewrite bool_decide_eq_true_2 by auto. reflexivity.
        -- rewrite bool_decide_eq_false_2 by tauto. reflexivity.
    + rewrite (bool_decide_eq_false_2 (r = b /\ c = k)) by tauto.
      rewrite (bool_decide_eq_false_2 (r = a /\ c = k)) by tauto.
      destruct (decide (c < k)).
      * rewrite (decide_True (P := c < k + 1)) by lia. reflexivity.
      * rewrite (decide_False (P := c < k + 1)) by lia. reflexivity.
  - rewrite Z.add_0_l in Hs'. unfold range. rewrite Hf. f_equal.
    destruct Hs' as (Hsr & Hsh & Hcell).
    apply array2_ext; auto using swap_rows_rectangular.
    + destruct Hsh as [E0 E1]. split.
      * rewrite swap_rows_shape0. exact E0.
      * rewrite swap_rows_shape1. exact E1.
    + intros i j Hij.
      assert (Hij' : inb pop i j).
      { destruct Hsh as [E0 E1]. unfold inb in *. lia. }
      rewrite (Hcell i j Hij'). rewrite decide_True; [reflexivity|].
      destruct Hij' as [_ ?]. lia.
Qed.

Lemma key_swap_rows i :
  0 <= i ->
  key (swap_rows pop a b) i =
  if decide (i = b) then key pop a
  else if decide (i = a) then key pop b
  else key pop i.
Proof. intros Hi. unfold key. apply cell_swap_rows; lia. Qed.

End SwapRows.

(** ** Quickselect *)

Lemma partition_loop_S fuel pop pivot low high :
  Utils.partition_loop (S fuel) pop pivot low high =
  (low' ← Utils.scan_low (S (length pop)) pop pivot low high;
   high' ← Utils.scan_high (S (length pop)) pop pivot low' high;
   if high' <? low' then Ok (pop, high')
   else pop' ← Utils.swap_1d pop low' high';
        Utils.partition_loop fuel pop' pivot low' high').
Proof. reflexivity. Qed.

Lemma shuffled_refl lo hi pop : rectangular pop -> shuffled lo hi pop pop.
Proof.
  intros Hr. split; [assumption|]. split; [split; reflexivity|].
  split; [reflexivity|]. split; [|reflexivity].
  intros i Hi. exists i. auto.
Qed.

Lemma shuffled_trans lo hi p1 p2 p3 :
  shuffled lo hi p1 p2 -> shuffled lo hi p2 p3 -> shuffled lo hi p1 p3.
Proof.
  intros (R2 & [S2 S2'] & P2 & In2 & Out2) (R3 & [S3 S3'] & P3 & In3 & Out3).
  split; [assumption|]. split; [split; congruence|].
  split; [etrans; eassumption|]. split.
  - intros i Hi. destruct (In3 i Hi) as (i' & Hi' & E3).
    destruct (In2 i' Hi') as (i'' & Hi'' & E2).
    exists i''. split; [assumption | congruence].
  - intros i H0 Hi. rewrite Out3, Out2 by assumption. reflexivity.
Qed.

Lemma shuffled_widen lo hi lo' hi' p1 p2 :
  lo' <= lo -> hi <= hi' -> 0 <= lo' ->
  shuffled lo hi p1 p2 -> shuffled lo' hi' p1 p2.
Proof.
  intros Hlo Hhi H0 (R & S & P & In & Out).
  split; [assumption|]. split; [assumption|]. split; [assumption|]. split.
  - intros i Hi. destruct (decide (lo <= i <= hi)) as [Hin|Hout].
    + destruct (In i Hin) as (i' & Hi' & E). exists i'. split; [lia|assumption].
    + exists i. split; [assumption|]. apply Out; lia.
  - intros i Hi0 Hi. apply Out; lia.
Qed.

Lemma shuffled_swap lo hi pop a b :
  rectangular pop -> 0 <= lo -> hi < shape0 pop ->
  lo <= a <= hi -> lo <= b <= hi ->
  shuffled lo hi pop (swap_rows pop a b).
Proof.
  intros Hr Hlo Hhi Ha Hb.
  assert (Ha' : 0 <= a < shape0 pop) by lia.
  assert (Hb' : 0 <= b < shape0 pop) by lia.
  split; [apply swap_rows_rectangular; assumption|].
  split; [split; [apply swap_rows_shape0 | apply swap_rows_shape1]; assumption|].
  split; [apply swap_rows_perm|]. split.
  - intros i Hi. rewrite key_swap_rows by (assumption || lia).
    repeat case_decide; eauto.
  - intros i Hi0 Hi. rewrite key_swap_rows by (assumption || lia).
    rewrite !decide_False by lia. reflexivity.
Qed.

Section Scans.
Variables (pop : array2) (pivot : Z).
Hypothesis Hrect : rectangular pop.
Hypothesis Hwidth : 0 < shape1 pop.

Lemma get2_key i : 0 <= i < shape0 pop -> get2 pop i 0 = Ok (key pop i).
Proof. intros Hi. apply get2_inb; [assumption | unfold inb; lia]. Qed.

Lemma scan_low_spec : forall fuel low high,
  0 <= low -> high < shape0 pop ->
  (Z.to_nat (high + 1 - low) < fuel)%nat ->
  exists low', Utils.scan_low fuel pop pivot low high = Ok low'
    /\ low <= low' /\ (low <= high + 1 -> low' <= high + 1)
    /\ (forall i, low <= i < low' -> key pop i <= pivot)
    /\ (low' <= high -> pivot < key pop low').
Proof.
  induction fuel as [|fuel IH]; intros low high Hlow Hhigh Hfuel; [lia|].
  simpl. destruct (Z.leb_spec low high) as [Hle|Hgt].
  - rewrite get2_key by lia. simpl.
    destruct (Z.leb_spec (key pop low) pivot) as [Hk|Hk].
    + destruct (IH (low + 1) high) as (low' & Hs & H1 & H2 & H3 & H4);
        [lia | lia | lia |].
      exists low'. split; [exact Hs|]. split; [lia|]. split; [lia|].
      split; [|exact H4].
      intros i Hi. destruct (decide (i = low)) as [->|]; [exact Hk|].
      apply H3. lia.
    + exists low. split; [reflexivity|]. split; [lia|]. split; [lia|].
      split; [intros i Hi; lia | intros _; exact Hk].
  - exists low. split; [reflexivity|]. split; [lia|]. split; [lia|].
    split; intros; lia.
Qed.

Lemma scan_high_spec : forall fuel low high,
  1 <= low -> low <= high + 1 -> high < shape0 pop ->
  (Z.to_nat (high + 1 - low) < fuel)%nat ->
  exists high', Utils.scan_high fuel pop pivot low high = Ok high'
    /\ low - 1 <= high' <= high
    /\ (forall i, high' < i <= high -> pivot <= key pop i)
    /\ (low <= high' -> key pop high' < pivot).
Proof.
  induction fuel as [|fuel IH]; intros low high Hlow Hlh Hhigh Hfuel; [lia|].
  simpl. rewrite get2_key by lia. simpl.
  destruct (Z.geb_spec (key pop high) pivot) as [Hk|Hk];
    destruct (Z.geb_spec high low) as [Hg|Hg]; simpl.
  - destruct (IH low (high - 1)) as (high' & Hs & H1 & H2 & H3);
      [lia | lia | lia | lia |].
    exists high'. split; [exact Hs|]. split; [lia|]. split; [|exact H3].
    intros i Hi. destruct (decide (i = high)) as [->|]; [lia|].
    apply H2. lia.
  - exists high. split; [reflexivity|]. split; [lia|]. split; intros; lia.
  - exists high. split; [reflexivity|]. split; [lia|].
    split; [intros; lia | intros _; lia].
  - exists high. split; [reflexivity|]. split; [lia|]. split; intros; lia.
Qed.

End Scans.

Section Partition.
Variables (first_idx last_idx pivot : Z).
Hypothesis Hfirst : 0 <= first_idx.

Lemma partition_loop_spec : forall fuel pop low high,
  rectangular pop -> 0 < shape1 pop -> last_idx < shape0 pop ->
  first_idx + 1 <= low -> high <= last_idx -> low <= high + 1 ->
  (forall i, first_idx < i < low -> key pop i <= pivot) ->
  (forall i, high < i <= last_idx -> pivot <= key pop i) ->
  2 * (high - low) + (if decide (pivot < key pop low) then 1 else 0) + 1
    <= Z.of_nat fuel ->
  (1 <= fuel)%nat ->
  exists pop' h,
    Utils.partition_loop fuel pop pivot low high = Ok (pop', h)
    /\ shuffled (first_idx + 1) last_idx pop pop'
    /\ first_idx <= h <= last_idx
    /\ (forall i, first_idx < i <= h -> key pop' i <= pivot)
    /\ (forall i, h < i <= last_idx -> pivot <= key pop' i).
Proof.
  induction fuel as [|fuel IH];
    intros pop low high Hr Hw Hlast Hlow Hhigh Hlh Hleft Hright Hfuel H1;
    [lia|].
  rewrite partition_loop_S.
  destruct (scan_low_spec pop pivot Hr Hw (S (length pop)) low high)
    as (low' & Hsl & L1 & L2 & L3 & L4); [lia | lia | unfold shape0 in *; lia |].
  rewrite Hsl, bind_ret.
  destruct (scan_high_spec pop pivot Hr Hw (S (length pop)) low' high)
    as (high' & Hsh & G1 & G2 & G3); [lia | lia | lia | unfold shape0 in *; lia |].
  rewrite Hsh, bind_ret.
  destruct (Z.ltb_spec high' low') as [Hdone|Hmore].
  - exists pop, high'. split; [reflexivity|].
    split; [apply shuffled_refl; assumption|]. split; [lia|]. split.
    + intros i Hi. destruct (decide (i < low)); [apply Hleft | apply L3]; lia.
    + intros i Hi. destruct (decide (high < i)); [apply Hright | apply G2]; lia.
  - assert (Ha : 0 <= low' < shape0 pop) by lia.
    assert (Hb : 0 <= high' < shape0 pop) by lia.
    rewrite (swap_1d_rows pop low' high' Hr Ha Hb), bind_ret.
    pose proof (L4 ltac:(lia)) as Klow. pose proof (G3 Hmore) as Khigh.
    assert (Hfuel' : 2 * (high' - low') + 1 <= Z.of_nat fuel).
    { destruct (decide (pivot < key pop low)) as [Hp|Hp]; [lia|].
      assert (low < low'); [|lia].
      destruct (decide (low = low')) as [E|E]; [|lia].
      subst low'. lia. }
    destruct (IH (swap_rows pop low' high') low' high')
      as (pop' & h & Hloop & Hsh' & Hh & Hl' & Hr').
    + apply swap_rows_rectangular; assumption.
    + rewrite swap_rows_shape1; assumption.
    + rewrite swap_rows_shape0; assumption.
    + lia.
    + lia.
    + lia.
    + intros i Hi. rewrite key_swap_rows by (assumption || lia).
      rewrite !decide_False by lia.
      destruct (decide (i < low)); [apply Hleft | apply L3]; lia.
    + intros i Hi. rewrite key_swap_rows by (assumption || lia).
      rewrite !decide_False by lia.
      destruct (decide (high < i)); [apply Hright | apply G2]; lia.
    + assert (Ek : key (swap_rows pop low' high') low' = key pop high').
      { rewrite key_swap_rows by (assumption || lia).
        destruct (decide (low' = high')) as [E|E]; [rewrite E; reflexivity|].
        rewrite (decide_True (P := low' = low')) by reflexivity.
        reflexivity. }
      rewrite Ek.
      rewrite (decide_False (P := pivot < key pop high')) by lia.
      lia.
    + lia.
    + exists pop', h. split; [exact Hloop|]. split; [|auto].
      eapply shuffled_trans; [|exact Hsh'].
      apply shuffled_swap; auto; lia.
Qed.

End Partition.

Lemma partition_population_spec pop first_idx last_idx :
  rectangular pop -> 0 < shape1 pop ->
  0 <= first_idx -> first_idx <= last_idx -> last_idx < shape0 pop ->
  exists pop' h,
    Utils.partition_population pop first_idx last_idx = Ok (pop', h)
    /\ shuffled first_idx last_idx pop pop'
    /\ first_idx <= h <= last_idx
    /\ (forall i, first_idx <= i < h -> key pop' i <= key pop' h)
    /\ (forall i, h < i <= last_idx -> key pop' h <= key pop' i).
Proof.
  intros Hr Hw Hf Hfl Hl. unfold Utils.partition_population. cbv zeta.
  set (pivot_idx := (last_idx - first_idx) / 2 + first_idx).
  assert (Hp : first_idx <= pivot_idx <= last_idx).
  { unfold pivot_idx.
    pose proof (Z.div_pos (last_idx - first_idx) 2 ltac:(lia) ltac:(lia)).
    pose proof (Z.div_le_upper_bound (last_idx - first_idx) 2
                                     (last_idx - first_idx) ltac:(lia) ltac:(lia)).
    lia. }
  rewrite (get2_key pop Hr Hw) by lia. rewrite bind_ret.
  assert (Hpi : 0 <= pivot_idx < shape0 pop) by lia.
  assert (Hfi : 0 <= first_idx < shape0 pop) by lia.
  rewrite (swap_1d_rows pop pivot_idx first_idx Hr Hpi Hfi), bind_ret.
  set (pop1 := swap_rows pop pivot_idx first_idx).
  assert (Hr1 : rectangular pop1) by (apply swap_rows_rectangular; assumption).
  assert (Hs0 : shape0 pop1 = shape0 pop) by (apply swap_rows_shape0; assumption).
  assert (Hs1 : shape1 pop1 = shape1 pop) by (apply swap_rows_shape1; assumption).
  assert (Hk1 : key pop1 first_idx = key pop pivot_idx).
  { unfold pop1. rewrite key_swap_rows by (assumption || lia).
    rewrite decide_True by reflexivity. reflexivity. }
  destruct (partition_loop_spec first_idx last_idx (key pop pivot_idx) Hf
              (2 * length pop1 + 2)%nat pop1 (first_idx + 1) last_idx)
    as (pop2 & h & Hloop & Hsh & Hh & Hleft & Hright);
    try (assumption || lia).
  { unfold shape0 in *. case_decide; lia. }
  replace (length pop) with (length pop1)
    by (unfold pop1; apply swap_rows_length).
  rewrite Hloop, bind_ret.
  destruct Hsh as (Hr2 & [S0 S1] & P2 & In2 & Out2).
  assert (Hfi2 : 0 <= first_idx < shape0 pop2) by lia.
  assert (Hh2 : 0 <= h < shape0 pop2) by lia.
  rewrite (swap_1d_rows pop2 first_idx h Hr2 Hfi2 Hh2), bind_ret.
  exists (swap_rows pop2 first_idx h), h. split; [reflexivity|].
  assert (Hk2 : key pop2 first_idx = key pop pivot_idx).
  { rewrite Out2 by lia. exact Hk1. }
  split; [|split; [lia|split]].
  - apply (shuffled_trans first_idx last_idx pop pop1).
    { unfold pop1. apply shuffled_swap; auto; lia. }
    apply (shuffled_trans first_idx last_idx pop1 pop2).
    + apply (shuffled_widen (first_idx + 1) last_idx first_idx last_idx);
        [lia | lia | lia |].
      repeat split; eauto.
    + apply shuffled_swap; auto; lia.
  - intros i Hi. rewrite !key_swap_rows by (assumption || lia).
    rewrite (decide_True (P := h = h)) by reflexivity.
    rewrite (decide_False (P := i = h)) by lia.
    rewrite Hk2. destruct (decide (i = first_idx)) as [->|Hne].
    + apply Hleft. lia.
    + apply Hleft. lia.
  - intros i Hi. rewrite !key_swap_rows by (assumption || lia).
    rewrite (decide_True (P := h = h)) by reflexivity.
    rewrite (decide_False (P := i = h)) by lia.
    rewrite (decide_False (P := i = first_idx)) by lia.
    rewrite Hk2. apply Hright. lia.
Qed.

Lemma divided_shuffled lo hi pop pop' k :
  0 <= lo -> hi < shape0 pop ->
  shuffled lo hi pop pop' -> k <= lo \/ hi < k ->
  divided pop k -> divided pop' k.
Proof.
  intros Hlo Hhi (R & [S0 S1] & P & In & Out) Hk D i j Hi Hj.
  assert (Ei : exists i', 0 <= i' < k /\ key pop' i = key pop i').
  { destruct (decide (lo <= i <= hi)) as [Hin|Hout].
    - destruct (In i Hin) as (i' & Hi' & E). exists i'. split; [lia|exact E].
    - exists i. split; [lia|]. apply Out; lia. }
  assert (Ej : exists j', k <= j' < shape0 pop /\ key pop' j = key pop j').
  { destruct (decide (lo <= j <= hi)) as [Hin|Hout].
    - destruct (In j Hin) as (j' & Hj' & E). exists j'. split; [lia|exact E].
    - exists j. split; [lia|]. apply Out; lia. }
  destruct Ei as (i' & Hi' & ->). destruct Ej as (j' & Hj' & ->).
  apply D; assumption.
Qed.

Lemma divided_pivot pop first_idx last_idx h :
  divided pop first_idx -> divided pop (last_idx + 1) ->
  0 <= first_idx -> last_idx < shape0 pop ->
  first_idx <= h <= last_idx ->
  (forall i, first_idx <= i < h -> key pop i <= key pop h) ->
  (forall i, h < i <= last_idx -> key pop h <= key pop i) ->
  divided pop h /\ divided pop (h + 1).
Proof.
  intros DA DB H0 Hl Hh Hleft Hright.
  assert (G : forall i j, 0 <= i <= h -> h <= j < shape0 pop -> i < j ->
                key pop i <= key pop j).
  { intros i j Hi Hj Hij.
    destruct (decide (i < first_idx)); [apply DA; lia|].
    destruct (decide (last_idx < j)); [apply DB; lia|].
    assert (key pop i <= key pop h).
    { destruct (decide (i = h)) as [->|]; [lia | apply Hleft; lia]. }
    assert (key pop h <= key pop j).
    { destruct (decide (j = h)) as [->|]; [lia | apply Hright; lia]. }
    lia. }
  split; intros i j Hi Hj; apply G; lia.
Qed.

Lemma divide_loop_S fuel pop divide_idx first_idx last_idx split_idx :
  Utils.divide_loop (S fuel) pop divide_idx first_idx last_idx split_idx =
  if (first_idx <? last_idx) && negb (split_idx =? divide_idx) then
    '(pop, split_idx) ← Utils.partition_population pop first_idx last_idx;
    if split_idx >? divide_idx then
      Utils.divide_loop fuel pop divide_idx first_idx (split_idx - 1) split_idx
    else if split_idx <? divide_idx then
      Utils.divide_loop fuel pop divide_idx (split_idx + 1) last_idx split_idx
    else
      Utils.divide_loop fuel pop divide_idx first_idx last_idx split_idx
  else Ok pop.
Proof. reflexivity. Qed.

Lemma divide_loop_spec divide_idx : forall fuel pop first_idx last_idx split_idx,
  rectangular pop -> 0 < shape1 pop ->
  0 <= first_idx -> last_idx < shape0 pop ->
  first_idx <= divide_idx <= last_idx ->
  (Z.to_nat (last_idx - first_idx) < fuel)%nat ->
  divided pop first_idx -> divided pop (last_idx + 1) ->
  (split_idx = divide_idx -> divided pop divide_idx) ->
  exists pop',
    Utils.divide_loop fuel pop divide_idx first_idx last_idx split_idx = Ok pop'
    /\ rectangular pop' /\ same_shape pop' pop /\ pop' ≡ₚ pop
    /\ divided pop' divide_idx.
Proof.
  induction fuel as [|fuel IH];
    intros pop first_idx last_idx split_idx Hr Hw Hf Hl Hk Hfuel DA DB Hsplit;
    [lia|].
  rewrite divide_loop_S.
  destruct (Z.ltb_spec first_idx last_idx) as [Hlt|Hge];
    destruct (Z.eqb_spec split_idx divide_idx) as [Heq|Hne]; simpl.
  - exists pop. repeat split; auto.
  - destruct (partition_population_spec pop first_idx last_idx)
      as (pop1 & h & Hp & Hsh & Hh & Hleft & Hright); try (assumption || lia).
    rewrite Hp, bind_ret.
    pose proof Hsh as (Hr1 & [S0 S1] & P1 & _ & _).
    assert (DA1 : divided pop1 first_idx).
    { apply (divided_shuffled first_idx last_idx pop); auto; lia. }
    assert (DB1 : divided pop1 (last_idx + 1)).
    { apply (divided_shuffled first_idx last_idx pop); auto; lia. }
    destruct (divided_pivot pop1 first_idx last_idx h) as [Dh Dh1];
      try (assumption || lia).
    assert (Hfin : forall pop2,
               rectangular pop2 /\ same_shape pop2 pop1 /\ pop2 ≡ₚ pop1
               /\ divided pop2 divide_idx ->
               rectangular pop2 /\ same_shape pop2 pop /\ pop2 ≡ₚ pop
               /\ divided pop2 divide_idx).
    { intros pop2 (R2 & [T0 T1] & P2 & D2). split; [assumption|].
      split; [split; congruence|]. split; [etrans; eassumption | assumption]. }
    destruct (Z.gtb_spec h divide_idx) as [Hgt|Hle].
    + destruct (IH pop1 first_idx (h - 1) h) as (pop2 & Hd & Hrest);
        try (assumption || lia).
      * replace (h - 1 + 1) with h by lia. assumption.
      * exists pop2. split; [exact Hd | apply Hfin; exact Hrest].
    + destruct (Z.ltb_spec h divide_idx) as [Hlt'|Hge'].
      * destruct (IH pop1 (h + 1) last_idx h) as (pop2 & Hd & Hrest);
          try (assumption || lia).
        exists pop2. split; [exact Hd | apply Hfin; exact Hrest].
      * assert (h = divide_idx) by lia. subst h.
        destruct fuel as [|fuel]; [lia|].
        rewrite divide_loop_S.
        rewrite Z.eqb_refl, andb_false_r.
        exists pop1. split; [reflexivity|]. apply Hfin.
        repeat split; auto.
  - exists pop. repeat split; auto.
  - exists pop. repeat split; auto.
    assert (first_idx = divide_idx) by lia. subst first_idx. assumption.
Qed.

(** C3: for a population matrix with at least the score column and a
    divide index [k] with [0 <= k < number of rows], [divide_population]
    returns, and in the matrix it leaves every row below [k] has a score
    (word 0) less than or equal to that of every row at or above [k]. *)
Theorem divide_population_divides (pop : array2) (k : Z) :
  rectangular pop -> 0 < shape1 pop -> 0 <= k < shape0 pop ->
  exists pop',
    Utils.divide_population pop k = Ok pop'
    /\ same_shape pop' pop
    /\ forall i j, 0 <= i < k -> k <= j < shape0 pop' ->
         cell pop' i 0 <= cell pop' j 0.
Proof.
  intros Hr Hw Hk. unfold Utils.divide_population. cbv zeta.
  destruct (divide_loop_spec k (S (length pop)) pop 0 (shape0 pop - 1) 0)
    as (pop' & Hd & Hr' & Hs & Hp & Hdiv); try (assumption || lia).
  - unfold shape0. lia.
  - intros i j Hi Hj. lia.
  - intros i j Hi Hj. lia.
  - intros <- i j Hi Hj. lia.
  - exists pop'. split; [exact Hd|]. split; [exact Hs|]. exact Hdiv.
Qed.

(** C10: [swap_1d] on two rows of the matrix exchanges the two rows as
    wholes, so [partition_population] and [divide_population] return a
    matrix whose rows are a permutation of the rows they were given: no
    row is lost, duplicated or split from its score. *)
Theorem divide_population_permutes_rows (pop : array2) (k : Z) :
  rectangular pop -> 0 < shape1 pop -> 0 <= k < shape0 pop ->
  (forall a b, 0 <= a < shape0 pop -> 0 <= b < shape0 pop ->
     Utils.swap_1d pop a b = Ok (swap_rows pop a b)
     /\ swap_rows pop a b ≡ₚ pop)
  /\ (forall first_idx last_idx,
        0 <= first_idx -> first_idx <= last_idx -> last_idx < shape0 pop ->
        exists pop' h,
          Utils.partition_population pop first_idx last_idx = Ok (pop', h)
          /\ pop' ≡ₚ pop)
  /\ exists pop', Utils.divide_population pop k = Ok pop' /\ pop' ≡ₚ pop.
Proof.
  intros Hr Hw Hk. split; [|split].
  - intros a b Ha Hb. split; [apply swap_1d_rows; assumption|].
    apply swap_rows_perm.
  - intros first_idx last_idx Hf Hfl Hl.
    destruct (partition_population_spec pop first_idx last_idx)
      as (pop' & h & Hp & (_ & _ & P & _) & _); try (assumption || lia).
    exists pop', h. split; assumption.
  - unfold Utils.divide_population. cbv zeta.
    destruct (divide_loop_spec k (S (length pop)) pop 0 (shape0 pop - 1) 0)
      as (pop' & Hd & Hr' & Hs & Hp & Hdiv); try (assumption || lia).
    + unfold shape0. lia.
    + intros i j Hi Hj. lia.
    + intros i j Hi Hj. lia.
    + intros <- i j Hi Hj. lia.
    + exists pop'. split; assumption.
Qed.

(** ** Mutation and crossover *)

Lemma replay_snoc log out0 i v :
  replay (log ++ [(i, v)]) out0 = <[Z.to_nat i := v]> (replay log out0).
Proof. unfold replay. rewrite foldl_app. reflexivity. Qed.

Lemma replay_length log out0 : length (replay log out0) = length out0.
Proof.
  induction log as [|[i v] log IH] using rev_ind; [reflexivity|].
  rewrite replay_snoc, length_insert. exact IH.
Qed.

Lemma replay_lookup log out0 :
  NoDup log.*1 ->
  Forall (fun i => 0 <= i < Z.of_nat (length out0)) log.*1 ->
  forall i v, (i, v) ∈ log -> replay log out0 !! Z.to_nat i = Some v.
Proof.
  induction log as [|[j w] log IH] using rev_ind; intros Hnd Hin i v Hel.
  - inversion Hel.
  - rewrite fmap_app in Hnd, Hin. simpl in Hnd, Hin.
    apply NoDup_app in Hnd. destruct Hnd as (Hnd & Hdisj & _).
    apply Forall_app in Hin. destruct Hin as [Hin Hj].
    rewrite Forall_singleton in Hj. cbn in Hj.
    rewrite replay_snoc.
    apply elem_of_app in Hel. destruct Hel as [Hel|Hel].
    + assert (i <> j).
      { intros ->. apply (Hdisj j); [|left].
        apply list_elem_of_fmap. exists (j, v). auto. }
      assert (0 <= i < Z.of_nat (length out0)).
      { rewrite Forall_forall in Hin. apply Hin.
        apply list_elem_of_fmap. exists (i, v). auto. }
      rewrite list_lookup_insert_ne by lia.
      apply IH; assumption.
    + apply list_elem_of_singleton in Hel. inversion Hel; subst.
      apply list_lookup_insert_eq. rewrite replay_length. lia.
Qed.

(** Once every slot has been written exactly once, the array holds the
    written values, in some order. *)
Lemma replay_perm log out0 :
  log.*1 ≡ₚ seqZ 0 (Z.of_nat (length out0)) ->
  replay log out0 ≡ₚ log.*2.
Proof.
  intros Hp.
  assert (Hnd : NoDup log.*1) by (rewrite Hp; apply NoDup_seqZ).
  assert (Hin : Forall (fun i => 0 <= i < Z.of_nat (length out0)) log.*1).
  { rewrite Hp. apply Forall_seqZ. intros; lia. }
  set (out := replay log out0).
  set (g := fun i : Z => default 0 (out !! Z.to_nat i)).
  assert (E1 : g <$> log.*1 = log.*2).
  { rewrite <- list_fmap_compose. apply list_fmap_ext.
    intros k [i v] Hk. simpl. unfold g, out.
    rewrite (replay_lookup log out0 Hnd Hin i v); [reflexivity|].
    apply list_elem_of_lookup. eauto. }
  assert (E2 : g <$> seqZ 0 (Z.of_nat (length out0)) = out).
  { apply list_eq. intros k. rewrite list_lookup_fmap.
    destruct (decide (k < length out0)%nat) as [Hlt|Hge].
    - rewrite lookup_seqZ_lt by lia. simpl. unfold g.
      rewrite Z.add_0_l, Nat2Z.id.
      destruct (lookup_lt_is_Some_2 out k) as [x Hx].
      { unfold out. rewrite replay_length. exact Hlt. }
      rewrite Hx. reflexivity.
    - rewrite lookup_seqZ_ge by lia. simpl. symmetry.
      apply lookup_ge_None. unfold out. rewrite replay_length. lia. }
  rewrite <- E1, <- E2. rewrite Hp. reflexivity.
Qed.

Lemma foldM_filter {A S} (P : A -> bool) (body : S -> A -> result S) l s :
  foldM (fun st x => if P x then body st x else Ok st) l s
  = foldM body (filter (fun x => P x = true) l) s.
Proof.
  revert s. induction l as [|x l IH]; intros s; [reflexivity|].
  simpl. rewrite filter_cons. destruct (P x) eqn:E.
  - rewrite decide_True by reflexivity. simpl.
    destruct (body s x); simpl; auto.
  - rewrite decide_False by discriminate. simpl. apply IH.
Qed.

Section Place.
Import Gridea.
Variables (out0 : list Z) (f b : Z).
Let L := Z.of_nat (length out0).
Hypothesis Hf : 1 <= f <= L - 1.
Hypothesis Hb : 1 <= b <= L - 1.

Lemma place_step pre x post st :
  length (pre ++ x :: post) = length out0 ->
  place_inv out0 f b pre st ->
  exists st', place L st x = Ok st' /\ place_inv out0 f b (pre ++ [x]) st'.
Proof.
  destruct st as [[[[out log] oi] fw] bk].
  intros Hlen (Hout & Hvals & Hoi & Hfw & Hbk & Hperm). simpl in *.
  assert (Hcount : Z.of_nat (length pre)
                   = (oi - 1) + (if fw =? 0 then 1 else 0)
                     + (if bk =? 0 then 1 else 0)).
  { rewrite <- Hvals, length_fmap, <- (length_fmap fst log), Hperm.
    rewrite !length_app, length_seqZ.
    destruct (fw =? 0), (bk =? 0); simpl; lia. }
  assert (Hpre : Z.of_nat (length pre) < L).
  { unfold L. rewrite <- Hlen, length_app. simpl. lia. }
  assert (Hlenout : length out = length out0).
  { rewrite Hout. apply replay_length. }
  assert (Hw : forall i, 0 <= i < L ->
             write (out, log) i x
             = Ok (<[Z.to_nat i := x]> out, log ++ [(i, x)])).
  { intros i Hi. unfold write. simpl.
    unfold setitem. rewrite decide_True by (rewrite Hlenout; exact Hi).
    reflexivity. }
  unfold place.
  destruct (Z.eqb_spec oi fw) as [E1|E1].
  - (* diverted to slot 0 *)
    assert (Hz : (fw =? 0) = false) by (apply Z.eqb_neq; lia).
    rewrite Hz in Hperm. simpl in Hperm.
    rewrite Hw by lia. simpl.
    eexists. split; [reflexivity|]. simpl.
    rewrite replay_snoc, !fmap_app, Hvals, <- Hout. simpl.
    repeat split; auto; try lia.
    rewrite Hperm, <- app_assoc. apply Permutation_app_head.
    symmetry. apply Permutation_cons_append.
  - destruct (Z.eqb_spec oi bk) as [E2|E2].
    + (* diverted to the last slot *)
      assert (Hz : (bk =? 0) = false) by (apply Z.eqb_neq; lia).
      rewrite Hz in Hperm. rewrite app_nil_r in Hperm.
      rewrite Hw by lia. simpl.
      eexists. split; [reflexivity|]. simpl.
      rewrite replay_snoc, !fmap_app, Hvals, <- Hout. simpl.
      repeat split; auto; try lia.
      rewrite Hperm, <- app_assoc. reflexivity.
    + (* ordinary write *)
      assert (Hlt : oi < L - 1).
      { destruct Hfw as [->|[-> ?]]; destruct Hbk as [->|[-> ?]];
          simpl in Hcount; lia. }
      rewrite Hw by lia. simpl.
      eexists. split; [reflexivity|]. simpl.
      rewrite replay_snoc, !fmap_app, Hvals, <- Hout. simpl.
      split; [reflexivity|]. split; [reflexivity|]. split; [lia|].
      split; [destruct Hfw as [?|[? ?]]; [left; assumption | right; lia]|].
      split; [destruct Hbk as [?|[? ?]]; [left; assumption | right; lia]|].
      rewrite Hperm.
      replace (oi + 1 - 1) with ((oi - 1) + 1) by lia.
      rewrite seqZ_app by lia.
      replace (1 + (oi - 1)) with oi by lia.
      change (seqZ oi 1) with [oi].
      rewrite <- !app_assoc. apply Permutation_app_head. simpl.
      rewrite app_assoc. symmetry. apply Permutation_cons_append.
Qed.

Lemma place_all (points : list Z) :
  2 <= L -> length points = length out0 ->
  exists out log oi fw bk,
    foldM (place L) points ((out0, []), 1, f, b) = Ok ((out, log), oi, fw, bk)
    /\ out = replay log out0
    /\ log.*2 = points
    /\ log.*1 ≡ₚ seqZ 0 L.
Proof.
  intros HL Hlen.
  destruct (foldM_inv (place_inv out0 f b) (place L) points ((out0, []), 1, f, b))
    as ([[[[out log] oi] fw] bk] & Hrun & Hinv).
  - simpl. repeat split; auto; try lia.
    replace (f =? 0) with false by (symmetry; apply Z.eqb_neq; lia).
    replace (b =? 0) with false by (symmetry; apply Z.eqb_neq; lia).
    reflexivity.
  - intros pre x post st Hl Hst. apply (place_step pre x post).
    + rewrite <- Hl. exact Hlen.
    + exact Hst.
  - exists out, log, oi, fw, bk. split; [exact Hrun|].
    destruct Hinv as (Hout & Hvals & Hoi & Hfw & Hbk & Hperm). simpl in *.
    fold L in Hperm.
    split; [exact Hout|]. split; [exact Hvals|].
    assert (Hcount : L = (oi - 1) + (if fw =? 0 then 1 else 0)
                         + (if bk =? 0 then 1 else 0)).
    { unfold L. rewrite <- Hlen, <- Hvals, length_fmap,
        <- (length_fmap fst log), Hperm.
      rewrite !length_app, length_seqZ.
      destruct (fw =? 0), (bk =? 0); simpl; lia. }
    assert (fw = 0).
    { destruct Hfw as [->|[-> ?]]; [reflexivity|].
      replace (f =? 0) with false in Hcount
        by (symmetry; apply Z.eqb_neq; lia).
      destruct (bk =? 0); lia. }
    assert (bk = 0).
    { destruct Hbk as [->|[-> ?]]; [reflexivity|].
      replace (b =? 0) with false in Hcount
        by (symmetry; apply Z.eqb_neq; lia).
      destruct (fw =? 0); lia. }
    subst fw bk. simpl in Hcount, Hperm.
    rewrite Hperm.
    replace L with (1 + (L - 2) + 1) at 2 by lia.
    rewrite seqZ_app by lia. rewrite (seqZ_app 0 1) by lia.
    change (seqZ 0 1) with [0]. simpl.
    replace (oi - 1) with (L - 2) by lia.
    replace (0 + (1 + (L - 2))) with (L - 1) by lia.
    change (seqZ (L - 1) 1) with [L - 1].
    rewrite (Permutation_app_comm (seqZ 1 (L - 2)) [0; L - 1]).
    simpl. apply perm_skip. apply Permutation_cons_append.
Qed.

End Place.

Section Mutation.
Import Utils Gridea.

Lemma py_mod_pos a b : 0 < b -> exists m, py_mod a b = Ok m /\ 0 <= m < b.
Proof.
  intros Hb. unfold py_mod.
  replace (b =? 0) with false by (symmetry; apply Z.eqb_neq; lia).
  exists (a mod b). split; [reflexivity | apply Z.mod_pos_bound; lia].
Qed.

(** The placement loop started as both operators start it, over any
    stream of [L] points, for [L <> 1]. *)
Lemma place_stream (points out0 : list Z) (r1 r2 : Z) :
  length points = length out0 -> length out0 <> 1%nat ->
  let size := Z.of_nat (length out0) in
  exists m1 m2 out log oi fw bk,
    py_mod r1 (size - 1) = Ok m1 /\ py_mod r2 (size - 1) = Ok m2
    /\ foldM (place size) points ((out0, []), 1, m1 + 1, m2 + 1)
       = Ok ((out, log), oi, fw, bk)
    /\ out = replay log out0
    /\ log.*2 = points
    /\ log.*1 ≡ₚ seqZ 0 size
    /\ out ≡ₚ points.
Proof.
  intros Hlen Hne size.
  destruct (decide (length out0 = 0%nat)) as [Hz|Hnz].
  - destruct out0; [|discriminate]. destruct points; [|discriminate].
    exists (r1 mod (-1)), (r2 mod (-1)), [], [], 1,
      (r1 mod (-1) + 1), (r2 mod (-1) + 1).
    repeat split; reflexivity.
  - assert (HL : 2 <= size) by (unfold size; lia).
    destruct (py_mod_pos r1 (size - 1)) as (m1 & E1 & B1); [lia|].
    destruct (py_mod_pos r2 (size - 1)) as (m2 & E2 & B2); [lia|].
    destruct (place_all out0 (m1 + 1) (m2 + 1)) with (points := points)
      as (out & log & oi & fw & bk & Hrun & Hout & Hvals & Hperm);
      try (assumption || (fold size; lia)).
    exists m1, m2, out, log, oi, fw, bk.
    repeat split; try assumption.
    rewrite <- Hvals, Hout. apply replay_perm. exact Hperm.
Qed.

Lemma copy_and_mutate_spec (solution_in solution_out : list Z)
      (rs : random_state) :
  length solution_out = length solution_in ->
  length solution_in <> 1%nat ->
  exists out log rs',
    copy_and_mutate solution_in solution_out rs = Ok ((out, log), rs')
    /\ out = replay log solution_out
    /\ log.*2 = solution_in
    /\ log.*1 ≡ₚ seqZ 0 (Z.of_nat (length solution_in))
    /\ out ≡ₚ solution_in.
Proof.
  intros Hlen Hne. unfold copy_and_mutate.
  destruct (xorshift rs) as [r1 rs1].
  destruct (xorshift rs1) as [r2 rs2].
  destruct (place_stream solution_in solution_out r1 r2)
    as (m1 & m2 & out & log & oi & fw & bk & E1 & E2 & Hrun & Hout & Hvals
        & Hperm & Hp); [auto | congruence |].
  rewrite E1, bind_ret, E2, bind_ret. cbv zeta.
  rewrite Hrun, bind_ret.
  exists out, log, rs2. rewrite <- Hlen.
  repeat split; assumption.
Qed.

Lemma crossover_stream (i_mult j_mult split : Z) (a b : list Z) :
  b ≡ₚ a ->
  filter (fun p => above i_mult j_mult split p = true) a
  ++ filter (fun p => negb (above i_mult j_mult split p) = true) b ≡ₚ a.
Proof.
  intros Hp. rewrite Hp.
  rewrite (list_filter_iff
             (fun p => negb (above i_mult j_mult split p) = true)
             (fun p => ~ above i_mult j_mult split p = true)).
  - apply filter_app_complement.
  - intros p. destruct (above i_mult j_mult split p); simpl; split;
      congruence.
Qed.

Lemma crossover_and_mutate_spec (solution_a solution_b solution_out : list Z)
      (rs : random_state) (puzzle : array2) :
  length solution_out = length solution_a ->
  length solution_a <> 1%nat ->
  solution_b ≡ₚ solution_a ->
  shape0 puzzle <> 0 -> shape1 puzzle <> 0 ->
  exists out log rs',
    crossover_and_mutate solution_a solution_b solution_out rs puzzle
    = Ok ((out, log), rs')
    /\ out = replay log solution_out
    /\ log.*1 ≡ₚ seqZ 0 (Z.of_nat (length solution_a))
    /\ out ≡ₚ solution_a.
Proof.
  intros Hlen Hne Hab H0 H1. unfold crossover_and_mutate.
  destruct (xorshift rs) as [r1 rs1].
  destruct (xorshift rs1) as [r2 rs2].
  destruct (xorshift rs2) as [r3 rs3].
  destruct (xorshift rs3) as [r4 rs4].
  cbv zeta.
  destruct (py_mod_pos r1 10000) as (split & -> & _); [lia|].
  rewrite bind_ret.
  destruct (py_mod_pos r2 10000) as (p & -> & _); [lia|].
  rewrite bind_ret.
  unfold py_floordiv.
  replace (shape0 puzzle =? 0) with false by (symmetry; apply Z.eqb_neq; lia).
  replace (shape1 puzzle =? 0) with false by (symmetry; apply Z.eqb_neq; lia).
  rewrite !bind_ret.
  set (i_mult := p / shape0 puzzle).
  set (j_mult := (10000 - p) / shape1 puzzle).
  set (points := filter (fun q => above i_mult j_mult split q = true) solution_a
                 ++ filter (fun q => negb (above i_mult j_mult split q) = true)
                      solution_b).
  assert (Hpts : points ≡ₚ solution_a) by (apply crossover_stream; exact Hab).
  destruct (place_stream points solution_out r3 r4)
    as (m1 & m2 & out & log & oi & fw & bk & E1 & E2 & Hrun & Hout & Hvals
        & Hperm & Hp).
  { rewrite Hlen. apply Permutation_length. exact Hpts. }
  { congruence. }
  rewrite E1, bind_ret, E2, bind_ret.
  unfold points in Hrun. rewrite foldM_app in Hrun.
  apply bind_Ok in Hrun. destruct Hrun as (st1 & Ea & Hrun).
  rewrite foldM_filter, Ea, bind_ret.
  rewrite foldM_filter, Hrun, bind_ret.
  exists out, log, rs4. rewrite <- Hlen.
  repeat split; try assumption.
  rewrite Hp. exact Hpts.
Qed.



End Mutation.

(** ** Copying *)

Lemma copy_1d_same_length (src dst : list Z) :
  length src = length dst -> Utils.copy_1d src dst = Ok src.
Proof.
  intros Hlen. unfold Utils.copy_1d, range.
  destruct (foldM_seqZ_inv
              (fun k d => length d = length dst /\
                          forall i : nat, d !! i = if decide (Z.of_nat i < k)
                                                   then src !! i else dst !! i)
              (fun dst0 i => v ← getitem src i; setitem dst0 i v)
              0 (Z.of_nat (length dst)) dst) as (d & Hf & Hd & Hlk).
  - lia.
  - split; [reflexivity|]. intros i. rewrite decide_False by lia. reflexivity.
  - intros k d Hk [Hd Hlk].
    destruct (getitem_in_range src k) as [v Hv]; [lia|].
    rewrite Hv, bind_ret.
    exists (<[Z.to_nat k := v]> d). split.
    + apply setitem_Ok. split; [lia | reflexivity].
    + split; [rewrite length_insert; exact Hd|].
      intros i. apply getitem_Ok in Hv. destruct Hv as [_ Hv].
      destruct (decide (i = Z.to_nat k)) as [->|Hne].
      * rewrite list_lookup_insert_eq by lia.
        rewrite decide_True by lia. symmetry. exact Hv.
      * rewrite list_lookup_insert_ne by auto. rewrite Hlk.
        destruct (decide (Z.of_nat i < k)).
        -- rewrite decide_True by lia. reflexivity.
        -- rewrite decide_False by lia. reflexivity.
  - rewrite Hf. f_equal. apply list_eq. intros i. rewrite Hlk.
    destruct (decide (Z.of_nat i < 0 + Z.of_nat (length dst))); [reflexivity|].
    rewrite !lookup_ge_None_2 by lia. reflexivity.
Qed.

(** [copy_2d] overwrites a scratch array of the same shape with the
    source, whatever the scratch held. *)
Lemma copy_2d_same_shape (src dst : array2) :
  rectangular src -> rectangular dst -> same_shape src dst ->
  Utils.copy_2d src dst = Ok src.
Proof.
  intros Hrs Hrd [H0 H1]. unfold Utils.copy_2d, range.
  unfold shape0 in H0.
  destruct (foldM_seqZ_inv
              (fun k d => length d = length dst /\
                          forall i : nat, d !! i = if decide (Z.of_nat i < k)
                                                   then src !! i else dst !! i)
              (fun dst0 k => src_k ← getitem src k; dst_k ← getitem dst0 k;
                             dst_k' ← Utils.copy_1d src_k dst_k;
                             setitem dst0 k dst_k')
              0 (shape0 dst) dst) as (d & Hf & Hd & Hlk).
  - unfold shape0. lia.
  - split; [reflexivity|]. intros i. rewrite decide_False by lia. reflexivity.
  - intros k d Hk [Hd Hlk]. unfold shape0 in Hk.
    destruct (getitem_in_range src k) as [sk Hsk]; [lia|].
    destruct (getitem_in_range d k) as [dk Hdk]; [lia|].
    rewrite Hsk, bind_ret, Hdk, bind_ret.
    apply getitem_Ok in Hsk. destruct Hsk as [_ Hsk].
    apply getitem_Ok in Hdk. destruct Hdk as [_ Hdk].
    assert (Hdk' : dst !! Z.to_nat k = Some dk).
    { rewrite Hlk in Hdk. rewrite decide_False in Hdk by lia. exact Hdk. }
    rewrite copy_1d_same_length, bind_ret.
    2:{ pose proof (rectangular_row src _ sk Hrs Hsk).
        pose proof (rectangular_row dst _ dk Hrd Hdk'). lia. }
    exists (<[Z.to_nat k := sk]> d). split.
    + apply setitem_Ok. split; [lia | reflexivity].
    + split; [rewrite length_insert; exact Hd|].
      intros i. destruct (decide (i = Z.to_nat k)) as [->|Hne].
      * rewrite list_lookup_insert_eq by lia.
        rewrite decide_True by lia. symmetry. exact Hsk.
      * rewrite list_lookup_insert_ne by auto. rewrite Hlk.
        destruct (decide (Z.of_nat i < k)).
        -- rewrite decide_True by lia. reflexivity.
        -- rewrite decide_False by lia. reflexivity.
  - rewrite Hf. f_equal. apply list_eq. intros i. rewrite Hlk.
    destruct (decide (Z.of_nat i < 0 + shape0 dst)); [reflexivity|].
    unfold shape0 in *. rewrite !lookup_ge_None_2 by lia. reflexivity.
Qed.

(** ** Seeding *)

Section Seeding.
Import Initialize.

Lemma make_heuristic_list_length : length make_heuristic_list = 256%nat.
Proof. vm_compute. reflexivity. Qed.

Lemma fill_population_repeating_spec (population : array2) (n : Z) :
  rectangular population -> 0 < n ->
  exists population',
    fill_population_repeating population n = Ok population'
    /\ length population' = length population
    /\ (forall r, 0 <= r < n ->
          population' !! Z.to_nat r = population !! Z.to_nat r)
    /\ (forall r, n <= r < shape0 population ->
          population' !! Z.to_nat r = population !! Z.to_nat (r mod n)).
Proof.
  intros Hr Hn. unfold fill_population_repeating, range2.
  set (body := fun (population0 : array2) (k : Z) =>
                 m ← py_mod k n; src ← getitem population0 m;
                 dst ← getitem population0 k;
                 dst' ← Utils.copy_1d src dst;
                 setitem population0 k dst').
  set (I := fun (k : Z) (p : array2) =>
              length p = length population /\
              forall r, 0 <= r ->
                p !! Z.to_nat r =
                population !! Z.to_nat (if decide (n <= r < k) then r mod n
                                        else r)).
  destruct (decide (n <= shape0 population)) as [Hle|Hgt].
  - destruct (foldM_seqZ_inv I body n (shape0 population - n) population)
      as (p & Hf & Hp & Hlk).
    + lia.
    + split; [reflexivity|]. intros r Hr0.
      rewrite decide_False by lia. reflexivity.
    + intros k p Hk [Hp Hlk]. unfold body, py_mod.
      replace (n =? 0) with false by (symmetry; apply Z.eqb_neq; lia).
      rewrite bind_ret.
      pose proof (Z.mod_pos_bound k n Hn) as Hm.
      unfold shape0 in Hk, Hle.
      destruct (getitem_in_range p (k mod n)) as [src Hsrc]; [lia|].
      destruct (getitem_in_range p k) as [dst Hdst]; [lia|].
      rewrite Hsrc, bind_ret, Hdst, bind_ret.
      apply getitem_Ok in Hsrc. destruct Hsrc as [_ Hsrc].
      apply getitem_Ok in Hdst. destruct Hdst as [_ Hdst].
      rewrite Hlk in Hsrc by lia. rewrite decide_False in Hsrc by lia.
      rewrite Hlk in Hdst by lia. rewrite decide_False in Hdst by lia.
      rewrite copy_1d_same_length, bind_ret.
      2:{ pose proof (rectangular_row population _ src Hr Hsrc).
          pose proof (rectangular_row population _ dst Hr Hdst). lia. }
      exists (<[Z.to_nat k := src]> p). split.
      * apply setitem_Ok. split; [lia | reflexivity].
      * split; [rewrite length_insert; exact Hp|].
        intros r Hr0. destruct (decide (r = k)) as [->|Hne].
        -- rewrite list_lookup_insert_eq by lia.
           rewrite decide_True by lia. symmetry. exact Hsrc.
        -- rewrite list_lookup_insert_ne by lia. rewrite Hlk by lia.
           destruct (decide (n <= r < k)).
           ++ rewrite decide_True by lia. reflexivity.
           ++ rewrite decide_False by lia. reflexivity.
    + exists p. split; [exact Hf|]. split; [exact Hp|]. split.
      * intros r Hr0. rewrite Hlk by lia. rewrite decide_False by lia.
        reflexivity.
      * intros r Hr0. rewrite Hlk by lia. rewrite decide_True by lia.
        reflexivity.
  - rewrite seqZ_nil by lia. exists population.
    split; [reflexivity|]. split; [reflexivity|].
    split; [reflexivity | intros; lia].
Qed.

(** C8: the heuristic list has exactly 256 sort keys, and
    [fill_population_repeating], called with that count as
    [init_population] calls it, keeps rows 0..255 and makes every row
    [r >= 256] a copy of row [r mod 256]. *)
Theorem seeding_fills_by_repetition (population : array2) :
  rectangular population ->
  length make_heuristic_list = 256%nat
  /\ exists population',
       fill_population_repeating population
         (Z.of_nat (length make_heuristic_list)) = Ok population'
       /\ length population' = length population
       /\ (forall r, 0 <= r < 256 ->
             population' !! Z.to_nat r = population !! Z.to_nat r)
       /\ (forall r, 256 <= r < shape0 population ->
             population' !! Z.to_nat r = population !! Z.to_nat (r mod 256)
             /\ population' !! Z.to_nat r
                = population' !! Z.to_nat (r mod 256)).
Proof.
  intros Hr. split; [apply make_heuristic_list_length|].
  rewrite make_heuristic_list_length. change (Z.of_nat 256) with 256.
  destruct (fill_population_repeating_spec population 256 Hr)
    as (p & Hf & Hlen & Hlow & Hhigh); [lia|].
  exists p. split; [exact Hf|]. split; [exact Hlen|].
  split; [exact Hlow|]. intros r Hr0.
  split; [apply Hhigh; exact Hr0|].
  rewrite Hhigh by exact Hr0. symmetry. apply Hlow.
  apply Z.mod_pos_bound. lia.
Qed.

End Seeding.

(** ** Checked access on rectangular arrays *)

Lemma get2_rect (a : array2) i j :
  rectangular a ->
  get2 a i j = if decide (inb a i j) then Ok (cell a i j) else Raise IndexError.
Proof.
  intros Hr. destruct (decide (inb a i j)) as [Hin|Hout].
  - apply get2_inb; assumption.
  - unfold get2, getitem. destruct (decide (0 <= i)); [|reflexivity].
    destruct (a !! Z.to_nat i) as [row|] eqn:Erow; [|reflexivity]. simpl.
    destruct (decide (0 <= j)); [|reflexivity].
    destruct (row !! Z.to_nat j) as [v|] eqn:Ev; [|reflexivity].
    exfalso. apply Hout.
    pose proof (rectangular_row a _ row Hr Erow).
    apply lookup_lt_Some in Erow. apply lookup_lt_Some in Ev.
    unfold inb, shape0. lia.
Qed.

Lemma set2_rect (a : array2) i j v :
  rectangular a ->
  set2 a i j v = if decide (inb a i j) then Ok (upd a i j v)
                 else Raise IndexError.
Proof.
  intros Hr. destruct (decide (inb a i j)) as [Hin|Hout].
  - apply set2_inb; assumption.
  - destruct (set2 a i j v) as [a'|e|] eqn:E.
    + apply set2_Ok in E; [|assumption]. tauto.
    + unfold set2, getitem, setitem in E.
      repeat (case_decide || case_match || simpl in E); congruence.
    + unfold set2, getitem, setitem in E.
      repeat (case_decide || case_match || simpl in E); congruence.
Qed.

Lemma upd_same_shape a i j v : same_shape (upd a i j v) a.
Proof. split; [apply upd_shape0 | apply upd_shape1]. Qed.

Lemma upd_comm (a : array2) i j v r c w :
  0 <= i -> 0 <= j -> 0 <= r -> 0 <= c -> ~ (r = i /\ c = j) ->
  upd (upd a i j v) r c w = upd (upd a r c w) i j v.
Proof.
  intros Hi Hj Hr Hc Hne. unfold upd.
  destruct (decide (r = i)) as [->|Hri].
  - rewrite !list_alter_alter_eq. apply list_alter_ext; [|reflexivity].
    intros row _. simpl. apply list_insert_insert_ne. lia.
  - apply list_alter_alter_ne. lia.
Qed.

Lemma get2_upd_ne (a : array2) i j v r c :
  0 <= i -> 0 <= j -> ~ (r = i /\ c = j) ->
  get2 (upd a i j v) r c = get2 a r c.
Proof.
  intros Hi Hj Hne. unfold get2, getitem, upd.
  destruct (decide (0 <= r)); [|reflexivity].
  destruct (decide (r = i)) as [->|Hri].
  - rewrite list_lookup_alter_eq.
    destruct (a !! Z.to_nat i) as [row|]; [|reflexivity]. simpl.
    destruct (decide (0 <= c)); [|reflexivity].
    rewrite list_lookup_insert_ne by lia. reflexivity.
  - rewrite list_lookup_alter_ne by lia. reflexivity.
Qed.

Lemma is1_inb (s : array2) i j :
  rectangular s -> inb s i j -> Scoring.is1 s i j = Ok (cell s i j =? 1).
Proof.
  intros Hr Hin. unfold Scoring.is1. rewrite get2_inb by assumption.
  reflexivity.
Qed.


(** ** The ring of a growing square *)

Section Ring.
Import Scoring.
Variables (s : array2) (i j n : Z).
Hypothesis Hrect : rectangular s.
Hypothesis Hi : 0 <= i.
Hypothesis Hj : 0 <= j.
Hypothesis Hn : 0 <= n.
Hypothesis Hrow : i + n < shape0 s.
Hypothesis Hcol : j + n < shape1 s.

Lemma scan_ring_list (ks : list Z) :
  Forall (fun k => 0 <= k <= n) ks ->
  scan_ring s i j n ks
  = Ok (negb (forallb (fun k => (cell s (i + n) (j + k) =? 1)
                                && (cell s (i + k) (j + n) =? 1)) ks)).
Proof.
  induction ks as [|k ks IH]; intros Hks; [reflexivity|].
  inversion Hks as [|? ? Hk Hks']; subst. cbn [scan_ring forallb].
  rewrite !get2_inb by (assumption || (unfold inb; lia)).
  rewrite bind_ret.
  destruct (cell s (i + n) (j + k) =? 1); cbn [negb andb]; [|reflexivity].
  rewrite bind_ret.
  destruct (cell s (i + k) (j + n) =? 1); cbn [negb andb]; [|reflexivity].
  apply IH. assumption.
Qed.

Lemma scan_ring_inb :
  scan_ring s i j n (range (n + 1)) = Ok (negb (ring_clear s i j n)).
Proof.
  apply scan_ring_list. apply Forall_seqZ. intros; lia.
Qed.

Lemma ring_clear_cells :
  ring_clear s i j n = true ->
  forall r c, in_square i j (n + 1) r c -> ~ in_square i j n r c ->
              cell s r c = 1.
Proof.
  unfold ring_clear. rewrite forallb_forall. intros Hall r c Hin Hout.
  unfold in_square in *.
  destruct (decide (r = i + n)) as [->|Hr].
  - specialize (Hall (c - j)). rewrite <- list_elem_of_In in Hall.
    unfold range in Hall. rewrite elem_of_seqZ in Hall.
    specialize (Hall ltac:(lia)). apply andb_true_iff in Hall.
    destruct Hall as [H1 _]. apply Z.eqb_eq in H1.
    replace (j + (c - j)) with c in H1 by lia. exact H1.
  - assert (c = j + n) by lia. subst c.
    specialize (Hall (r - i)). rewrite <- list_elem_of_In in Hall.
    unfold range in Hall. rewrite elem_of_seqZ in Hall.
    specialize (Hall ltac:(lia)). apply andb_true_iff in Hall.
    destruct Hall as [_ H2]. apply Z.eqb_eq in H2.
    replace (i + (r - i)) with r in H2 by lia. exact H2.
Qed.

(** Drawing the ring paints exactly the cells between the square of side
    [n] and the square of side [n + 1]. *)
Lemma fill_ring_inb :
  exists s', fill_ring s i j n (range (n + 1)) = Ok s'
    /\ rectangular s' /\ same_shape s' s
    /\ forall r c,
         cell s' r c = if decide (in_square i j (n + 1) r c
                                  /\ ~ in_square i j n r c)
                       then 3 else cell s r c.
Proof.
  unfold fill_ring, range.
  destruct (foldM_seqZ_inv
    (fun k s' => rectangular s' /\ same_shape s' s /\
       forall r c, cell s' r c =
         if decide ((r = i + n /\ j <= c < j + k)
                    \/ (c = j + n /\ i <= r < i + k))
         then 3 else cell s r c)
    (fun scratch k => scratch ← set2 scratch (i + n) (j + k) 3;
                      set2 scratch (i + k) (j + n) 3)
    0 (n + 1) s) as (s' & Hf & Hr' & Hsh & Hc); [lia | |  |].
  - split; [assumption|]. split; [split; reflexivity|].
    intros r c. rewrite decide_False by lia. reflexivity.
  - intros k s1 Hk (Hr1 & [S0 S1] & Hc1).
    assert (In1 : inb s1 (i + n) (j + k)) by (unfold inb; lia).
    rewrite (set2_inb s1 _ _ _ Hr1 In1), bind_ret.
    assert (In2 : inb (upd s1 (i + n) (j + k) 3) (i + k) (j + n)).
    { apply upd_inb. unfold inb. lia. }
    rewrite set2_inb by (auto using upd_rectangular).
    eexists. split; [reflexivity|].
    split; [auto using upd_rectangular|]. split.
    { split; rewrite ?upd_shape0, ?upd_shape1; assumption. }
    intros r c. rewrite cell_upd by (auto using upd_rectangular).
    rewrite cell_upd by assumption. rewrite Hc1.
    case_bool_decide as D1.
    { rewrite decide_True by lia. reflexivity. }
    case_bool_decide as D2.
    { rewrite decide_True by lia. reflexivity. }
    destruct (decide ((r = i + n /\ j <= c < j + k)
                      \/ (c = j + n /\ i <= r < i + k))).
    + rewrite decide_True by lia. reflexivity.
    + rewrite decide_False by lia. reflexivity.
  - exists s'. split; [exact Hf|]. split; [exact Hr'|]. split; [exact Hsh|].
    intros r c. rewrite Hc. unfold in_square.
    destruct (decide ((r = i + n /\ j <= c < j + (0 + (n + 1)))
                      \/ (c = j + n /\ i <= r < i + (0 + (n + 1))))).
    + rewrite decide_True by lia. reflexivity.
    + rewrite decide_False by lia. reflexivity.
Qed.

End Ring.

(** ** The growth loop *)

Section Grow.
Import Scoring.
Variables (height width i j : Z).
Hypothesis Hi : 0 <= i.
Hypothesis Hj : 0 <= j.

Lemma grow_S fuel s n :
  grow (S fuel) height width s i j n =
  if (i + n <? height) && (j + n <? width) then
    hit_wall ← scan_ring s i j n (range (n + 1));
    if hit_wall : bool then Ok (s, n)
    else scratch ← fill_ring s i j n (range (n + 1));
         grow fuel height width scratch i j (n + 1)
  else Ok (s, n).
Proof. reflexivity. Qed.

(** With fuel for the rows left below the square the loop returns; it
    only ever paints cells that were free, and leaves the rest alone. *)
Lemma grow_spec : forall fuel s n,
  rectangular s -> shape0 s = height -> shape1 s = width ->
  0 <= n -> i + n <= height -> j + n <= width ->
  (Z.to_nat (height - (i + n)) < fuel)%nat ->
  exists s' n',
    grow fuel height width s i j n = Ok (s', n')
    /\ n <= n' /\ i + n' <= height /\ j + n' <= width
    /\ rectangular s' /\ same_shape s' s
    /\ (forall r c, in_square i j n' r c -> ~ in_square i j n r c ->
                    cell s r c = 1)
    /\ (forall r c,
          cell s' r c = if decide (in_square i j n' r c
                                   /\ ~ in_square i j n r c)
                        then 3 else cell s r c).
Proof.
  induction fuel as [|fuel IH]; intros s n Hr H0 H1 Hn Hrow Hcol Hfuel;
    [lia|].
  rewrite grow_S.
  assert (Hstop : exists s' n', Ok (s, n) = Ok (s', n')
    /\ n <= n' /\ i + n' <= height /\ j + n' <= width
    /\ rectangular s' /\ same_shape s' s
    /\ (forall r c, in_square i j n' r c -> ~ in_square i j n r c ->
                    cell s r c = 1)
    /\ (forall r c,
          cell s' r c = if decide (in_square i j n' r c
                                   /\ ~ in_square i j n r c)
                        then 3 else cell s r c)).
  { exists s, n. split; [reflexivity|]. repeat split; auto; try lia.
    - intros r c A B. contradiction.
    - intros r c. rewrite decide_False by tauto. reflexivity. }
  destruct (Z.ltb_spec (i + n) height) as [Hlt|Hge];
    destruct (Z.ltb_spec (j + n) width) as [Hlt'|Hge'];
    cbn [andb]; try exact Hstop.
  rewrite scan_ring_inb by (assumption || lia). rewrite bind_ret.
  destruct (ring_clear s i j n) eqn:Hclear; cbn [negb]; [|exact Hstop].
  destruct (fill_ring_inb s i j n) as (s1 & Hfill & Hr1 & [S0 S1] & Hc1);
    try (assumption || lia).
  rewrite Hfill, bind_ret.
  destruct (IH s1 (n + 1)) as (s' & n' & Hg & Hn' & Hrow' & Hcol' & Hr'
                               & [T0 T1] & Hfree & Hc');
    try (assumption || lia).
  exists s', n'. split; [exact Hg|].
  split; [lia|]. split; [lia|]. split; [lia|]. split; [assumption|].
  split; [split; congruence|].
  pose proof (ring_clear_cells s i j n Hclear) as Hring.
  split.
  - intros r c A B.
    destruct (decide (in_square i j (n + 1) r c)) as [D|D].
    + apply Hring; assumption.
    + specialize (Hfree r c A D). rewrite Hc1 in Hfree.
      rewrite decide_False in Hfree by tauto. exact Hfree.
  - intros r c. rewrite Hc', Hc1. unfold in_square.
    destruct (decide ((i <= r < i + n' /\ j <= c < j + n')
                      /\ ~ (i <= r < i + (n + 1) /\ j <= c < j + (n + 1)))).
    + rewrite (decide_True (P := (i <= r < i + n' /\ j <= c < j + n')
                                 /\ ~ (i <= r < i + n /\ j <= c < j + n)))
        by lia. reflexivity.
    + destruct (decide ((i <= r < i + (n + 1) /\ j <= c < j + (n + 1))
                        /\ ~ (i <= r < i + n /\ j <= c < j + n))).
      * rewrite decide_True by lia. reflexivity.
      * rewrite decide_False by lia. reflexivity.
Qed.

Lemma grow_more_fuel : forall fuel s n res,
  grow fuel height width s i j n = Ok res ->
  grow (S fuel) height width s i j n = Ok res.
Proof.
  induction fuel as [|fuel IH]; intros s n res H; [discriminate|].
  rewrite grow_S in H. rewrite grow_S.
  destruct ((i + n <? height) && (j + n <? width)); [|exact H].
  destruct (scan_ring s i j n (range (n + 1))) as [hit| |]; try discriminate.
  rewrite bind_ret in H |- *. destruct hit; [exact H|].
  destruct (fill_ring s i j n (range (n + 1))) as [s1| |]; try discriminate.
  rewrite bind_ret in H |- *. apply IH. exact H.
Qed.

(** The loop equation with the fuel left alone. *)
Lemma grow_unfold fuel s n :
  rectangular s -> shape0 s = height -> shape1 s = width ->
  0 <= n -> i + n <= height -> j + n <= width ->
  (Z.to_nat (height - (i + n)) < fuel)%nat ->
  grow fuel height width s i j n =
  if (i + n <? height) && (j + n <? width) then
    if ring_clear s i j n then
      scratch ← fill_ring s i j n (range (n + 1));
      grow fuel height width scratch i j (n + 1)
    else Ok (s, n)
  else Ok (s, n).
Proof.
  intros Hr H0 H1 Hn Hrow Hcol Hfuel.
  destruct fuel as [|fuel]; [lia|]. rewrite grow_S.
  destruct (Z.ltb_spec (i + n) height) as [Hlt|Hge];
    destruct (Z.ltb_spec (j + n) width) as [Hlt'|Hge'];
    cbn [andb]; try reflexivity.
  rewrite scan_ring_inb by (assumption || lia). rewrite bind_ret.
  destruct (ring_clear s i j n) eqn:Hclear; cbn [negb]; [|reflexivity].
  destruct (fill_ring_inb s i j n) as (s1 & Hfill & Hr1 & [S0 S1] & Hc1);
    try (assumption || lia).
  rewrite Hfill, !bind_ret.
  destruct (grow_spec fuel s1 (n + 1)) as (s' & n' & Hg & _);
    try (assumption || lia).
  rewrite Hg. symmetry. apply grow_more_fuel. exact Hg.
Qed.

Lemma scan_ring_corner s n v ks :
  1 <= n ->
  scan_ring (upd s i j v) i j n ks = scan_ring s i j n ks.
Proof.
  intros Hn. induction ks as [|k ks IH]; [reflexivity|].
  cbn [scan_ring]. rewrite !get2_upd_ne by lia. rewrite IH. reflexivity.
Qed.

Lemma fill_ring_rectangular n ks : forall s s',
  rectangular s -> fill_ring s i j n ks = Ok s' -> rectangular s'.
Proof.
  unfold fill_ring. induction ks as [|k ks IH]; intros s s' Hr H.
  - simpl in H. inversion H. subst. assumption.
  - cbn [foldM] in H.
    apply bind_Ok in H. destruct H as (s2 & H & Hrest).
    apply bind_Ok in H. destruct H as (s1 & H1 & H2).
    apply set2_Ok in H1; [|assumption]. destruct H1 as [In1 ->].
    apply set2_Ok in H2; [|auto using upd_rectangular].
    destruct H2 as [In2 ->].
    apply (IH (upd (upd s (i + n) (j + k) 3) (i + k) (j + n) 3));
      [auto using upd_rectangular | exact Hrest].
Qed.

Lemma fill_ring_corner n v ks : forall s s',
  rectangular s -> 1 <= n ->
  fill_ring s i j n ks = Ok s' ->
  fill_ring (upd s i j v) i j n ks = Ok (upd s' i j v).
Proof.
  intros s s' Hr Hn. unfold fill_ring. revert s Hr.
  induction ks as [|k ks IH]; intros s Hr H.
  - simpl in *. inversion H. reflexivity.
  - cbn [foldM] in *.
    apply bind_Ok in H. destruct H as (s2 & H & Hrest).
    apply bind_Ok in H. destruct H as (s1 & H1 & H2).
    apply set2_Ok in H1; [|assumption]. destruct H1 as [In1 ->].
    apply set2_Ok in H2; [|auto using upd_rectangular].
    destruct H2 as [In2 ->].
    rewrite upd_inb in In2.
    rewrite (set2_inb (upd s i j v) (i + n) (j + k) 3);
      [|apply upd_rectangular; assumption | rewrite upd_inb; assumption].
    rewrite bind_ret.
    rewrite set2_inb;
      [|auto using upd_rectangular | rewrite !upd_inb; assumption].
    rewrite bind_ret.
    destruct In1 as [? ?]. destruct In2 as [? ?].
    rewrite (upd_comm s i j v (i + n) (j + k) 3) by lia.
    rewrite (upd_comm (upd s (i + n) (j + k) 3) i j v (i + k) (j + n) 3)
      by lia.
    apply IH; [auto using upd_rectangular | exact Hrest].
Qed.

(** Marking the anchor before the loop or after it gives the same grid. *)
Lemma grow_corner v : forall fuel s n s' n',
  rectangular s -> 1 <= n ->
  grow fuel height width s i j n = Ok (s', n') ->
  grow fuel height width (upd s i j v) i j n = Ok (upd s' i j v, n').
Proof.
  induction fuel as [|fuel IH]; intros s n s' n' Hr Hn H; [discriminate|].
  rewrite grow_S in H. rewrite grow_S.
  destruct ((i + n <? height) && (j + n <? width)).
  - rewrite scan_ring_corner by assumption.
    destruct (scan_ring s i j n (range (n + 1))) as [hit| |];
      try discriminate.
    rewrite bind_ret in H |- *. destruct hit.
    + inversion H. reflexivity.
    + apply bind_Ok in H. destruct H as (s1 & Hfill & Hg).
      rewrite (fill_ring_corner n v _ s s1 Hr Hn Hfill), bind_ret.
      apply IH; [|lia|exact Hg].
      exact (fill_ring_rectangular n _ s s1 Hr Hfill).
  - inversion H. reflexivity.
Qed.

End Grow.

(** ** The unrolled scorer *)

Lemma all_of_nil : all_of [] = Ok true.
Proof. reflexivity. Qed.

Lemma all_of_cons_Ok (b : bool) cs :
  all_of (Ok b :: cs) = if b then all_of cs else Ok false.
Proof. reflexivity. Qed.

(** Cells of a grid after a chain of in-bounds writes. *)
Ltac cell_chain :=
  repeat (rewrite cell_upd;
          [ | solve [auto 12 using upd_rectangular]
            | solve [rewrite ?upd_inb; unfold inb; lia] ]).

(** Case analysis on which written cell [(r, c)] is, one cell at a time. *)
Ltac split_cells :=
  repeat match goal with
  | |- context [bool_decide ?P] =>
      first [ rewrite (bool_decide_eq_true_2 P) by lia
            | rewrite (bool_decide_eq_false_2 P) by lia
            | destruct (decide P);
              [ rewrite (bool_decide_eq_true_2 P) by assumption
              | rewrite (bool_decide_eq_false_2 P) by assumption ] ]
  | |- context [@decide ?P ?d] =>
      first [ rewrite (@decide_True _ P d) by lia
            | rewrite (@decide_False _ P d) by lia
            | destruct (@decide P d) ]
  end.

(** A failed test: whatever the remaining cells hold, both sides stop. *)
Ltac atoms_false :=
  repeat match goal with
  | |- context [cell ?s ?a ?b =? 1] => destruct (cell s a b =? 1)
  end; reflexivity.

(** Writes in bounds succeed. *)
Ltac write_ok :=
  rewrite set2_inb;
  [ rewrite bind_ret
  | solve [auto 12 using upd_rectangular]
  | solve [rewrite ?upd_inb; unfold inb; lia] ].

Section Unrolled.
Import Scoring.
Variables (height width i j : Z).
Hypothesis Hi : 0 <= i.
Hypothesis Hj : 0 <= j.

Lemma grow_fuel_enough n :
  0 <= n -> (Z.to_nat (height - (i + n)) < grow_fuel height)%nat.
Proof. intros Hn. unfold grow_fuel. lia. Qed.

(** The unrolled extension from side 3 to side 4 followed by the loop is
    the loop started at side 3. *)
Lemma unrolled_from_3 (s : array2) :
  rectangular s -> shape0 s = height -> shape1 s = width ->
  i + 3 <= height -> j + 3 <= width ->
  (c4 ← all_of [Ok (i + 3 <? height); Ok (j + 3 <? width);
                is1 s (i + 3) (j + 0);
                is1 s (i + 3) (j + 1);
                is1 s (i + 3) (j + 2);
                is1 s (i + 3) (j + 3);
                is1 s (i + 0) (j + 3);
                is1 s (i + 1) (j + 3);
                is1 s (i + 2) (j + 3)];
   if c4 : bool then
     scratch ← set2 s (i + 0) (j + 3) 3;
     scratch ← set2 scratch (i + 1) (j + 3) 3;
     scratch ← set2 scratch (i + 2) (j + 3) 3;
     scratch ← set2 scratch (i + 3) (j + 0) 3;
     scratch ← set2 scratch (i + 3) (j + 1) 3;
     scratch ← set2 scratch (i + 3) (j + 2) 3;
     scratch ← set2 scratch (i + 3) (j + 3) 3;
     grow (grow_fuel height) height width scratch i j 4
   else Ok (s, 3))
  = grow (grow_fuel height) height width s i j 3.
Proof.
  intros Hr H0 H1 Hrow Hcol.
  rewrite (grow_unfold height width i j Hi Hj (grow_fuel height) s 3)
    by (assumption || lia || (apply grow_fuel_enough; lia)).
  destruct (Z.ltb_spec (i + 3) height) as [Hlt|Hge];
    [|rewrite all_of_cons_Ok, bind_ret; reflexivity].
  destruct (Z.ltb_spec (j + 3) width) as [Hlt'|Hge'];
    [|rewrite !all_of_cons_Ok, bind_ret; reflexivity].
  cbn [andb]. rewrite !is1_inb by (assumption || (unfold inb; lia)).
  rewrite !all_of_cons_Ok, all_of_nil.
  unfold ring_clear. change (range (3 + 1)) with [0; 1; 2; 3].
  cbn [forallb].
  destruct (cell s (i + 3) (j + 0) =? 1); cbn [andb];
    [|rewrite bind_ret; reflexivity].
  destruct (cell s (i + 3) (j + 1) =? 1); cbn [andb];
    [|rewrite bind_ret; destruct (cell s (i + 0) (j + 3) =? 1); reflexivity].
  destruct (cell s (i + 3) (j + 2) =? 1); cbn [andb];
    [|rewrite bind_ret; destruct (cell s (i + 0) (j + 3) =? 1),
        (cell s (i + 1) (j + 3) =? 1); reflexivity].
  destruct (cell s (i + 3) (j + 3) =? 1); cbn [andb];
    [|rewrite bind_ret; destruct (cell s (i + 0) (j + 3) =? 1),
        (cell s (i + 1) (j + 3) =? 1), (cell s (i + 2) (j + 3) =? 1);
      reflexivity].
  destruct (cell s (i + 0) (j + 3) =? 1); cbn [andb];
    [|rewrite bind_ret; reflexivity].
  destruct (cell s (i + 1) (j + 3) =? 1); cbn [andb];
    [|rewrite bind_ret; reflexivity].
  destruct (cell s (i + 2) (j + 3) =? 1); cbn [andb];
    [|rewrite bind_ret; reflexivity].
  rewrite bind_ret.
  destruct (fill_ring_inb s i j 3) as (s3 & Hfill & Hr3 & [S0 S1] & Hc3);
    try (assumption || lia).
  change (range (3 + 1)) with [0; 1; 2; 3] in Hfill. rewrite Hfill, bind_ret.
  do 7 write_ok.
  change (3 + 1) with 4. f_equal.
  apply array2_ext; [auto 12 using upd_rectangular | assumption | |].
  { split; rewrite ?upd_shape0, ?upd_shape1; congruence. }
  intros r c Hin. rewrite !upd_inb in Hin. destruct Hin as [? ?].
  rewrite Hc3. unfold in_square. cell_chain. split_cells; reflexivity.
Qed.

(** The same one level up: the unrolled code from side 2 on is the loop
    started at side 2. *)
Lemma unrolled_from_2 (s : array2) :
  rectangular s -> shape0 s = height -> shape1 s = width ->
  i + 2 <= height -> j + 2 <= width ->
  (c3 ← all_of [Ok (i + 2 <? height); Ok (j + 2 <? width);
                is1 s (i + 0) (j + 2);
                is1 s (i + 1) (j + 2);
                is1 s (i + 2) (j + 0);
                is1 s (i + 2) (j + 1);
                is1 s (i + 2) (j + 2)];
   if c3 : bool then
     scratch ← set2 s (i + 0) (j + 2) 3;
     scratch ← set2 scratch (i + 1) (j + 2) 3;
     scratch ← set2 scratch (i + 2) (j + 0) 3;
     scratch ← set2 scratch (i + 2) (j + 1) 3;
     scratch ← set2 scratch (i + 2) (j + 2) 3;
     c4 ← all_of [Ok (i + 3 <? height); Ok (j + 3 <? width);
                  is1 scratch (i + 3) (j + 0);
                  is1 scratch (i + 3) (j + 1);
                  is1 scratch (i + 3) (j + 2);
                  is1 scratch (i + 3) (j + 3);
                  is1 scratch (i + 0) (j + 3);
                  is1 scratch (i + 1) (j + 3);
                  is1 scratch (i + 2) (j + 3)];
     if c4 : bool then
       scratch ← set2 scratch (i + 0) (j + 3) 3;
       scratch ← set2 scratch (i + 1) (j + 3) 3;
       scratch ← set2 scratch (i + 2) (j + 3) 3;
       scratch ← set2 scratch (i + 3) (j + 0) 3;
       scratch ← set2 scratch (i + 3) (j + 1) 3;
       scratch ← set2 scratch (i + 3) (j + 2) 3;
       scratch ← set2 scratch (i + 3) (j + 3) 3;
       grow (grow_fuel height) height width scratch i j 4
     else Ok (scratch, 3)
   else Ok (s, 2))
  = grow (grow_fuel height) height width s i j 2.
Proof.
  intros Hr H0 H1 Hrow Hcol.
  rewrite (grow_unfold height width i j Hi Hj (grow_fuel height) s 2)
    by (assumption || lia || (apply grow_fuel_enough; lia)).
  destruct (Z.ltb_spec (i + 2) height) as [Hlt|Hge];
    [|rewrite all_of_cons_Ok, bind_ret; reflexivity].
  destruct (Z.ltb_spec (j + 2) width) as [Hlt'|Hge'];
    [|rewrite !all_of_cons_Ok, bind_ret; reflexivity].
  cbn [andb]. rewrite !is1_inb by (assumption || (unfold inb; lia)).
  rewrite !all_of_cons_Ok, all_of_nil.
  unfold ring_clear. change (range (2 + 1)) with [0; 1; 2].
  cbn [forallb].
  destruct (cell s (i + 2) (j + 0) =? 1); cbn [andb]; [|atoms_false].
  destruct (cell s (i + 0) (j + 2) =? 1); cbn [andb]; [|atoms_false].
  destruct (cell s (i + 2) (j + 1) =? 1); cbn [andb]; [|atoms_false].
  destruct (cell s (i + 1) (j + 2) =? 1); cbn [andb]; [|atoms_false].
  destruct (cell s (i + 2) (j + 2) =? 1); cbn [andb]; [|atoms_false].
  rewrite bind_ret.
  destruct (fill_ring_inb s i j 2) as (s2 & Hfill & Hr2 & [S0 S1] & Hc2);
    try (assumption || lia).
  change (range (2 + 1)) with [0; 1; 2] in Hfill. rewrite Hfill, bind_ret.
  do 5 write_ok.
  change (2 + 1) with 3.
  assert (E : upd (upd (upd (upd (upd s (i + 0) (j + 2) 3) (i + 1) (j + 2) 3)
                             (i + 2) (j + 0) 3) (i + 2) (j + 1) 3)
                  (i + 2) (j + 2) 3 = s2).
  { apply array2_ext; [auto 12 using upd_rectangular | assumption | |].
    { split; rewrite ?upd_shape0, ?upd_shape1; congruence. }
    intros r c Hin. rewrite !upd_inb in Hin. destruct Hin as [? ?].
    rewrite Hc2. unfold in_square. cell_chain. split_cells; reflexivity. }
  rewrite E. apply unrolled_from_3; try (assumption || lia || congruence).
Qed.

End Unrolled.

Lemma bind_assoc_eq {A B C} (m : result A) (k : A -> result B)
      (f : B -> result C) (r : result B) :
  m ≫= k = r -> (m ≫= fun x => k x ≫= f) = r ≫= f.
Proof. intros <-. destruct m; reflexivity. Qed.

Section PointStep.
Import Utils Scoring.
Variables (height width : Z).

(** One point: the expander and the unrolled scorer leave the same
    scratch grid and agree on whether a square was drawn and on its
    side. *)
Lemma point_step (s : array2) (boxes : list (Z * Z * Z)) (sc t p i j : Z) :
  rectangular s -> shape0 s = height -> shape1 s = width ->
  split_point p = (i, j) ->
  0 <= i -> 0 <= j -> i + 1 < height -> j + 1 < width ->
  1 <= cell s i j ->
  exists s' bs,
    expand_point height width (s, boxes) p = Ok (s', boxes ++ bs)
    /\ score_point height width (s, sc, t) p
       = Ok (s', sc + Z.of_nat (length bs), t + box_tiles bs)
    /\ rectangular s' /\ same_shape s' s /\ drawn s s' i j bs.
Proof.
  intros Hr H0 H1 Hp Hi Hj Hrow Hcol Hcell.
  assert (Hnone : exists s' bs,
    Ok (s, boxes) = Ok (s', boxes ++ bs)
    /\ Ok (s, sc, t) = Ok (s', sc + Z.of_nat (length bs), t + box_tiles bs)
    /\ rectangular s' /\ same_shape s' s /\ drawn s s' i j bs).
  { exists s, []. rewrite app_nil_r. simpl. rewrite !Z.add_0_r.
    repeat split; auto. left. auto. }
  unfold expand_point, score_point. rewrite Hp.
  assert (Hin : inb s i j) by (unfold inb; lia).
  rewrite (get2_inb s i j Hr Hin), bind_ret.
  rewrite (is1_inb s i j Hr Hin), all_of_cons_Ok.
  replace (cell s i j >? 0) with true by (symmetry; apply Z.gtb_lt; lia).
  destruct (Z.eqb_spec (cell s i j) 1) as [Hone|Hne];
    [|rewrite bind_ret; exact Hnone].
  rewrite !is1_inb by (assumption || (unfold inb; lia)).
  rewrite !all_of_cons_Ok, all_of_nil.
  rewrite (grow_unfold height width i j Hi Hj (grow_fuel height) s 1)
    by (assumption || lia || (apply grow_fuel_enough; lia)).
  replace (i + 1 <? height) with true by (symmetry; apply Z.ltb_lt; lia).
  replace (j + 1 <? width) with true by (symmetry; apply Z.ltb_lt; lia).
  cbn [andb].
  assert (Hclear : ring_clear s i j 1
                   = (cell s i (j + 1) =? 1) && (cell s (i + 1) j =? 1)
                     && (cell s (i + 1) (j + 1) =? 1)).
  { unfold ring_clear. change (range (1 + 1)) with [0; 1]. cbn [forallb].
    rewrite !Z.add_0_r.
    destruct (cell s i (j + 1) =? 1), (cell s (i + 1) j =? 1),
      (cell s (i + 1) (j + 1) =? 1); reflexivity. }
  destruct (ring_clear s i j 1) eqn:Hclear1.
  2:{ assert (E : (if cell s i (j + 1) =? 1
                   then if cell s (i + 1) j =? 1
                        then if cell s (i + 1) (j + 1) =? 1
                             then Ok true else Ok false
                        else Ok false
                   else Ok false) = Ok false).
      { destruct (cell s i (j + 1) =? 1), (cell s (i + 1) j =? 1),
          (cell s (i + 1) (j + 1) =? 1); (reflexivity || discriminate). }
      rewrite E, !bind_ret. cbn. exact Hnone. }
  symmetry in Hclear. apply andb_true_iff in Hclear.
  destruct Hclear as [Hclear E11]. apply andb_true_iff in Hclear.
  destruct Hclear as [E01 E10]. rewrite E01, E10, E11, bind_ret.
  (* the expander *)
  destruct (fill_ring_inb s i j 1) as (a1 & Hfill & Hr1 & [S0 S1] & Hc1);
    try (assumption || lia).
  rewrite Hfill, bind_ret. change (1 + 1) with 2.
  destruct (grow_spec height width i j Hi Hj (grow_fuel height) a1 2)
    as (a' & n & Hg & Hn & Hrow' & Hcol' & Hr' & [T0 T1] & Hfree & Hc');
    try (assumption || lia || congruence || (apply grow_fuel_enough; lia)).
  rewrite Hg, bind_ret.
  replace (n >? 1) with true by (symmetry; apply Z.gtb_lt; lia).
  rewrite (set2_inb a' i j 2) by (assumption || (unfold inb; lia)).
  rewrite bind_ret.
  (* the scorer *)
  rewrite !Z.add_0_r.
  do 4 write_ok.
  assert (E : upd (upd (upd (upd s i j 2) i (j + 1) 3) (i + 1) j 3)
                  (i + 1) (j + 1) 3 = upd a1 i j 2).
  { apply array2_ext; [auto 12 using upd_rectangular
                      |auto using upd_rectangular | |].
    { split; rewrite ?upd_shape0, ?upd_shape1; congruence. }
    intros r c Hrc. rewrite !upd_inb in Hrc. destruct Hrc as [? ?].
    rewrite (cell_upd a1) by (assumption || (unfold inb; lia)).
    rewrite Hc1. unfold in_square. cell_chain. split_cells; reflexivity. }
  rewrite E.
  pose proof (unrolled_from_2 height width i j Hi Hj (upd a1 i j 2)) as Hu.
  rewrite !Z.add_0_r in Hu.
  assert (Hu' := Hu ltac:(auto using upd_rectangular)
                    ltac:(rewrite upd_shape0; congruence)
                    ltac:(rewrite upd_shape1; congruence)
                    ltac:(lia) ltac:(lia)).
  clear Hu.
  erewrite (bind_assoc_eq _ _ _ _ Hu').
  rewrite (grow_corner height width i j Hi Hj 2 _ a1 2 a' n Hr1 ltac:(lia) Hg).
  rewrite bind_ret.
  exists (upd a' i j 2), [(i, j, n)]. cbn [length box_tiles foldr snd].
  replace (sc + Z.of_nat 1) with (sc + 1) by lia.
  replace (t + (n * n + 0)) with (t + n * n) by lia.
  split; [reflexivity|]. split; [reflexivity|].
  split; [auto using upd_rectangular|].
  split; [split; rewrite ?upd_shape0, ?upd_shape1; congruence|].
  right. exists n. split; [reflexivity|]. split; [lia|].
  split; [lia|]. split; [lia|].
  pose proof (ring_clear_cells s i j 1 Hclear1) as Hring.
  split.
  - intros r c Hsq.
    destruct (decide (in_square i j 1 r c)) as [D1|D1].
    { unfold in_square in D1. assert (r = i) by lia. assert (c = j) by lia.
      subst. exact Hone. }
    destruct (decide (in_square i j 2 r c)) as [D2|D2].
    { apply Hring; assumption. }
    specialize (Hfree r c Hsq D2). rewrite Hc1 in Hfree.
    rewrite decide_False in Hfree by tauto. exact Hfree.
  - intros r c. rewrite (cell_upd a') by (assumption || (unfold inb; lia)).
    rewrite Hc', Hc1. unfold in_square.
    split_cells; reflexivity.
Qed.

End PointStep.

(** ** Cells of a grid *)

Lemma cprod_cons {A B} (x : A) (l : list A) (k : list B) :
  cprod (x :: l) k = (pair x <$> k) ++ cprod l k.
Proof. reflexivity. Qed.

Lemma NoDup_cprod {A B} (l : list A) (k : list B) :
  NoDup l -> NoDup k -> NoDup (cprod l k).
Proof.
  intros Hl Hk. induction Hl as [|x l Hx Hl IH]; [constructor|].
  rewrite cprod_cons. apply NoDup_app. split; [|split].
  - apply NoDup_fmap_2; [|assumption]. intros a b H. congruence.
  - intros [a b] H1 H2. apply list_elem_of_fmap in H1.
    destruct H1 as (b' & E & _). inversion E; subst.
    apply list_elem_of_cprod in H2. simpl in H2. tauto.
  - exact IH.
Qed.

Lemma length_cprod {A B} (l : list A) (k : list B) :
  length (cprod l k) = (length l * length k)%nat.
Proof. rewrite list_cprod_list_prod. apply length_prod. Qed.

Lemma elem_of_free_cells s r c :
  rectangular s -> (r, c) ∈ free_cells s <-> cell s r c = 1.
Proof.
  intros Hr. unfold free_cells. rewrite list_elem_of_filter. simpl.
  rewrite list_elem_of_cprod. simpl. unfold range. rewrite !elem_of_seqZ.
  split; [tauto|]. intros H. split; [exact H|].
  destruct (decide (inb s r c)) as [[? ?]|Hout]; [lia|].
  rewrite cell_outside in H by assumption. discriminate.
Qed.

Lemma NoDup_free_cells s : NoDup (free_cells s).
Proof.
  apply NoDup_filter. apply NoDup_cprod; apply NoDup_seqZ.
Qed.

(** Drawing a square over free cells removes exactly its area from the
    free cells. *)
Lemma free_cells_drawn s s' i j n :
  rectangular s -> rectangular s' -> 0 <= n ->
  (forall r c, in_square i j n r c -> cell s r c = 1) ->
  (forall r c, in_square i j n r c -> cell s' r c <> 1) ->
  (forall r c, ~ in_square i j n r c -> cell s' r c = cell s r c) ->
  Z.of_nat (length (free_cells s')) + n * n = Z.of_nat (length (free_cells s)).
Proof.
  intros Hr Hr' Hn Hin Hin' Hout.
  assert (P : free_cells s ≡ₚ free_cells s' ++ cprod (seqZ i n) (seqZ j n)).
  { apply NoDup_Permutation.
    - apply NoDup_free_cells.
    - apply NoDup_app. split; [apply NoDup_free_cells|].
      split; [|apply NoDup_cprod; apply NoDup_seqZ].
      intros [r c] H1 H2. apply elem_of_free_cells in H1; [|assumption].
      apply list_elem_of_cprod in H2. simpl in H2.
      rewrite !elem_of_seqZ in H2. apply (Hin' r c); [exact H2 | exact H1].
    - intros [r c]. rewrite elem_of_app, !elem_of_free_cells by assumption.
      rewrite list_elem_of_cprod. simpl. rewrite !elem_of_seqZ.
      destruct (decide (in_square i j n r c)) as [D|D].
      + specialize (Hin r c D). specialize (Hin' r c D).
        unfold in_square in D. tauto.
      + rewrite (Hout r c D). unfold in_square in D. tauto. }
  apply Permutation_length in P.
  rewrite P, length_app, length_cprod, !length_seqZ. nia.
Qed.

(** ** Loops that append *)

Lemma foldM_append {A B} (body : list B -> A -> result (list B))
      (g : A -> list B) (l : list A) :
  (forall acc x, x ∈ l -> body acc x = Ok (acc ++ g x)) ->
  forall acc, foldM body l acc = Ok (acc ++ (l ≫= g)).
Proof.
  induction l as [|x l IH]; intros Hb acc.
  - simpl. rewrite app_nil_r. reflexivity.
  - cbn [foldM]. rewrite Hb by left. rewrite bind_ret.
    rewrite IH by (intros; apply Hb; right; assumption).
    rewrite <- app_assoc. reflexivity.
Qed.

Lemma bind_filter_fmap {A B} (P : A -> Prop) `{!forall x, Decision (P x)}
      (mk : A -> B) (l : list A) :
  (l ≫= fun x => if decide (P x) then [mk x] else []) = mk <$> filter P l.
Proof.
  induction l as [|x l IH]; [reflexivity|].
  rewrite bind_cons, filter_cons, IH.
  destruct (decide (P x)); reflexivity.
Qed.

Lemma bind_cprod {A B C} (f : A * B -> list C) (l : list A) (k : list B) :
  (l ≫= fun x => k ≫= fun y => f (x, y)) = cprod l k ≫= f.
Proof.
  induction l as [|x l IH]; [reflexivity|].
  rewrite cprod_cons, bind_app, bind_cons. f_equal; [|exact IH].
  clear. induction k as [|y k IHk]; [reflexivity|].
  rewrite fmap_cons, !bind_cons. f_equal. exact IHk.
Qed.

Section Sweep.
Import Scoring.

Lemma sweep_spec (s : array2) (boxes : list (Z * Z * Z)) :
  rectangular s ->
  sweep (shape0 s) (shape1 s) s boxes
  = Ok (boxes ++ ((fun rc => (rc.1, rc.2, 1)) <$> free_cells s)).
Proof.
  intros Hr. unfold sweep.
  rewrite (foldM_append _
             (fun i => range (shape1 s) ≫= fun j =>
                if decide (cell s i j = 1) then [(i, j, 1)] else [])).
  - f_equal. f_equal. unfold free_cells.
    rewrite <- (bind_filter_fmap (fun rc => cell s rc.1 rc.2 = 1)
                                 (fun rc => (rc.1, rc.2, 1))).
    exact (bind_cprod (fun rc => if decide (cell s rc.1 rc.2 = 1)
                                 then [(rc.1, rc.2, 1)] else []) _ _).
  - intros acc i Hi. unfold range in Hi. apply elem_of_seqZ in Hi.
    apply foldM_append. intros acc' j' Hj'.
    unfold range in Hj'. apply elem_of_seqZ in Hj'.
    rewrite get2_inb by (assumption || (unfold inb; lia)).
    rewrite bind_ret.
    destruct (Z.eqb_spec (cell s i j') 1) as [E|E].
    + rewrite decide_True by assumption. reflexivity.
    + rewrite decide_False by assumption. rewrite app_nil_r. reflexivity.
Qed.

End Sweep.

(** ** The expander's invariant *)

Lemma box_tiles_app bs1 bs2 :
  box_tiles (bs1 ++ bs2) = box_tiles bs1 + box_tiles bs2.
Proof.
  induction bs1 as [|b bs1 IH]; simpl; [reflexivity|].
  unfold box_tiles in *. simpl. rewrite IH. lia.
Qed.

Lemma pairwise_disjoint_snoc {B} (cov : B -> Z -> Z -> Prop) (l : list B) b :
  pairwise_disjoint cov l ->
  (forall b' r c, b' ∈ l -> ~ (cov b' r c /\ cov b r c)) ->
  pairwise_disjoint cov (l ++ [b]).
Proof.
  intros Hl Hb k1 k2 b1 b2 H1 H2 Hne r c [C1 C2].
  apply lookup_snoc_Some in H1. apply lookup_snoc_Some in H2.
  destruct H1 as [[L1 H1]|[L1 E1]]; destruct H2 as [[L2 H2]|[L2 E2]].
  - apply (Hl k1 k2 b1 b2 H1 H2 Hne r c). auto.
  - subst b2. apply (Hb b1 r c); [|auto].
    apply list_elem_of_lookup. eauto.
  - subst b1. apply (Hb b2 r c); [|auto].
    apply list_elem_of_lookup. eauto.
  - lia.
Qed.

Lemma expand_inv_init puzzle : rectangular puzzle -> expand_inv puzzle puzzle [].
Proof.
  intros Hr. split; [assumption|]. split; [split; reflexivity|].
  split; [intros r c H; lia|]. split; [intros r c H; split; [exact H|constructor]|].
  split; [intros r c H; left; exact H|].
  split; [intros b r c Hb; inversion Hb|].
  split; [intros k1 k2 b1 b2 H1; inversion H1|].
  unfold box_tiles. simpl. lia.
Qed.

Lemma expand_inv_drawn puzzle s s' boxes i j bs :
  expand_inv puzzle s boxes ->
  rectangular s' -> same_shape s' s -> drawn s s' i j bs ->
  expand_inv puzzle s' (boxes ++ bs).
Proof.
  intros Hinv Hr' [T0 T1] [[-> ->]|(n & -> & Hn & Hrow & Hcol & Hin & Hc)].
  { rewrite app_nil_r. exact Hinv. }
  destruct Hinv as (Hr & [S0 S1] & Hge & Hfree & Hcov & Hbox & Hdis & Hcount).
  assert (Hin' : forall r c, in_square i j n r c -> cell s' r c <> 1).
  { intros r c D. rewrite Hc, decide_True by assumption.
    case_bool_decide; lia. }
  assert (Hout : forall r c, ~ in_square i j n r c -> cell s' r c = cell s r c).
  { intros r c D. rewrite Hc, decide_False by assumption. reflexivity. }
  split; [assumption|]. split; [split; congruence|]. split; [|split; [|split; [|split; [|split]]]].
  - intros r c Hp. destruct (decide (in_square i j n r c)) as [D|D].
    + rewrite Hc, decide_True by assumption. case_bool_decide; lia.
    + rewrite Hout by assumption. apply Hge. exact Hp.
  - intros r c H1. destruct (decide (in_square i j n r c)) as [D|D].
    + exfalso. exact (Hin' r c D H1).
    + rewrite Hout in H1 by assumption. destruct (Hfree r c H1) as [Hp Hnc].
      split; [exact Hp|]. apply Forall_app. split; [exact Hnc|].
      constructor; [exact D | constructor].
  - intros r c Hp. destruct (decide (in_square i j n r c)) as [D|D].
    + right. apply Exists_app. right. constructor. exact D.
    + rewrite Hout by assumption. destruct (Hcov r c Hp) as [H1|He];
        [left; exact H1 | right; apply Exists_app; left; exact He].
  - intros b r c Hb Hbc. apply elem_of_app in Hb. destruct Hb as [Hb|Hb].
    + exact (Hbox b r c Hb Hbc).
    + apply list_elem_of_singleton in Hb. subst b.
      exact (proj1 (Hfree r c (Hin r c Hbc))).
  - apply pairwise_disjoint_snoc; [exact Hdis|].
    intros b' r c Hb' [C1 C2].
    destruct (Hfree r c (Hin r c C2)) as [_ Hnc].
    rewrite Forall_forall in Hnc. exact (Hnc b' Hb' C1).
  - rewrite box_tiles_app. unfold box_tiles at 2. simpl.
    pose proof (free_cells_drawn s s' i j n Hr Hr' ltac:(lia) Hin Hin' Hout).
    lia.
Qed.

Section PointsLoop.
Import Utils Scoring.
Variable puzzle : array2.
Let height := shape0 puzzle.
Let width := shape1 puzzle.

(** The two loops over the points run in lockstep. *)
Lemma points_loop : forall (solution : list Z) s boxes,
  Forall (valid_point puzzle) solution ->
  expand_inv puzzle s boxes ->
  exists s' boxes',
    foldM (expand_point height width) solution (s, boxes) = Ok (s', boxes')
    /\ foldM (score_point height width) solution
             (s, Z.of_nat (length boxes), box_tiles boxes)
       = Ok (s', Z.of_nat (length boxes'), box_tiles boxes')
    /\ expand_inv puzzle s' boxes'.
Proof.
  induction solution as [|p solution IH]; intros s boxes Hv Hinv.
  - exists s, boxes. split; [reflexivity|]. split; [reflexivity|assumption].
  - inversion Hv as [|? ? Hp Hv']; subst.
    unfold valid_point in Hp.
    destruct (split_point p) as [i j] eqn:Esp.
    destruct Hp as (Hi & Hj & Hrow & Hcol & P00 & _).
    pose proof Hinv as (Hr & [S0 S1] & Hge & _).
    destruct (point_step height width s boxes (Z.of_nat (length boxes))
                         (box_tiles boxes) p i j)
      as (s1 & bs & He & Hs & Hr1 & Hsh1 & Hd);
      try (assumption || (unfold height, width; congruence)).
    { apply Hge. exact P00. }
    pose proof (expand_inv_drawn puzzle s s1 boxes i j bs Hinv Hr1 Hsh1 Hd)
      as Hinv1.
    destruct (IH s1 (boxes ++ bs) Hv' Hinv1) as (s' & boxes' & He' & Hs' & Hinv').
    exists s', boxes'. cbn [foldM]. rewrite He, Hs, !bind_ret.
    split; [exact He'|]. split; [|exact Hinv'].
    rewrite <- Hs'. rewrite length_app, box_tiles_app.
    repeat f_equal; lia.
Qed.

End PointsLoop.

(** ** The interior of a binary puzzle *)

Lemma list_as_lookups (l : list Z) :
  l = (fun j => default 0 (l !! Z.to_nat j)) <$> seqZ 0 (Z.of_nat (length l)).
Proof.
  apply list_eq. intros k. rewrite list_lookup_fmap.
  destruct (decide (k < length l)%nat) as [Hlt|Hge].
  - rewrite lookup_seqZ_lt by lia. simpl. rewrite Z.add_0_l, Nat2Z.id.
    destruct (lookup_lt_is_Some_2 l k Hlt) as [x Hx]. rewrite Hx. reflexivity.
  - rewrite lookup_seqZ_ge by lia. simpl. apply lookup_ge_None. lia.
Qed.

Lemma rows_as_cells (a : array2) :
  rectangular a ->
  a = (fun i => (fun j => cell a i j) <$> range (shape1 a)) <$> range (shape0 a).
Proof.
  intros Hr. apply list_eq. intros k. rewrite list_lookup_fmap. unfold range.
  destruct (decide (k < length a)%nat) as [Hlt|Hge].
  - rewrite lookup_seqZ_lt by (unfold shape0; lia). simpl. rewrite Z.add_0_l.
    destruct (lookup_lt_is_Some_2 a k Hlt) as [row Hrow]. rewrite Hrow.
    f_equal. rewrite (list_as_lookups row) at 1.
    rewrite (rectangular_row a k row Hr Hrow).
    apply list_fmap_ext. intros n j Hj. apply lookup_seqZ in Hj.
    symmetry. apply cell_row; [lia | lia |]. rewrite Nat2Z.id. exact Hrow.
  - rewrite lookup_seqZ_ge by (unfold shape0; lia). simpl.
    apply lookup_ge_None. lia.
Qed.

Lemma concat_fmap_cprod {A B C} (f : A * B -> C) (l : list A) (k : list B) :
  concat ((fun x => (fun y => f (x, y)) <$> k) <$> l) = f <$> cprod l k.
Proof.
  induction l as [|x l IH]; [reflexivity|].
  rewrite fmap_cons, cprod_cons, fmap_app. cbn [concat]. rewrite IH.
  f_equal. rewrite <- list_fmap_compose. reflexivity.
Qed.

Lemma sum_binary (vs : list Z) :
  Forall (fun v => v = 0 \/ v = 1) vs ->
  foldr Z.add 0 vs = Z.of_nat (length (filter (fun v => v = 1) vs)).
Proof.
  induction 1 as [|v vs Hv _ IH]; [reflexivity|].
  cbn [foldr]. rewrite filter_cons, IH.
  destruct Hv as [->| ->].
  - rewrite decide_False by discriminate. lia.
  - rewrite decide_True by reflexivity. simpl. lia.
Qed.

Lemma length_filter_fmap {A B} (f : A -> B) (P : B -> Prop)
      `{!forall y, Decision (P y)} (l : list A) :
  length (filter P (f <$> l)) = length (filter (fun x => P (f x)) l).
Proof.
  induction l as [|x l IH]; [reflexivity|].
  rewrite fmap_cons, !filter_cons.
  destruct (decide (P (f x))); simpl; rewrite IH; reflexivity.
Qed.

(** On a 0/1 puzzle [puzzle.sum()] counts the interior cells. *)
Lemma np_sum_binary (puzzle : array2) :
  rectangular puzzle -> binary puzzle ->
  np_sum puzzle = Z.of_nat (length (free_cells puzzle)).
Proof.
  intros Hr Hb. unfold np_sum. rewrite sum_binary.
  - f_equal. rewrite (rows_as_cells puzzle Hr) at 1.
    rewrite (concat_fmap_cprod (fun rc => cell puzzle rc.1 rc.2)).
    rewrite length_filter_fmap. reflexivity.
  - apply Forall_concat. exact Hb.
Qed.

Lemma binary_cell (a : array2) r c :
  binary a -> cell a r c = 0 \/ cell a r c = 1.
Proof.
  intros Hb. unfold cell. destruct (get2 a r c) as [v| |] eqn:E; auto.
  apply get2_Ok in E. destruct E as (row & _ & Hrow & _ & Hv).
  unfold binary in Hb. rewrite Forall_forall in Hb.
  assert (Hrow' : row ∈ a) by (apply list_elem_of_lookup; eauto).
  specialize (Hb row Hrow'). rewrite Forall_forall in Hb.
  apply Hb. apply list_elem_of_lookup. eauto.
Qed.

(** ** Valid points *)

Section ValidPoints.
Import Utils Scoring.

Lemma get_valid_points_valid (puzzle : array2) (vps : list Z) :
  rectangular puzzle -> binary puzzle ->
  get_valid_points puzzle = Ok vps ->
  Forall (valid_point puzzle) vps.
Proof.
  intros Hr Hb. unfold get_valid_points.
  set (tb := fun i j => wrap8 (wrap8 (wrap8 (cell puzzle i j
                                             + cell puzzle i (j + 1))
                                      + cell puzzle (i + 1) j)
                               + cell puzzle (i + 1) (j + 1))).
  rewrite (foldM_append _
    (fun i => range (shape1 puzzle - 1) ≫= fun j =>
                if decide (tb i j = 4) then [(i, j)] else [])).
  2:{ intros acc i Hi. unfold range in Hi. apply elem_of_seqZ in Hi.
      apply foldM_append. intros acc' j Hj.
      unfold range in Hj. apply elem_of_seqZ in Hj.
      rewrite !Z.add_0_r.
      rewrite !get2_inb by (assumption || (unfold inb; lia)).
      rewrite !bind_ret. fold (tb i j).
      destruct (Z.eqb_spec (tb i j) 4).
      - rewrite decide_True by assumption. reflexivity.
      - rewrite decide_False by assumption. rewrite app_nil_r. reflexivity. }
  rewrite bind_ret. cbn [app].
  repeat change (map ?f ?l) with (f <$> l).
  set (points := range (shape0 puzzle - 1) ≫= _).
  destruct (decide (_ = points)) as [Hsplit|]; [|discriminate].
  destruct (decide (_ = _)); [|discriminate].
  intros E. inversion E; subst vps. clear E.
  apply Forall_lookup. intros k p Hk.
  rewrite list_lookup_fmap in Hk.
  destruct (points !! k) as [[i j]|] eqn:Hij; [|discriminate].
  simpl in Hk. inversion Hk as [Hpk]. rewrite Hpk.
  assert (Hsp : split_point p = (i, j)).
  { assert (H : (split_point <$> ((fun '(i, j) => wrap32 (Z.shiftl i 16 + j))
                                    <$> points)) !! k = Some (i, j))
      by (rewrite Hsplit; exact Hij).
    rewrite !list_lookup_fmap, Hij in H. simpl in H. rewrite Hpk in H.
    inversion H. reflexivity. }
  assert (Hel : (i, j) ∈ points) by (apply list_elem_of_lookup; eauto).
  unfold points in Hel. apply list_elem_of_bind in Hel.
  destruct Hel as (i' & Hel & Hi').
  apply list_elem_of_bind in Hel. destruct Hel as (j' & Hel & Hj').
  destruct (decide (tb i' j' = 4)) as [Htb|]; [|inversion Hel].
  apply list_elem_of_singleton in Hel. inversion Hel; subst i' j'.
  unfold range in Hi', Hj'. apply elem_of_seqZ in Hi', Hj'.
  unfold valid_point. rewrite Hsp.
  split; [lia|]. split; [lia|]. split; [lia|]. split; [lia|].
  unfold tb, wrap8 in Htb.
  destruct (binary_cell puzzle i j Hb) as [E1|E1];
    destruct (binary_cell puzzle i (j + 1) Hb) as [E2|E2];
    destruct (binary_cell puzzle (i + 1) j Hb) as [E3|E3];
    destruct (binary_cell puzzle (i + 1) (j + 1) Hb) as [E4|E4];
    rewrite E1, E2, E3, E4 in Htb; vm_compute in Htb;
    try discriminate; auto.
Qed.

End ValidPoints.

(** ** Expansion and score of a whole solution *)

Section Solutions.
Import Utils Scoring.

Lemma covers_to_square b r c : covers (to_square b) r c <-> box_covers b r c.
Proof. destruct b as [[y x] n]. reflexivity. Qed.

(** Both functions on a solution made of valid points. *)
Lemma solution_spec (puzzle scratch : array2) (puzzle_sum : Z)
      (solution : list Z) :
  rectangular puzzle -> rectangular scratch -> same_shape scratch puzzle ->
  Forall (valid_point puzzle) solution ->
  exists s' boxes,
    expand_solution puzzle solution
    = Ok (to_square <$> (boxes ++ ((fun rc => (rc.1, rc.2, 1)) <$> free_cells s')))
    /\ score_solution puzzle puzzle_sum scratch solution
       = Ok (Z.of_nat (length boxes) + (puzzle_sum - box_tiles boxes))
    /\ expand_inv puzzle s' boxes.
Proof.
  intros Hr Hrs Hsh Hv.
  destruct (points_loop puzzle solution puzzle [] Hv (expand_inv_init puzzle Hr))
    as (s' & boxes & He & Hs & Hinv).
  exists s', boxes. split; [|split; [|exact Hinv]].
  - unfold expand_solution. cbv zeta. rewrite He, bind_ret.
    pose proof Hinv as (Hr' & [S0 S1] & _).
    rewrite <- S0, <- S1. rewrite (sweep_spec s' boxes Hr'), bind_ret.
    reflexivity.
  - unfold score_solution. cbv zeta.
    rewrite (copy_2d_same_shape puzzle scratch Hr Hrs), bind_ret.
    2:{ destruct Hsh. split; congruence. }
    change (Z.of_nat (length (@nil (Z * Z * Z)))) with 0 in Hs.
    change (box_tiles []) with 0 in Hs.
    rewrite Hs, bind_ret. reflexivity.
Qed.

(** C1: for a rectangular 0/1 puzzle, a scratch grid of the same shape
    and a permutation of the puzzle's valid points, [score_solution]
    called with [puzzle.sum()] returns the number of squares that
    [expand_solution] returns. *)
Theorem score_solution_matches_expand_solution
        (puzzle scratch : array2) (valid_points solution : list Z) :
  rectangular puzzle -> binary puzzle ->
  rectangular scratch -> same_shape scratch puzzle ->
  get_valid_points puzzle = Ok valid_points ->
  solution ≡ₚ valid_points ->
  exists squares,
    expand_solution puzzle solution = Ok squares
    /\ score_solution puzzle (np_sum puzzle) scratch solution
       = Ok (Z.of_nat (length squares)).
Proof.
  intros Hr Hb Hrs Hsh Hvp Hperm.
  assert (Hv : Forall (valid_point puzzle) solution).
  { rewrite Hperm. apply get_valid_points_valid; assumption. }
  destruct (solution_spec puzzle scratch (np_sum puzzle) solution Hr Hrs Hsh Hv)
    as (s' & boxes & He & Hs & Hinv).
  eexists. split; [exact He|]. rewrite Hs. f_equal.
  destruct Hinv as (_ & _ & _ & _ & _ & _ & _ & Hcount).
  rewrite length_fmap, length_app, length_fmap.
  rewrite (np_sum_binary puzzle Hr Hb). lia.
Qed.

(** C2: for a rectangular 0/1 puzzle and a permutation of its valid
    points, the squares [expand_solution] returns are pairwise disjoint
    and a cell lies in one of them exactly when it is an interior cell
    of the puzzle. *)
Theorem expand_solution_tiles_interior
        (puzzle : array2) (valid_points solution : list Z) :
  rectangular puzzle -> binary puzzle ->
  get_valid_points puzzle = Ok valid_points ->
  solution ≡ₚ valid_points ->
  exists squares,
    expand_solution puzzle solution = Ok squares
    /\ pairwise_disjoint covers squares
    /\ forall r c, (exists q, q ∈ squares /\ covers q r c)
                   <-> cell puzzle r c = 1.
Proof.
  intros Hr Hb Hvp Hperm.
  assert (Hv : Forall (valid_point puzzle) solution).
  { rewrite Hperm. apply get_valid_points_valid; assumption. }
  destruct (solution_spec puzzle puzzle 0 solution Hr Hr
                          ltac:(split; reflexivity) Hv)
    as (s' & boxes & He & _ & Hinv).
  eexists. split; [exact He|].
  destruct Hinv as (Hr' & _ & _ & Hfree & Hcov & Hbox & Hdis & _).
  set (unit := fun rc : Z * Z => (rc.1, rc.2, 1)).
  assert (Hunit : forall rc r c, box_covers (unit rc) r c <-> rc = (r, c)).
  { intros [r0 c0] r c. unfold box_covers, unit, in_square. simpl.
    split; [intros ?; f_equal; lia | intros E; inversion E; lia]. }
  split.
  - intros k1 k2 q1 q2 H1 H2 Hne r c [C1 C2].
    rewrite list_lookup_fmap in H1, H2.
    destruct ((boxes ++ (unit <$> free_cells s')) !! k1) as [b1|] eqn:E1;
      [|discriminate].
    destruct ((boxes ++ (unit <$> free_cells s')) !! k2) as [b2|] eqn:E2;
      [|discriminate].
    simpl in H1, H2. inversion H1; inversion H2; subst q1 q2.
    apply covers_to_square in C1, C2.
    apply lookup_app_Some in E1, E2.
    destruct E1 as [E1|[L1 E1]]; destruct E2 as [E2|[L2 E2]].
    + apply (Hdis k1 k2 b1 b2 E1 E2 Hne r c). auto.
    + rewrite list_lookup_fmap in E2.
      destruct (free_cells s' !! (k2 - length boxes)%nat) as [rc|] eqn:F;
        [|discriminate].
      simpl in E2. inversion E2; subst b2. apply Hunit in C2. subst rc.
      assert (Hf : cell s' r c = 1).
      { apply elem_of_free_cells; [assumption|].
        apply list_elem_of_lookup. eauto. }
      destruct (Hfree r c Hf) as [_ Hnc]. rewrite Forall_forall in Hnc.
      apply (Hnc b1); [apply list_elem_of_lookup; eauto | exact C1].
    + rewrite list_lookup_fmap in E1.
      destruct (free_cells s' !! (k1 - length boxes)%nat) as [rc|] eqn:F;
        [|discriminate].
      simpl in E1. inversion E1; subst b1. apply Hunit in C1. subst rc.
      assert (Hf : cell s' r c = 1).
      { apply elem_of_free_cells; [assumption|].
        apply list_elem_of_lookup. eauto. }
      destruct (Hfree r c Hf) as [_ Hnc]. rewrite Forall_forall in Hnc.
      apply (Hnc b2); [apply list_elem_of_lookup; eauto | exact C2].
    + rewrite list_lookup_fmap in E1, E2.
      destruct (free_cells s' !! (k1 - length boxes)%nat) as [rc1|] eqn:F1;
        [|discriminate].
      destruct (free_cells s' !! (k2 - length boxes)%nat) as [rc2|] eqn:F2;
        [|discriminate].
      simpl in E1, E2. inversion E1; inversion E2; subst b1 b2.
      apply Hunit in C1, C2. subst rc1 rc2.
      pose proof (NoDup_lookup _ _ _ _ (NoDup_free_cells s') F1 F2). lia.
  - intros r c. split.
    + intros (q & Hq & Hc). apply list_elem_of_fmap in Hq.
      destruct Hq as (b & -> & Hb'). apply covers_to_square in Hc.
      apply elem_of_app in Hb'. destruct Hb' as [Hb'|Hb'].
      * exact (Hbox b r c Hb' Hc).
      * apply list_elem_of_fmap in Hb'. destruct Hb' as (rc & -> & Hrc).
        apply Hunit in Hc. subst rc.
        apply elem_of_free_cells in Hrc; [|assumption].
        exact (proj1 (Hfree r c Hrc)).
    + intros Hp. destruct (Hcov r c Hp) as [Hf|Hex].
      * exists (to_square (unit (r, c))). split.
        -- apply list_elem_of_fmap. exists (unit (r, c)). split; [reflexivity|].
           apply elem_of_app. right. apply list_elem_of_fmap.
           exists (r, c). split; [reflexivity|].
           apply elem_of_free_cells; assumption.
        -- apply covers_to_square. apply Hunit. reflexivity.
      * apply Exists_exists in Hex. destruct Hex as (b & Hb' & Hc).
        exists (to_square b). split.
        -- apply list_elem_of_fmap. exists b. split; [reflexivity|].
           apply elem_of_app. left. exact Hb'.
        -- apply covers_to_square. exact Hc.
Qed.

(** A point on the last column makes the unrolled test read outside the
    grid. *)
Lemma score_solution_invalid_point_raises :
  score_solution [[1; 1]; [1; 1]] 4 [[0; 0]; [0; 0]] [0x00000001]
  = Raise IndexError.
Proof. vm_compute. reflexivity. Qed.

(** C9: when every point of the solution is a valid point of the puzzle
    (and the scratch grid has the puzzle's shape), [score_solution]
    returns a score: none of its reads and writes of the scratch grid,
    each of which raises [IndexError] outside the grid, is out of
    bounds, the unchecked neighbour accesses included. *)
Theorem score_solution_stays_in_bounds
        (puzzle scratch : array2) (puzzle_sum : Z) (solution : list Z) :
  rectangular puzzle -> rectangular scratch -> same_shape scratch puzzle ->
  Forall (valid_point puzzle) solution ->
  exists score, score_solution puzzle puzzle_sum scratch solution = Ok score.
Proof.
  intros Hr Hrs Hsh Hv.
  destruct (solution_spec puzzle scratch puzzle_sum solution Hr Hrs Hsh Hv)
    as (s' & boxes & _ & Hs & _).
  eexists. exact Hs.
Qed.

(** C6: on the 4x4 all-interior puzzle the solution [(1,1), (0,0)]
    scores 8: the expander draws a 3x3 square at (1,1), nothing of side
    2 or more at (0,0), and seven 1x1 squares on the remaining cells. *)
Theorem score_4x4_point_1_1_then_0_0 (scratch : array2) :
  rectangular scratch -> same_shape scratch full4 ->
  score_solution full4 (np_sum full4) scratch [pt_1_1; pt_0_0] = Ok 8
  /\ expand_solution full4 [pt_1_1; pt_0_0]
     = Ok [ {| X := 1; Y := 1; Size := 3 |};
            {| X := 0; Y := 0; Size := 1 |};
            {| X := 1; Y := 0; Size := 1 |};
            {| X := 2; Y := 0; Size := 1 |};
            {| X := 3; Y := 0; Size := 1 |};
            {| X := 0; Y := 1; Size := 1 |};
            {| X := 0; Y := 2; Size := 1 |};
            {| X := 0; Y := 3; Size := 1 |} ].
Proof.
  intros Hrs Hsh. split; [|vm_compute; reflexivity].
  unfold score_solution. cbv zeta.
  rewrite (copy_2d_same_shape full4 scratch); try assumption.
  - vm_compute. reflexivity.
  - unfold full4. repeat constructor.
  - destruct Hsh. split; congruence.
Qed.

End Solutions.

(** ** Packed points *)

Lemma split_point_pack (i j : Z) :
  0 <= j < 2 ^ 16 -> Utils.split_point (Z.shiftl i 16 + j) = (i, j).
Proof.
  intros Hj. unfold Utils.split_point.
  rewrite Z.shiftl_mul_pow2, Z.shiftr_div_pow2 by lia.
  change 0xffff with (Z.ones 16). rewrite Z.land_ones by lia.
  f_equal.
  - rewrite Z.add_comm, Z.div_add by lia. rewrite Z.div_small by lia. lia.
  - rewrite Z.add_comm, Z.mod_add by lia. apply Z.mod_small. lia.
Qed.

Lemma pack_split_point (p : Z) :
  Z.shiftl (Utils.split_point p).1 16 + (Utils.split_point p).2 = p
  /\ 0 <= (Utils.split_point p).2 < 2 ^ 16.
Proof.
  unfold Utils.split_point. cbn [fst snd].
  rewrite Z.shiftl_mul_pow2, Z.shiftr_div_pow2 by lia.
  change 0xffff with (Z.ones 16). rewrite Z.land_ones by lia.
  split.
  - pose proof (Z.div_mod p (2 ^ 16)). lia.
  - apply Z.mod_pos_bound. lia.
Qed.

(** X1: packing and splitting are inverse to each other. *)
Theorem split_point_round_trip :
  (forall i j, 0 <= j < 2 ^ 16 ->
     Utils.split_point (Z.shiftl i 16 + j) = (i, j))
  /\ (forall p i j, Utils.split_point p = (i, j) ->
        Z.shiftl i 16 + j = p /\ 0 <= j < 2 ^ 16 /\ (0 <= p <-> 0 <= i)
        /\ (p < 2 ^ 32 <-> i < 2 ^ 16)).
Proof.
  split.
  - intros i j Hj. apply split_point_pack, Hj.
  - intros p i j Hs. pose proof (pack_split_point p) as [Hp Hr].
    rewrite Hs in Hp, Hr. cbn [fst snd] in Hp, Hr.
    rewrite Z.shiftl_mul_pow2 in Hp by lia.
    rewrite Z.shiftl_mul_pow2 by lia.
    repeat split; try lia.
Qed.

(** ** Copying a prefix *)

Lemma copy_1d_steps (src : list Z) : forall (n : nat) (dst : list Z),
  (n <= length src)%nat -> (n <= length dst)%nat ->
  foldM (fun dst i => v ← getitem src i; setitem dst i v)
        (seqZ 0 (Z.of_nat n)) dst
  = Ok (take n src ++ drop n dst).
Proof.
  induction n as [|n IH]; intros dst Hs Hd.
  - reflexivity.
  - rewrite Nat2Z.inj_succ, <- Z.add_1_r, seqZ_app by lia.
    rewrite foldM_app, IH by lia. rewrite bind_ret.
    destruct (lookup_lt_is_Some_2 src n) as [x Hx]; [lia|].
    destruct (lookup_lt_is_Some_2 dst n) as [y Hy]; [lia|].
    change (seqZ (0 + Z.of_nat n) 1) with [0 + Z.of_nat n].
    cbn [foldM].
    assert (Hg : getitem src (0 + Z.of_nat n) = Ok x).
    { apply getitem_Ok. split; [lia|]. rewrite Z.add_0_l, Nat2Z.id. exact Hx. }
    rewrite Hg, bind_ret.
    assert (Hlen : length (take n src) = n) by (rewrite length_take; lia).
    assert (Hset : setitem (take n src ++ drop n dst) (0 + Z.of_nat n) x
                   = Ok (take (S n) src ++ drop (S n) dst)).
    { apply setitem_Ok. split.
      - rewrite length_app, length_drop, Hlen. lia.
      - rewrite Z.add_0_l, Nat2Z.id.
        rewrite insert_app_r_alt by lia. rewrite Hlen, Nat.sub_diag.
        rewrite (drop_S dst y n Hy). cbn [insert list_insert].
        rewrite (take_S_r src n x Hx), <- app_assoc. reflexivity. }
    rewrite Hset. reflexivity.
Qed.

(** X2: [copy_1d] copies as many elements as [dst] holds, and reads
    [src] out of range when [src] is shorter than [dst]. *)
Theorem copy_1d_prefix_or_raise (src dst : list Z) :
  Utils.copy_1d src dst =
  if decide (length dst <= length src)%nat
  then Ok (take (length dst) src)
  else Raise IndexError.
Proof.
  unfold Utils.copy_1d, range. destruct (decide _) as [Hle|Hgt].
  - rewrite copy_1d_steps by lia. rewrite drop_all, app_nil_r. reflexivity.
  - replace (Z.of_nat (length dst))
      with (Z.of_nat (length src) + (Z.of_nat (length dst) - Z.of_nat (length src)))
      by lia.
    rewrite seqZ_app by lia. rewrite foldM_app, copy_1d_steps by lia.
    rewrite bind_ret. rewrite seqZ_cons by lia. cbn [foldM].
    assert (Hg : getitem src (0 + Z.of_nat (length src)) = Raise IndexError).
    { unfold getitem. rewrite decide_True by lia.
      rewrite Z.add_0_l, Nat2Z.id, lookup_ge_None_2 by lia. reflexivity. }
    rewrite Hg. reflexivity.
Qed.

(** ** Shifting one element *)

Section ShiftTo.
Variable a : list Z.
Variables src dst : Z.
Hypothesis Hsrc : 0 <= src < Z.of_nat (length a).
Hypothesis Hdst : 0 <= dst < Z.of_nat (length a).

Lemma shift_up_spec :
  src <= dst ->
  exists d,
    foldM (fun array i => v ← getitem array (i + 1); setitem array i v)
          (range2 src dst) a = Ok d
    /\ length d = length a
    /\ forall idx : nat,
         d !! idx = if decide (src <= Z.of_nat idx < dst)
                    then a !! S idx else a !! idx.
Proof.
  intros Hle. unfold range2.
  destruct (foldM_seqZ_inv
              (fun k d => length d = length a /\
                 forall idx : nat,
                   d !! idx = if decide (src <= Z.of_nat idx < k)
                              then a !! S idx else a !! idx)
              (fun array i => v ← getitem array (i + 1); setitem array i v)
              src (dst - src) a) as (d & Hf & Hlen & Hlk).
  - lia.
  - split; [reflexivity|]. intros idx. rewrite decide_False by lia.
    reflexivity.
  - intros k d Hk [Hlen Hlk].
    destruct (getitem_in_range d (k + 1)) as [v Hv]; [lia|].
    rewrite Hv, bind_ret. exists (<[Z.to_nat k := v]> d). split.
    + apply setitem_Ok. split; [lia | reflexivity].
    + split; [rewrite length_insert; exact Hlen|].
      intros idx. apply getitem_Ok in Hv. destruct Hv as [_ Hv].
      rewrite Hlk in Hv. rewrite decide_False in Hv by lia.
      destruct (decide (idx = Z.to_nat k)) as [->|Hne].
      * rewrite list_lookup_insert_eq by lia.
        rewrite decide_True by lia. rewrite <- Hv. f_equal. lia.
      * rewrite list_lookup_insert_ne by auto. rewrite Hlk.
        destruct (decide (src <= Z.of_nat idx < k)).
        -- rewrite decide_True by lia. reflexivity.
        -- rewrite decide_False by lia. reflexivity.
  - exists d. split; [exact Hf|]. split; [exact Hlen|].
    intros idx. rewrite Hlk.
    destruct (decide (src <= Z.of_nat idx < src + (dst - src))).
    + rewrite decide_True by lia. reflexivity.
    + rewrite decide_False by lia. reflexivity.
Qed.

Lemma shift_down_spec : forall fuel d i,
  dst <= i <= src ->
  (Z.to_nat (i - dst) < fuel)%nat ->
  length d = length a ->
  (forall idx : nat,
     d !! idx = if decide (i < Z.of_nat idx <= src)
                then a !! pred idx else a !! idx) ->
  exists d',
    Utils.shift_down fuel d i dst = Ok d'
    /\ length d' = length a
    /\ forall idx : nat,
         d' !! idx = if decide (dst < Z.of_nat idx <= src)
                     then a !! pred idx else a !! idx.
Proof.
  induction fuel as [|fuel IH]; intros d i Hi Hfuel Hlen Hlk; [lia|].
  cbn [Utils.shift_down].
  destruct (Z.gtb_spec i dst) as [Hgt|Hle].
  - destruct (getitem_in_range d (i - 1)) as [v Hv]; [lia|].
    rewrite Hv, bind_ret.
    assert (Hs : setitem d i v = Ok (<[Z.to_nat i := v]> d)).
    { apply setitem_Ok. split; [lia | reflexivity]. }
    rewrite Hs, bind_ret. apply IH.
    + lia.
    + lia.
    + rewrite length_insert. exact Hlen.
    + intros idx. apply getitem_Ok in Hv. destruct Hv as [_ Hv].
      rewrite Hlk in Hv. rewrite decide_False in Hv by lia.
      destruct (decide (idx = Z.to_nat i)) as [->|Hne].
      * rewrite list_lookup_insert_eq by lia.
        rewrite decide_True by lia. rewrite <- Hv. f_equal. lia.
      * rewrite list_lookup_insert_ne by auto. rewrite Hlk.
        destruct (decide (i < Z.of_nat idx <= src)).
        -- rewrite decide_True by lia. reflexivity.
        -- rewrite decide_False by lia. reflexivity.
  - exists d. split; [reflexivity|]. split; [exact Hlen|].
    intros idx. rewrite Hlk.
    destruct (decide (i < Z.of_nat idx <= src)).
    + rewrite decide_True by lia. reflexivity.
    + rewrite decide_False by lia. reflexivity.
Qed.

Lemma shift_to_spec :
  exists a',
    Utils.shift_to src dst a = Ok a'
    /\ length a' = length a
    /\ a' !! Z.to_nat dst = a !! Z.to_nat src
    /\ delete (Z.to_nat dst) a' = delete (Z.to_nat src) a.
Proof.
  unfold Utils.shift_to.
  destruct (getitem_in_range a src) as [val Hval]; [lia|].
  rewrite Hval, bind_ret. apply getitem_Ok in Hval. destruct Hval as [_ Hval].
  assert (Hmid : exists d,
             (if src <? dst
              then foldM (fun array i => v ← getitem array (i + 1);
                                         setitem array i v)
                         (range2 src dst) a
              else if dst <? src
                   then Utils.shift_down (S (Z.to_nat (src - dst))) a src dst
                   else Ok a) = Ok d
             /\ length d = length a
             /\ forall idx : nat, idx <> Z.to_nat dst ->
                  d !! idx = if decide (src <= Z.of_nat idx < dst)
                             then a !! S idx
                             else if decide (dst < Z.of_nat idx <= src)
                                  then a !! pred idx else a !! idx).
  { destruct (Z.ltb_spec src dst) as [Hlt|Hge].
    - destruct shift_up_spec as (d & Hf & Hlen & Hlk); [lia|].
      exists d. split; [exact Hf|]. split; [exact Hlen|].
      intros idx _. rewrite Hlk.
      destruct (decide (src <= Z.of_nat idx < dst)); [reflexivity|].
      rewrite decide_False by lia. reflexivity.
    - destruct (Z.ltb_spec dst src) as [Hlt|Hge'].
      + destruct (shift_down_spec (S (Z.to_nat (src - dst))) a src)
          as (d & Hf & Hlen & Hlk).
        * lia.
        * lia.
        * reflexivity.
        * intros idx. rewrite decide_False by lia. reflexivity.
        * exists d. split; [exact Hf|]. split; [exact Hlen|].
          intros idx _. rewrite Hlk.
          rewrite (decide_False (P := src <= Z.of_nat idx < dst)) by lia.
          reflexivity.
      + exists a. split; [reflexivity|]. split; [reflexivity|].
        intros idx _. rewrite !decide_False by lia. reflexivity. }
  destruct Hmid as (d & Hd & Hlen & Hlk). rewrite Hd, bind_ret.
  exists (<[Z.to_nat dst := val]> d). split.
  { apply setitem_Ok. split; [lia | reflexivity]. }
  split; [rewrite length_insert; exact Hlen|].
  split; [rewrite list_lookup_insert_eq by lia; symmetry; exact Hval|].
  apply list_eq. intros idx. rewrite !list_lookup_delete.
  destruct (decide (idx < Z.to_nat dst)%nat) as [H1|H1];
    destruct (decide (idx < Z.to_nat src)%nat) as [H2|H2].
  - rewrite list_lookup_insert_ne by lia. rewrite Hlk by lia.
    rewrite !decide_False by lia. reflexivity.
  - rewrite list_lookup_insert_ne by lia. rewrite Hlk by lia.
    rewrite decide_True by lia. reflexivity.
  - rewrite list_lookup_insert_ne by lia. rewrite Hlk by lia.
    rewrite decide_False by lia. rewrite decide_True by lia. reflexivity.
  - rewrite list_lookup_insert_ne by lia. rewrite Hlk by lia.
    rewrite !decide_False by lia. reflexivity.
Qed.

Lemma shift_to_perm a' : Utils.shift_to src dst a = Ok a' -> a' ≡ₚ a.
Proof.
  intros Hr. destruct shift_to_spec as (a'' & Hr' & Hlen & Hat & Hdel).
  rewrite Hr in Hr'. inversion Hr'. subst a''.
  destruct (lookup_lt_is_Some_2 a (Z.to_nat src)) as [x Hx]; [lia|].
  rewrite (delete_Permutation a (Z.to_nat src) x Hx).
  rewrite (delete_Permutation a' (Z.to_nat dst) x) by (rewrite Hat; exact Hx).
  rewrite Hdel. reflexivity.
Qed.
End ShiftTo.

(** X3: [shift_to] moves the element at [src_idx] to [dst_idx] and keeps
    the others in their order. *)
Theorem shift_to_moves_one (src_idx dst_idx : Z) (array : list Z) :
  0 <= src_idx < Z.of_nat (length array) ->
  0 <= dst_idx < Z.of_nat (length array) ->
  exists array',
    Utils.shift_to src_idx dst_idx array = Ok array'
    /\ array' !! Z.to_nat dst_idx = array !! Z.to_nat src_idx
    /\ delete (Z.to_nat dst_idx) array' = delete (Z.to_nat src_idx) array
    /\ array' ≡ₚ array.
Proof.
  intros Hs Hd.
  destruct (shift_to_spec array src_idx dst_idx Hs Hd)
    as (a' & Hr & Hlen & Hat & Hdel).
  exists a'. split; [exact Hr|]. split; [exact Hat|]. split; [exact Hdel|].
  exact (shift_to_perm array src_idx dst_idx Hs Hd a' Hr).
Qed.

Lemma shift_to_src_at_length (dst : Z) (a : list Z) :
  Utils.shift_to (Z.of_nat (length a)) dst a = Raise IndexError.
Proof.
  unfold Utils.shift_to, getitem. rewrite decide_True by lia.
  rewrite Nat2Z.id, lookup_ge_None_2 by lia. reflexivity.
Qed.

(** X4: the unoptimized mutation yields a permutation when both draws are
    indices of the solution. *)
Theorem mutate_permutes (solution : list Z) (shift_fwd_idx shift_back_idx : Z) :
  0 <= shift_fwd_idx < Z.of_nat (length solution) ->
  0 <= shift_back_idx < Z.of_nat (length solution) ->
  exists out,
    Gridea.mutate solution shift_fwd_idx shift_back_idx = Ok out
    /\ out ≡ₚ solution
    /\ exists mid,
         Utils.shift_to shift_fwd_idx 0 solution = Ok mid
         /\ mid !! 0%nat = solution !! Z.to_nat shift_fwd_idx
         /\ out !! (length solution - 1)%nat = mid !! Z.to_nat shift_back_idx.
Proof.
  intros Hf Hb. unfold Gridea.mutate.
  destruct (shift_to_spec solution shift_fwd_idx 0)
    as (mid & Hr & Hlen & Hat & Hdel); [lia|lia|].
  assert (H0 : 0 <= 0 < Z.of_nat (length solution)) by lia.
  pose proof (shift_to_perm solution shift_fwd_idx 0 Hf H0 mid Hr) as Hp1.
  rewrite Hr, bind_ret.
  destruct (shift_to_spec mid shift_back_idx (Z.of_nat (length mid) - 1))
    as (out & Hr2 & Hlen2 & Hat2 & Hdel2); [lia|lia|].
  assert (Hp2 : out ≡ₚ mid).
  { eapply (shift_to_perm mid shift_back_idx (Z.of_nat (length mid) - 1));
      [lia | lia | exact Hr2]. }
  exists out. split; [exact Hr2|]. split; [rewrite Hp2; exact Hp1|].
  exists mid. split; [reflexivity|]. split; [exact Hat|].
  rewrite <- Hat2. f_equal. lia.
Qed.

(** X5: a draw equal to the length, which [random.randint] allows, makes
    the unoptimized mutation index outside the solution. *)
Theorem mutate_draw_at_length_raises (solution : list Z) :
  (forall shift_back_idx,
     Gridea.mutate solution (Z.of_nat (length solution)) shift_back_idx
     = Raise IndexError)
  /\ (forall shift_fwd_idx,
        0 <= shift_fwd_idx < Z.of_nat (length solution) ->
        Gridea.mutate solution shift_fwd_idx (Z.of_nat (length solution))
        = Raise IndexError).
Proof.
  split.
  - intros b. unfold Gridea.mutate. rewrite shift_to_src_at_length. reflexivity.
  - intros f Hf. unfold Gridea.mutate.
    destruct (shift_to_spec solution f 0) as (mid & Hr & Hlen & _); [lia|lia|].
    rewrite Hr, bind_ret. rewrite <- Hlen. apply shift_to_src_at_length.
Qed.

(** ** Clearing a matrix *)

Lemma zero_fill_2d_spec (dst : array2) :
  rectangular dst ->
  exists d,
    Utils.zero_fill_2d dst = Ok d
    /\ rectangular d /\ same_shape d dst
    /\ forall r c, cell d r c = 0.
Proof.
  intros Hrect. unfold Utils.zero_fill_2d, range.
  destruct (foldM_seqZ_inv
              (fun i d => rectangular d /\ same_shape d dst /\
                 forall r c, inb d r c ->
                   cell d r c = if decide (r < i) then 0 else cell dst r c)
              (fun dst0 i =>
                 foldM (fun dst1 j => set2 dst1 i j 0)
                       (seqZ 0 (shape1 dst0)) dst0)
              0 (shape0 dst) dst) as (d & Hf & Hr & Hs & Hc).
  - unfold shape0. lia.
  - split; [exact Hrect|]. split; [split; reflexivity|].
    intros r c [Hr _]. rewrite decide_False by lia. reflexivity.
  - intros i d Hi (Hr & Hs & Hc).
    destruct (foldM_seqZ_inv
                (fun j d' => rectangular d' /\ same_shape d' dst /\
                   forall r c, inb d' r c ->
                     cell d' r c = if decide (r < i \/ (r = i /\ c < j))
                                   then 0 else cell dst r c)
                (fun dst1 j => set2 dst1 i j 0)
                0 (shape1 d) d) as (d' & Hf' & Hr' & Hs' & Hc').
    + unfold shape1. destruct d; simpl; lia.
    + split; [exact Hr|]. split; [exact Hs|].
      intros r c Hin. rewrite (Hc r c Hin). destruct Hin as [_ Hcb].
      destruct (decide (r < i)).
      * rewrite decide_True by lia. reflexivity.
      * rewrite decide_False by lia. reflexivity.
    + intros j d1 Hj (Hr1 & Hs1 & Hc1).
      assert (Hin : inb d1 i j).
      { destruct Hs as [Hs0 Hs1']. destruct Hs1 as [Hs10 Hs11].
        unfold inb. lia. }
      exists (upd d1 i j 0). split; [apply set2_inb; assumption|].
      split; [apply upd_rectangular; exact Hr1|].
      split.
      { destruct (upd_same_shape d1 i j 0) as [E0 E1].
        destruct Hs1 as [F0 F1]. split; congruence. }
      intros r c Hrc. rewrite upd_inb in Hrc.
      rewrite cell_upd by assumption.
      destruct (bool_decide_reflect (r = i /\ c = j)) as [[-> ->]|Hne].
      * rewrite decide_True by lia. reflexivity.
      * rewrite (Hc1 r c Hrc).
        destruct (decide (r < i \/ r = i /\ c < j)).
        -- rewrite decide_True by lia. reflexivity.
        -- rewrite decide_False by lia. reflexivity.
    + exists d'. split; [exact Hf'|]. split; [exact Hr'|]. split; [exact Hs'|].
      intros r c Hin. rewrite (Hc' r c Hin).
      assert (Hcb : 0 <= c < shape1 d).
      { destruct Hin as [_ Hcb]. destruct Hs as [_ E1]. destruct Hs' as [_ E1'].
        lia. }
      destruct (decide (r < i + 1)).
      * rewrite decide_True by lia. reflexivity.
      * rewrite decide_False by lia. reflexivity.
  - exists d. split; [exact Hf|]. split; [exact Hr|]. split; [exact Hs|].
    intros r c. destruct (decide (inb d r c)) as [Hin|Hout].
    + rewrite (Hc r c Hin). rewrite decide_True; [reflexivity|].
      destruct Hin as [Hin _]. destruct Hs as [E0 _]. lia.
    + apply cell_outside; assumption.
Qed.

(** X6: [zero_fill_2d] keeps the shape and leaves zero in every cell. *)
Theorem zero_fill_2d_zeroes (dst : array2) :
  rectangular dst ->
  exists d,
    Utils.zero_fill_2d dst = Ok d
    /\ same_shape d dst
    /\ Forall (Forall (fun v => v = 0)) d.
Proof.
  intros Hrect.
  destruct (zero_fill_2d_spec dst Hrect) as (d & Hf & Hr & Hs & Hc).
  exists d. split; [exact Hf|]. split; [exact Hs|].
  apply Forall_lookup. intros i row Hrow.
  apply Forall_lookup. intros j v Hv.
  specialize (Hc (Z.of_nat i) (Z.of_nat j)).
  rewrite (cell_row d _ _ row) in Hc; [|lia|lia|rewrite Nat2Z.id; exact Hrow].
  rewrite Nat2Z.id, Hv in Hc. exact Hc.
Qed.

(** ** The generator's state *)

Lemma wrap32_land x : wrap32 x = Z.land x (Z.ones 32).
Proof. unfold wrap32. rewrite Z.land_ones by lia. reflexivity. Qed.

Lemma wrap32_range x : 0 <= wrap32 x < 2 ^ 32.
Proof. unfold wrap32. apply Z.mod_pos_bound. lia. Qed.

Lemma wrap32_small x : 0 <= x < 2 ^ 32 -> wrap32 x = x.
Proof. intros H. unfold wrap32. apply Z.mod_small. exact H. Qed.

Lemma wrap32_lxor a b : wrap32 (Z.lxor a b) = Z.lxor (wrap32 a) (wrap32 b).
Proof.
  rewrite !wrap32_land. apply Z.bits_inj'. intros n Hn.
  rewrite !Z.lxor_spec, !Z.land_spec, !Z.lxor_spec.
  destruct (Z.testbit a n), (Z.testbit b n), (Z.testbit (Z.ones 32) n);
    reflexivity.
Qed.

Lemma lxor_range a b :
  0 <= a < 2 ^ 32 -> 0 <= b < 2 ^ 32 -> 0 <= Z.lxor a b < 2 ^ 32.
Proof.
  intros Ha Hb. rewrite <- (wrap32_small a), <- (wrap32_small b) by assumption.
  rewrite <- wrap32_lxor. apply wrap32_range.
Qed.

Lemma shiftr_range a n : 0 <= n -> 0 <= a < 2 ^ 32 -> 0 <= Z.shiftr a n < 2 ^ 32.
Proof.
  intros Hn Ha. rewrite Z.shiftr_div_pow2 by lia. split.
  - apply Z.div_pos; lia.
  - assert (H1 : 0 < 2 ^ n) by (apply Z.pow_pos_nonneg; lia).
    apply Z.le_lt_trans with a; [|lia].
    apply Z.div_le_upper_bound; [lia|]. nia.
Qed.

(** [t ^ (t >> 8)] determines [t]. *)
Lemma lxor_shiftr_inj t t' :
  0 <= t -> 0 <= t' ->
  Z.lxor t (Z.shiftr t 8) = Z.lxor t' (Z.shiftr t' 8) -> t = t'.
Proof.
  intros Ht Ht' H. apply Z.lxor_eq.
  set (d := Z.lxor t t').
  assert (Hd : 0 <= d) by (apply Z.lxor_nonneg; lia).
  assert (Hx : Z.lxor d (Z.shiftr d 8) = 0).
  { unfold d. rewrite Z.shiftr_lxor.
    transitivity (Z.lxor (Z.lxor t (Z.shiftr t 8)) (Z.lxor t' (Z.shiftr t' 8))).
    - apply Z.bits_inj'. intros n Hn. rewrite !Z.lxor_spec.
      destruct (Z.testbit t n), (Z.testbit t' n),
        (Z.testbit (Z.shiftr t 8) n), (Z.testbit (Z.shiftr t' 8) n);
        reflexivity.
    - rewrite H. apply Z.lxor_nilpotent. }
  apply Z.lxor_eq in Hx. rewrite Z.shiftr_div_pow2 in Hx by lia.
  change (2 ^ 8) with 256 in Hx.
  pose proof (Z.div_mod d 256 ltac:(lia)).
  pose proof (Z.mod_pos_bound d 256 ltac:(lia)). lia.
Qed.

(** [s ^ (s << 11)], taken in 32 bits, determines the 32-bit word [s]. *)
Lemma lxor_shiftl_inj s s' :
  0 <= s < 2 ^ 32 -> 0 <= s' < 2 ^ 32 ->
  Z.lxor s (wrap32 (Z.shiftl s 11)) = Z.lxor s' (wrap32 (Z.shiftl s' 11)) ->
  s = s'.
Proof.
  intros Hs Hs' H. apply Z.lxor_eq.
  set (e := Z.lxor s s').
  assert (He : 0 <= e < 2 ^ 32) by (apply lxor_range; assumption).
  assert (Hx : Z.lxor e (wrap32 (Z.shiftl e 11)) = 0).
  { unfold e. rewrite Z.shiftl_lxor, wrap32_lxor.
    transitivity (Z.lxor (Z.lxor s (wrap32 (Z.shiftl s 11)))
                         (Z.lxor s' (wrap32 (Z.shiftl s' 11)))).
    - apply Z.bits_inj'. intros n Hn. rewrite !Z.lxor_spec.
      destruct (Z.testbit s n), (Z.testbit s' n),
        (Z.testbit (wrap32 (Z.shiftl s 11)) n),
        (Z.testbit (wrap32 (Z.shiftl s' 11)) n); reflexivity.
    - rewrite H. apply Z.lxor_nilpotent. }
  apply Z.lxor_eq in Hx. unfold wrap32 in Hx.
  rewrite Z.shiftl_mul_pow2 in Hx by lia.
  assert (Hdiv : (2 ^ 32 | 2047 * e)).
  { exists ((e * 2 ^ 11) / 2 ^ 32).
    pose proof (Z.div_mod (e * 2 ^ 11) (2 ^ 32) ltac:(lia)).
    change (2 ^ 11) with 2048 in *. lia. }
  apply Z.gauss in Hdiv; [|reflexivity].
  destruct Hdiv as [q Hq]. lia.
Qed.

Lemma xorshift_words32 rs :
  words32 rs ->
  words32 (Utils.xorshift rs).2 /\ 0 <= (Utils.xorshift rs).1 < 2 ^ 32.
Proof.
  intros (H0 & H1 & H2 & H3). unfold Utils.xorshift, words32. cbn.
  pose proof (wrap32_range
    (Z.lxor (Z.lxor (Z.lxor (Utils.s3 rs) (Z.shiftr (Utils.s3 rs) 19))
                     (Z.lxor (Utils.s0 rs) (wrap32 (Z.shiftl (Utils.s0 rs) 11))))
            (Z.shiftr (Z.lxor (Utils.s0 rs)
                              (wrap32 (Z.shiftl (Utils.s0 rs) 11))) 8))).
  repeat split; lia.
Qed.

Lemma xorshift_state_inj rs rs' :
  words32 rs -> words32 rs' ->
  (Utils.xorshift rs).2 = (Utils.xorshift rs').2 -> rs = rs'.
Proof.
  intros (H0 & H1 & H2 & H3) (H0' & H1' & H2' & H3') Heq.
  destruct rs as [a b c d], rs' as [a' b' c' d'].
  unfold Utils.xorshift in Heq. cbn in *.
  inversion Heq as [[Eb Ec Ed Ew]]. subst b' c' d'. clear Heq.
  set (t := Z.lxor a (wrap32 (Z.shiftl a 11))) in *.
  set (t' := Z.lxor a' (wrap32 (Z.shiftl a' 11))) in *.
  assert (Ht : 0 <= t < 2 ^ 32)
    by (apply lxor_range; [assumption | apply wrap32_range]).
  assert (Ht' : 0 <= t' < 2 ^ 32)
    by (apply lxor_range; [assumption | apply wrap32_range]).
  assert (Hd : 0 <= Z.lxor d (Z.shiftr d 19) < 2 ^ 32).
  { apply lxor_range; [assumption | apply shiftr_range; lia]. }
  rewrite !wrap32_small in Ew.
  2:{ apply lxor_range; [apply lxor_range; assumption
                        | apply shiftr_range; lia]. }
  2:{ apply lxor_range; [apply lxor_range; assumption
                        | apply shiftr_range; lia]. }
  assert (Hu : Z.lxor t (Z.shiftr t 8) = Z.lxor t' (Z.shiftr t' 8)).
  { apply Z.lxor_eq.
    transitivity
      (Z.lxor (Z.lxor (Z.lxor (Z.lxor d (Z.shiftr d 19)) t) (Z.shiftr t 8))
              (Z.lxor (Z.lxor (Z.lxor d (Z.shiftr d 19)) t') (Z.shiftr t' 8))).
    - apply Z.bits_inj'. intros n Hn. rewrite !Z.lxor_spec.
      destruct (Z.testbit d n), (Z.testbit (Z.shiftr d 19) n),
        (Z.testbit t n), (Z.testbit t' n),
        (Z.testbit (Z.shiftr t 8) n), (Z.testbit (Z.shiftr t' 8) n);
        reflexivity.
    - rewrite Ew. apply Z.lxor_nilpotent. }
  apply lxor_shiftr_inj in Hu; [|lia|lia].
  apply lxor_shiftl_inj in Hu; [|assumption|assumption].
  subst a'. reflexivity.
Qed.

(** X7: distinct 32-bit states have distinct successors, and the
    successor is again a 32-bit state. *)
Theorem xorshift_state_injective (rs rs' : Utils.random_state) :
  words32 rs -> words32 rs' ->
  words32 (Utils.xorshift rs).2
  /\ 0 <= (Utils.xorshift rs).1 < 2 ^ 32
  /\ ((Utils.xorshift rs).2 = (Utils.xorshift rs').2 -> rs = rs').
Proof.
  intros H H'. destruct (xorshift_words32 rs H) as [Hw Hr].
  split; [exact Hw|]. split; [exact Hr|].
  apply xorshift_state_inj; assumption.
Qed.

(** X8: the all-zero state is a fixed point that only draws zeros, and no
    other 32-bit state ever reaches it. *)
Theorem xorshift_zero_state_unreachable (rs : Utils.random_state) (n : nat) :
  words32 rs ->
  Utils.xorshift (Utils.RandomState 0 0 0 0) = (0, Utils.RandomState 0 0 0 0)
  /\ (rs <> Utils.RandomState 0 0 0 0 ->
      xorshift_iter n rs <> Utils.RandomState 0 0 0 0).
Proof.
  intros Hw. split; [reflexivity|].
  revert rs Hw. induction n as [|n IH]; intros rs Hw Hne.
  - exact Hne.
  - cbn [xorshift_iter]. apply IH.
    + apply xorshift_words32, Hw.
    + intros Hz. apply Hne.
      apply xorshift_state_inj.
      * exact Hw.
      * unfold words32. cbn. lia.
      * rewrite Hz. reflexivity.
Qed.

(** ** The register after a reset *)

Section RegisterMinimum.
Import Network.
Variable pid : option string.

Lemma run_updates_cons g c calls :
  run_updates g (c :: calls)
  = run_updates (let '(p, sc, sol, now) := c in (update g p sc sol now).2)
                calls.
Proof. destruct c as [[[p sc] sol] now]. reflexivity. Qed.

Lemma update_true_fields g p sc sol now :
  (update g p sc sol now).1 = true ->
  score (update g p sc sol now).2 = Some sc
  /\ solution (update g p sc sol now).2 = Some sol.
Proof.
  unfold update. destruct (negb _); [discriminate|].
  destruct (match score g with Some c => sc <? c | None => true end);
    [split; reflexivity | discriminate].
Qed.

Lemma run_updates_minimum : forall calls g,
  puzzle_id g = pid ->
  let g' := run_updates g calls in
  (forall s, score g = Some s -> exists s', score g' = Some s' /\ s' <= s)
  /\ (forall sc sol now, (pid, sc, sol, now) ∈ calls ->
        exists s', score g' = Some s' /\ s' <= sc)
  /\ ((score g' = score g /\ solution g' = solution g)
      \/ exists sc sol now, (pid, sc, sol, now) ∈ calls
           /\ score g' = Some sc /\ solution g' = Some sol).
Proof.
  induction calls as [|c calls IH]; intros g Hg; cbn zeta.
  - split; [intros s Hs; exists s; split; [exact Hs | lia]|].
    split; [intros sc sol now Hin; inversion Hin|].
    left. split; reflexivity.
  - rewrite run_updates_cons. destruct c as [[[p sc] sol] now].
    set (g1 := (update g p sc sol now).2).
    assert (Hg1 : puzzle_id g1 = pid).
    { unfold g1, update. destruct (negb _); [exact Hg|].
      destruct (match score g with Some _ => _ | None => _ end); exact Hg. }
    destruct (IH g1 Hg1) as (Hmono & Hall & Hwho). fold g1.
    set (g' := run_updates g1 calls) in *.
    assert (Hstep : forall s, score g = Some s ->
              exists s1, score g1 = Some s1 /\ s1 <= s).
    { intros s Hs. apply update_score_step. exact Hs. }
    split; [|split].
    + intros s Hs. destruct (Hstep s Hs) as (s1 & Hs1 & Hle).
      destruct (Hmono s1 Hs1) as (s' & Hs' & Hle'). exists s'. split; [exact Hs'|lia].
    + intros sc0 sol0 now0 Hin. apply elem_of_cons in Hin.
      destruct Hin as [Heq|Hin]; [|eapply Hall; exact Hin].
      inversion Heq. subst p sc0 sol0 now0.
      assert (H1 : exists s1, score g1 = Some s1 /\ s1 <= sc).
      { unfold g1, update. rewrite Hg.
        rewrite bool_decide_eq_true_2 by reflexivity. cbn [negb].
        destruct (score g) as [cur|] eqn:Hsc.
        - destruct (Z.ltb_spec sc cur).
          + cbn. exists sc. split; [reflexivity|lia].
          + cbn. exists cur. split; [exact Hsc|lia].
        - cbn. exists sc. split; [reflexivity|lia]. }
      destruct H1 as (s1 & Hs1 & Hle).
      destruct (Hmono s1 Hs1) as (s' & Hs' & Hle'). exists s'. split; [exact Hs'|lia].
    + destruct Hwho as [[Hsc Hsol]|(sc0 & sol0 & now0 & Hin & Hsc & Hsol)].
      * destruct ((update g p sc sol now).1) eqn:Ht.
        -- right. exists sc, sol, now.
           pose proof Ht as Ht'. apply update_true_iff in Ht'.
           destruct Ht' as [Hp _]. rewrite Hg in Hp. subst p.
           destruct (update_true_fields g pid sc sol now Ht) as [E1 E2].
           split; [apply elem_of_cons; left; reflexivity|].
           fold g1 in E1, E2. rewrite Hsc, Hsol, E1, E2. split; reflexivity.
        -- left.
           apply update_false_unchanged in Ht. fold g1 in Ht.
           rewrite Hsc, Hsol, Ht. split; reflexivity.
      * right. exists sc0, sol0, now0.
        split; [apply elem_of_cons; right; exact Hin|]. split; assumption.
Qed.
End RegisterMinimum.

(** X9: after a reset the register holds a reported solution of least
    score among the reports for the puzzle, and nothing if there was
    none. *)
Theorem GlobalBest_holds_minimum_after_reset
        (cls : Network.GlobalBest) (pid : option string) (now : Q)
        (calls : list (option string * Z * list Z * Q)) :
  let g := run_updates (Network.reset cls pid now) calls in
  Network.puzzle_id g = pid
  /\ (forall sc sol t, (pid, sc, sol, t) ∈ calls ->
        exists s, Network.score g = Some s /\ s <= sc)
  /\ ((Network.score g = None /\ Network.solution g = None
       /\ forall sc sol t, (pid, sc, sol, t) ∉ calls)
      \/ exists sc sol t, (pid, sc, sol, t) ∈ calls
           /\ Network.score g = Some sc /\ Network.solution g = Some sol).
Proof.
  cbn zeta.
  destruct (run_updates_minimum pid calls (Network.reset cls pid now)
              ltac:(reflexivity)) as (_ & Hall & Hwho).
  split; [rewrite run_updates_puzzle_id; reflexivity|].
  split; [exact Hall|].
  destruct Hwho as [[Hsc Hsol]|Hex]; [left|right; exact Hex].
  cbn in Hsc, Hsol. split; [exact Hsc|]. split; [exact Hsol|].
  intros sc sol t Hin. destruct (Hall sc sol t Hin) as (s & Hs & _).
  rewrite Hsc in Hs. discriminate.
Qed.

(** ** Enumerating the valid points *)

Lemma filter_app_none {A} (P : A -> Prop) `{!forall x, Decision (P x)}
      (l1 l2 : list A) :
  (forall x, x ∈ l2 -> ~ P x) -> filter P (l1 ++ l2) = filter P l1.
Proof.
  intros Hnone. rewrite filter_app.
  replace (filter P l2) with (@nil A); [apply app_nil_r|].
  symmetry. induction l2 as [|x l2 IH]; [reflexivity|].
  rewrite filter_cons_False by (apply Hnone; left).
  apply IH. intros y Hy. apply Hnone. right. exact Hy.
Qed.

Lemma cprod_app_l {A B} (l1 l2 : list A) (k : list B) :
  cprod (l1 ++ l2) k = cprod l1 k ++ cprod l2 k.
Proof.
  induction l1 as [|x l1 IH]; [reflexivity|].
  rewrite <- app_comm_cons, !cprod_cons, IH, app_assoc. reflexivity.
Qed.

Lemma filter_cprod_snoc_r {A B} (P : A * B -> Prop)
      `{!forall x, Decision (P x)} (l : list A) (k : list B) (y : B) :
  (forall x, ~ P (x, y)) ->
  filter P (cprod l (k ++ [y])) = filter P (cprod l k).
Proof.
  intros Hnone. induction l as [|x l IH]; [reflexivity|].
  rewrite !cprod_cons, !filter_app, IH. f_equal.
  rewrite fmap_app, filter_app. cbn [fmap list_fmap].
  rewrite (filter_cons_False _ _ _ (Hnone x)). apply app_nil_r.
Qed.

Lemma range_snoc n : 0 < n -> range n = range (n - 1) ++ [n - 1].
Proof.
  intros Hn. unfold range.
  replace n with ((n - 1) + 1) at 1 by lia.
  rewrite seqZ_app by lia. reflexivity.
Qed.

Lemma block_free_inb puzzle i j :
  rectangular puzzle -> block_free puzzle (i, j) ->
  i + 1 < shape0 puzzle /\ j + 1 < shape1 puzzle.
Proof.
  intros Hr (_ & _ & _ & H).  cbn [fst snd] in H.
  destruct (decide (inb puzzle (i + 1) (j + 1))) as [[? ?]|Hout]; [lia|].
  rewrite cell_outside in H by assumption. discriminate.
Qed.

(** Scanning one more row and one more column finds no further block. *)
Lemma anchors_full_range (puzzle : array2) :
  rectangular puzzle ->
  filter (block_free puzzle)
         (cprod (range (shape0 puzzle)) (range (shape1 puzzle)))
  = anchors puzzle.
Proof.
  intros Hr. unfold anchors.
  assert (H0 : 0 <= shape0 puzzle) by (unfold shape0; lia).
  assert (H1 : 0 <= shape1 puzzle)
    by (unfold shape1; destruct puzzle; simpl; lia).
  destruct (decide (shape1 puzzle = 0)) as [E1|N1].
  { rewrite E1. unfold range. cbn [seqZ].
    replace (seqZ 0 0) with (@nil Z) by reflexivity.
    replace (seqZ 0 (0 - 1)) with (@nil Z) by reflexivity.
    assert (Hnil : forall l : list Z, cprod l (@nil Z) = []).
    { induction l as [|x l IH]; [reflexivity|]. rewrite cprod_cons, IH.
      reflexivity. }
    rewrite !Hnil. reflexivity. }
  rewrite (range_snoc (shape1 puzzle)) by lia.
  rewrite filter_cprod_snoc_r.
  2:{ intros x Hx. apply block_free_inb in Hx; [|assumption]. lia. }
  destruct (decide (shape0 puzzle = 0)) as [E0|N0].
  { rewrite E0. reflexivity. }
  rewrite (range_snoc (shape0 puzzle)) by lia.
  rewrite cprod_app_l. apply filter_app_none.
  intros [x y] Hin Hx. apply list_elem_of_cprod in Hin. destruct Hin as [Hin _].
  cbn [fst] in Hin. apply list_elem_of_singleton in Hin. subst x.
  apply block_free_inb in Hx; [|assumption]. lia.
Qed.

Lemma elem_of_anchors puzzle i j :
  rectangular puzzle ->
  (i, j) ∈ anchors puzzle <->
  0 <= i /\ 0 <= j /\ block_free puzzle (i, j).
Proof.
  intros Hr. unfold anchors. rewrite list_elem_of_filter, list_elem_of_cprod.
  cbn [fst snd]. unfold range. rewrite !elem_of_seqZ. split.
  - intros (Hb & Hi & Hj). repeat split; (lia || apply Hb).
  - intros (Hi & Hj & Hb). pose proof (block_free_inb puzzle i j Hr Hb).
    split; [exact Hb|]. lia.
Qed.

Lemma NoDup_anchors puzzle : NoDup (anchors puzzle).
Proof.
  unfold anchors. apply NoDup_filter, NoDup_cprod; apply NoDup_seqZ.
Qed.

Lemma valid_point_anchor puzzle p :
  rectangular puzzle ->
  valid_point puzzle p <-> Utils.split_point p ∈ anchors puzzle.
Proof.
  intros Hr. unfold valid_point.
  destruct (Utils.split_point p) as [i j] eqn:Hs.
  rewrite elem_of_anchors by assumption. unfold block_free. cbn [fst snd].
  split.
  - intros (Hi & Hj & _ & _ & H). tauto.
  - intros (Hi & Hj & H).
    pose proof (block_free_inb puzzle i j Hr H) as [? ?].
    unfold block_free in H. cbn [fst snd] in H. tauto.
Qed.

Lemma remove_dups_NoDup {A} `{EqDecision A} (l : list A) :
  NoDup l -> remove_dups l = l.
Proof.
  induction 1 as [|x l Hx Hl IH]; [reflexivity|].
  cbn [remove_dups]. destruct (decide_rel elem_of x l); [contradiction|].
  rewrite IH. reflexivity.
Qed.

Section Enumerate.
Import Utils Scoring.
Variable puzzle : array2.
Hypothesis Hrect : rectangular puzzle.

Lemma anchors_in_range i j :
  (i, j) ∈ anchors puzzle ->
  0 <= i /\ i + 1 < shape0 puzzle /\ 0 <= j /\ j + 1 < shape1 puzzle.
Proof.
  intros H. apply elem_of_anchors in H; [|assumption].
  destruct H as (Hi & Hj & Hb).
  pose proof (block_free_inb puzzle i j Hrect Hb). lia.
Qed.

Lemma get_valid_points_anchors :
  binary puzzle ->
  shape0 puzzle <= 2 ^ 16 -> shape1 puzzle <= 2 ^ 16 ->
  get_valid_points puzzle = Ok (pack <$> anchors puzzle).
Proof.
  intros Hb H0 H1. unfold get_valid_points.
  set (tb := fun i j => wrap8 (wrap8 (wrap8 (cell puzzle i j
                                             + cell puzzle i (j + 1))
                                      + cell puzzle (i + 1) j)
                               + cell puzzle (i + 1) (j + 1))).
  rewrite (foldM_append _
    (fun i => range (shape1 puzzle - 1) ≫= fun j =>
                if decide (tb i j = 4) then [(i, j)] else [])).
  2:{ intros acc i Hi. unfold range in Hi. apply elem_of_seqZ in Hi.
      apply foldM_append. intros acc' j Hj.
      unfold range in Hj. apply elem_of_seqZ in Hj.
      rewrite !Z.add_0_r.
      rewrite !get2_inb by (assumption || (unfold inb; lia)).
      rewrite !bind_ret. fold (tb i j).
      destruct (Z.eqb_spec (tb i j) 4).
      - rewrite decide_True by assumption. reflexivity.
      - rewrite decide_False by assumption. rewrite app_nil_r. reflexivity. }
  rewrite bind_ret. cbn [app].
  repeat change (map ?f ?l) with (f <$> l).
  assert (Hpts : (range (shape0 puzzle - 1) ≫= fun i =>
                    range (shape1 puzzle - 1) ≫= fun j =>
                      if decide (tb i j = 4) then [(i, j)] else [])
                 = anchors puzzle).
  { unfold anchors.
    rewrite <- (list_fmap_id (filter _ _)).
    rewrite <- (bind_filter_fmap (block_free puzzle) id).
    etransitivity;
      [exact (bind_cprod (fun rc => if decide (tb rc.1 rc.2 = 4)
                                    then [(rc.1, rc.2)] else []) _ _)|].
    apply list_bind_ext; [|reflexivity]. intros [i j]. cbn [fst snd id].
    assert (Hiff : tb i j = 4 <-> block_free puzzle (i, j)).
    { unfold block_free, tb, wrap8. cbn [fst snd].
      destruct (binary_cell puzzle i j Hb) as [E1|E1];
        destruct (binary_cell puzzle i (j + 1) Hb) as [E2|E2];
        destruct (binary_cell puzzle (i + 1) j Hb) as [E3|E3];
        destruct (binary_cell puzzle (i + 1) (j + 1) Hb) as [E4|E4];
        rewrite E1, E2, E3, E4; vm_compute; split;
        intros H; try discriminate; try reflexivity;
        try (destruct H as (? & ? & ? & ?); discriminate);
        repeat split. }
    destruct (decide (tb i j = 4)) as [D|D].
    - rewrite decide_True by (apply Hiff; exact D). reflexivity.
    - rewrite decide_False by (rewrite <- Hiff; exact D). reflexivity. }
  rewrite Hpts.
  assert (Hw : (fun '(i, j) => wrap32 (Z.shiftl i 16 + j)) <$> anchors puzzle
               = pack <$> anchors puzzle).
  { apply list_fmap_ext. intros k [i j] Hk.
    assert (Hin : (i, j) ∈ anchors puzzle)
      by (apply list_elem_of_lookup; eauto).
    apply anchors_in_range in Hin. unfold pack, wrap32. cbn [fst snd].
    apply Z.mod_small. rewrite Z.shiftl_mul_pow2 by lia.
    change (2 ^ 32) with (2 ^ 16 * 2 ^ 16). nia. }
  rewrite Hw.
  assert (Hsplit : split_point <$> (pack <$> anchors puzzle)
                   = anchors puzzle).
  { rewrite <- list_fmap_compose. rewrite <- (list_fmap_id (anchors puzzle)) at 2.
    apply list_fmap_ext. intros k [i j] Hk.
    assert (Hin : (i, j) ∈ anchors puzzle)
      by (apply list_elem_of_lookup; eauto).
    apply anchors_in_range in Hin. cbn. unfold pack. cbn [fst snd].
    apply split_point_pack. lia. }
  rewrite decide_True by exact Hsplit.
  assert (Hnd : NoDup (pack <$> anchors puzzle)).
  { apply (NoDup_fmap_1 split_point). rewrite Hsplit. apply NoDup_anchors. }
  rewrite decide_True; [reflexivity|].
  rewrite remove_dups_NoDup by exact Hnd. rewrite !length_fmap. reflexivity.
Qed.

Lemma elem_of_pack_anchors p :
  shape1 puzzle <= 2 ^ 16 ->
  p ∈ pack <$> anchors puzzle <-> valid_point puzzle p.
Proof.
  intros H1.
  rewrite valid_point_anchor by assumption. rewrite list_elem_of_fmap. split.
  - intros ([i j] & -> & Hin).
    pose proof (anchors_in_range i j Hin).
    unfold pack. cbn [fst snd]. rewrite split_point_pack; [exact Hin|lia].
  - intros Hin. exists (split_point p). split; [|exact Hin].
    unfold pack. symmetry. apply pack_split_point.
Qed.
End Enumerate.

(** X10: on a binary grid whose sides fit 16 bits [get_valid_points]
    passes its assertions and returns, without repetition and row by row,
    the packed corners of the interior 2x2 blocks. *)
Theorem get_valid_points_enumerates (puzzle : array2) :
  rectangular puzzle -> binary puzzle ->
  shape0 puzzle <= 2 ^ 16 -> shape1 puzzle <= 2 ^ 16 ->
  exists vps,
    Scoring.get_valid_points puzzle = Ok vps
    /\ vps = pack <$> anchors puzzle
    /\ NoDup vps
    /\ forall p, p ∈ vps <-> valid_point puzzle p.
Proof.
  intros Hr Hb H0 H1. exists (pack <$> anchors puzzle).
  split; [apply get_valid_points_anchors; assumption|].
  split; [reflexivity|]. split.
  - apply NoDup_fmap_2_strong; [|apply NoDup_anchors].
    intros [i j] [i' j'] Hin Hin' Heq.
    apply anchors_in_range in Hin, Hin'; try assumption.
    unfold pack in Heq. cbn [fst snd] in Heq.
    rewrite <- (split_point_pack i j), <- (split_point_pack i' j') by lia.
    rewrite Heq. reflexivity.
  - intros p. apply elem_of_pack_anchors; assumption.
Qed.

(** ** The largest square at a point *)

Section MaxSize.
Import Scoring.
Variables (s : array2) (i j : Z).
Hypothesis Hrect : rectangular s.
Hypothesis Hi : 0 <= i.
Hypothesis Hj : 0 <= j.

Lemma ring_clear_false n :
  0 <= n ->
  ring_clear s i j n = false ->
  ~ (forall r c, in_square i j (n + 1) r c -> cell s r c = 1).
Proof.
  intros Hn Hclear Hall.
  assert (Ht : ring_clear s i j n = true); [|congruence].
  unfold ring_clear. apply forallb_forall. intros k Hk.
  apply list_elem_of_In in Hk. unfold range in Hk. apply elem_of_seqZ in Hk.
  rewrite !Hall by (unfold in_square; lia). reflexivity.
Qed.

Lemma max_size_loop_spec : forall fuel n,
  0 <= n -> i + n <= shape0 s -> j + n <= shape1 s ->
  (Z.to_nat (shape0 s - (i + n)) < fuel)%nat ->
  (forall r c, in_square i j n r c -> cell s r c = 1) ->
  exists n',
    max_size_loop fuel (shape0 s) (shape1 s) s i j n = Ok n'
    /\ n <= n' /\ square_free s i j n' /\ ~ square_free s i j (n' + 1).
Proof.
  induction fuel as [|fuel IH]; intros n Hn Hrow Hcol Hfuel Hones; [lia|].
  cbn [max_size_loop].
  assert (Hsq : square_free s i j n) by (split; [|split]; assumption).
  destruct (Z.ltb_spec (i + n) (shape0 s)) as [Hlt|Hge]; cbn [andb].
  2:{ exists n. split; [reflexivity|]. split; [lia|]. split; [exact Hsq|].
      intros (Hb & _). lia. }
  destruct (Z.ltb_spec (j + n) (shape1 s)) as [Hlt'|Hge'].
  2:{ exists n. split; [reflexivity|]. split; [lia|]. split; [exact Hsq|].
      intros (_ & Hb & _). lia. }
  rewrite scan_ring_inb by (assumption || lia). rewrite bind_ret.
  destruct (ring_clear s i j n) eqn:Hclear; cbn [negb].
  - pose proof (ring_clear_cells s i j n Hclear) as Hring.
    destruct (IH (n + 1)) as (n' & Hl & Hn' & Hsq' & Hmax); try lia.
    { intros r c Hin. destruct (decide (in_square i j n r c)).
      - apply Hones. assumption.
      - apply Hring; assumption. }
    exists n'. split; [exact Hl|]. split; [lia|]. split; assumption.
  - exists n. split; [reflexivity|]. split; [lia|]. split; [exact Hsq|].
    intros (_ & _ & Hall). exact (ring_clear_false n Hn Hclear Hall).
Qed.

Lemma block_free_square_free :
  block_free s (i, j) <-> square_free s i j 2.
Proof.
  unfold block_free, square_free, in_square. cbn [fst snd]. split.
  - intros Hb. pose proof (block_free_inb s i j Hrect Hb) as [? ?].
    destruct Hb as (A & B & C & D).
    split; [lia|]. split; [lia|]. intros r c Hrc.
    assert (Hr : r = i \/ r = i + 1) by lia.
    assert (Hc : c = j \/ c = j + 1) by lia.
    destruct Hr as [-> | ->], Hc as [-> | ->]; assumption.
  - intros (_ & _ & Hall). repeat split; apply Hall; lia.
Qed.

Lemma square_free_smaller n m :
  0 <= m <= n -> square_free s i j n -> square_free s i j m.
Proof.
  intros Hm (A & B & C). split; [lia|]. split; [lia|].
  intros r c Hin. apply C. unfold in_square in *. lia.
Qed.
End MaxSize.

Lemma Forall2_bind_filter {A B} (R : B -> A -> Prop) (P : A -> Prop)
      `{!forall x, Decision (P x)} (g : A -> list B) (l : list A) :
  (forall x, x ∈ l ->
     if decide (P x) then exists y, g x = [y] /\ R y x else g x = []) ->
  Forall2 R (l ≫= g) (filter P l).
Proof.
  induction l as [|x l IH]; intros Hg; [constructor|].
  rewrite bind_cons. pose proof (Hg x ltac:(left)) as Hx.
  assert (IH' : Forall2 R (l ≫= g) (filter P l)).
  { apply IH. intros y Hy. apply Hg. right. exact Hy. }
  destruct (decide (P x)) as [Hp|Hp].
  - destruct Hx as (y & -> & Hy). rewrite filter_cons_True by assumption.
    constructor; assumption.
  - rewrite Hx, filter_cons_False by assumption. exact IH'.
Qed.

Section MaxSizes.
Import Scoring.
Variable puzzle : array2.
Hypothesis Hrect : rectangular puzzle.

Lemma calculate_max_sizes_spec :
  exists boxes,
    calculate_max_sizes puzzle = Ok boxes
    /\ Forall2 (largest_square_at puzzle) boxes (anchors puzzle).
Proof.
  unfold calculate_max_sizes.
  set (g := fun rc : Z * Z =>
              if decide (cell puzzle rc.1 rc.2 = 1) then
                match max_size_loop (grow_fuel (shape0 puzzle))
                                    (shape0 puzzle) (shape1 puzzle)
                                    puzzle rc.1 rc.2 1 with
                | Ok n => if n >? 1 then [(n, pack rc)] else []
                | _ => []
                end
              else []).
  exists (cprod (range (shape0 puzzle)) (range (shape1 puzzle)) ≫= g).
  split.
  - rewrite (foldM_append _
               (fun i => range (shape1 puzzle) ≫= fun j => g (i, j))).
    + cbn [app]. f_equal. exact (bind_cprod g _ _).
    + intros acc i Hi. unfold range in Hi. apply elem_of_seqZ in Hi.
      apply foldM_append. intros acc' j Hj.
      unfold range in Hj. apply elem_of_seqZ in Hj.
      rewrite get2_inb by (assumption || (unfold inb; lia)).
      rewrite bind_ret. unfold g. cbn [fst snd].
      destruct (Z.eqb_spec (cell puzzle i j) 1) as [E|E].
      * rewrite decide_True by assumption.
        destruct (max_size_loop_spec puzzle i j Hrect ltac:(lia) ltac:(lia)
                    (grow_fuel (shape0 puzzle)) 1)
          as (n' & Hl & _); try lia.
        { unfold grow_fuel. lia. }
        { intros r c Hin. unfold in_square in Hin.
          replace r with i by lia. replace c with j by lia. exact E. }
        rewrite Hl, bind_ret. unfold pack. cbn [fst snd].
        destruct (n' >? 1); [reflexivity|]. rewrite app_nil_r. reflexivity.
      * rewrite decide_False by assumption. rewrite app_nil_r. reflexivity.
  - rewrite <- anchors_full_range by assumption.
    apply Forall2_bind_filter. intros [i j] Hin.
    apply list_elem_of_cprod in Hin. cbn [fst snd] in Hin.
    destruct Hin as [Hi Hj]. unfold range in Hi, Hj.
    apply elem_of_seqZ in Hi, Hj. unfold g. cbn [fst snd].
    destruct (decide (cell puzzle i j = 1)) as [E|E].
    + destruct (max_size_loop_spec puzzle i j Hrect ltac:(lia) ltac:(lia)
                  (grow_fuel (shape0 puzzle)) 1)
        as (n' & Hl & Hn' & Hsq & Hmax); try lia.
      { unfold grow_fuel. lia. }
      { intros r c Hrc. unfold in_square in Hrc.
        replace r with i by lia. replace c with j by lia. exact E. }
      rewrite Hl.
      destruct (decide (block_free puzzle (i, j))) as [Hb|Hb].
      * assert (Hn2 : 2 <= n').
        { destruct (decide (2 <= n')) as [|Hsmall]; [assumption|].
          exfalso. apply Hmax. replace (n' + 1) with 2 by lia.
          apply block_free_square_free; assumption. }
        destruct (Z.gtb_spec n' 1); [|lia].
        eexists. split; [reflexivity|].
        unfold largest_square_at. cbn [fst snd]. auto.
      * destruct (Z.gtb_spec n' 1) as [Hgt|]; [|reflexivity].
        exfalso. apply Hb. apply block_free_square_free; [assumption|].
        apply (square_free_smaller puzzle i j n'); [lia | exact Hsq].
    + rewrite decide_False; [reflexivity|].
      intros (Hb & _). cbn [fst snd] in Hb. contradiction.
Qed.
End MaxSizes.

Lemma largest_square_points puzzle (boxes : list (Z * Z)) (l : list (Z * Z)) :
  Forall2 (largest_square_at puzzle) boxes l -> boxes.*2 = pack <$> l.
Proof.
  induction 1 as [|b rc boxes' l' Hb Hf IH]; [reflexivity|].
  cbn [fmap list_fmap]. destruct Hb as (Hp & _).
  rewrite Hp. f_equal. exact IH.
Qed.

(** X11: [calculate_max_sizes] lists, for the corner of every interior 2x2
    block and in row order, the side of the largest all-interior square
    anchored there. *)
Theorem calculate_max_sizes_largest (puzzle : array2) :
  rectangular puzzle ->
  exists boxes,
    Scoring.calculate_max_sizes puzzle = Ok boxes
    /\ Forall2 (largest_square_at puzzle) boxes (anchors puzzle)
    /\ boxes.*2 = pack <$> anchors puzzle.
Proof.
  intros Hr. destruct (calculate_max_sizes_spec puzzle Hr) as (boxes & Hc & Hf).
  exists boxes. split; [exact Hc|]. split; [exact Hf|].
  eapply largest_square_points. exact Hf.
Qed.

(** X12: the points [init_population] permutes are the valid points. *)
Theorem max_sizes_points_are_valid_points (puzzle : array2) :
  rectangular puzzle -> binary puzzle ->
  shape0 puzzle <= 2 ^ 16 -> shape1 puzzle <= 2 ^ 16 ->
  exists boxes,
    Scoring.calculate_max_sizes puzzle = Ok boxes
    /\ Scoring.get_valid_points puzzle = Ok boxes.*2.
Proof.
  intros Hr Hb H0 H1.
  destruct (calculate_max_sizes_spec puzzle Hr) as (boxes & Hc & Hf).
  exists boxes. split; [exact Hc|].
  rewrite get_valid_points_anchors by assumption. f_equal.
  symmetry. eapply largest_square_points. exact Hf.
Qed.

(** ** The boxes a solution draws *)

Section BoxesLoop.
Import Utils Scoring.
Variable puzzle : array2.
Let height := shape0 puzzle.
Let width := shape1 puzzle.

Lemma points_loop_boxes : forall (solution : list Z) s boxes sc t,
  Forall (valid_point puzzle) solution ->
  expand_inv puzzle s boxes ->
  exists s' new,
    foldM (expand_point height width) solution (s, boxes)
    = Ok (s', boxes ++ new)
    /\ foldM (score_point height width) solution (s, sc, t)
       = Ok (s', sc + Z.of_nat (length new), t + box_tiles new)
    /\ expand_inv puzzle s' (boxes ++ new)
    /\ Forall (fun b => 2 <= b.2) new
    /\ new.*1 `sublist_of` (split_point <$> solution).
Proof.
  induction solution as [|p solution IH]; intros s boxes sc t Hv Hinv.
  - exists s, []. rewrite app_nil_r. cbn [foldM length].
    change (box_tiles []) with 0. rewrite !Z.add_0_r.
    split; [reflexivity|]. split; [reflexivity|]. split; [assumption|].
    split; constructor.
  - inversion Hv as [|? ? Hp Hv']; subst.
    unfold valid_point in Hp.
    destruct (split_point p) as [i j] eqn:Esp.
    destruct Hp as (Hi & Hj & Hrow & Hcol & P00 & _).
    pose proof Hinv as (Hr & [S0 S1] & Hge & _).
    destruct (point_step height width s boxes sc t p i j)
      as (s1 & bs & He & Hs & Hr1 & Hsh1 & Hd);
      try (assumption || (unfold height, width; congruence)).
    { apply Hge. exact P00. }
    pose proof (expand_inv_drawn puzzle s s1 boxes i j bs Hinv Hr1 Hsh1 Hd)
      as Hinv1.
    destruct (IH s1 (boxes ++ bs) (sc + Z.of_nat (length bs))
                 (t + box_tiles bs) Hv' Hinv1)
      as (s' & new & He' & Hs' & Hinv' & Hsz & Hsub).
    exists s', (bs ++ new). cbn [foldM]. rewrite He, Hs, !bind_ret.
    rewrite app_assoc. split; [exact He'|]. split.
    { rewrite Hs'. rewrite length_app, box_tiles_app, Nat2Z.inj_add.
      rewrite !Z.add_assoc. reflexivity. }
    split; [exact Hinv'|].
    cbn [fmap list_fmap]. rewrite Esp.
    destruct Hd as [[-> _]|(n & -> & Hn & _)].
    + cbn [app]. split; [exact Hsz|]. apply sublist_cons. exact Hsub.
    + cbn [app fmap list_fmap]. split.
      * constructor; [exact Hn | exact Hsz].
      * apply sublist_skip. exact Hsub.
Qed.
End BoxesLoop.

Lemma box_tiles_ge (bs : list (Z * Z * Z)) :
  Forall (fun b => 2 <= b.2) bs -> 4 * Z.of_nat (length bs) <= box_tiles bs.
Proof.
  induction 1 as [|b bs Hb _ IH]; [cbn; lia|].
  change (box_tiles (b :: bs)) with (b.2 * b.2 + box_tiles bs).
  rewrite length_cons. nia.
Qed.

Lemma squares_area_app qs1 qs2 :
  squares_area (qs1 ++ qs2) = squares_area qs1 + squares_area qs2.
Proof.
  induction qs1 as [|q qs1 IH]; [reflexivity|].
  cbn [app]. unfold squares_area in *. cbn [foldr]. rewrite IH. lia.
Qed.

Lemma squares_area_boxes (bs : list (Z * Z * Z)) :
  squares_area (to_square <$> bs) = box_tiles bs.
Proof.
  induction bs as [|[[y x] n] bs IH]; [reflexivity|].
  cbn [fmap list_fmap]. unfold squares_area, box_tiles in *. cbn [foldr].
  rewrite IH. reflexivity.
Qed.

Lemma squares_area_units (cells : list (Z * Z)) :
  squares_area (to_square <$> (unit_box <$> cells)) = Z.of_nat (length cells).
Proof.
  induction cells as [|rc cells IH]; [reflexivity|].
  cbn [fmap list_fmap length]. unfold squares_area in *. cbn [foldr].
  rewrite IH. destruct rc. cbn. lia.
Qed.

Section Layout.
Import Utils Scoring.

Lemma solution_layout (puzzle scratch : array2) (puzzle_sum : Z)
      (solution : list Z) :
  rectangular puzzle -> rectangular scratch -> same_shape scratch puzzle ->
  Forall (valid_point puzzle) solution ->
  exists s' boxes,
    expand_solution puzzle solution
    = Ok (to_square <$> (boxes ++ (unit_box <$> free_cells s')))
    /\ score_solution puzzle puzzle_sum scratch solution
       = Ok (Z.of_nat (length boxes) + (puzzle_sum - box_tiles boxes))
    /\ score_solution_scratch puzzle scratch solution = Ok s'
    /\ expand_inv puzzle s' boxes
    /\ Forall (fun b => 2 <= b.2) boxes
    /\ boxes.*1 `sublist_of` (split_point <$> solution).
Proof.
  intros Hr Hrs Hsh Hv.
  destruct (points_loop_boxes puzzle solution puzzle [] 0 0 Hv
              (expand_inv_init puzzle Hr))
    as (s' & boxes & He & Hs & Hinv & Hsz & Hsub).
  cbn [app] in He, Hinv. rewrite !Z.add_0_l in Hs.
  assert (Hcopy : copy_2d puzzle scratch = Ok puzzle).
  { apply copy_2d_same_shape; try assumption.
    destruct Hsh. split; congruence. }
  exists s', boxes. split; [|split; [|split; [|split; [|split]]]];
    try assumption.
  - unfold expand_solution. cbv zeta. rewrite He, bind_ret.
    pose proof Hinv as (Hr' & [S0 S1] & _).
    rewrite <- S0, <- S1. rewrite (sweep_spec s' boxes Hr'), bind_ret.
    reflexivity.
  - unfold score_solution. cbv zeta. rewrite Hcopy, bind_ret.
    rewrite Hs, bind_ret. reflexivity.
  - unfold score_solution_scratch. cbv zeta. rewrite Hcopy, bind_ret.
    rewrite Hs, bind_ret. reflexivity.
Qed.
End Layout.


Lemma expand_inv_uncovered puzzle s boxes :
  expand_inv puzzle s boxes -> free_cells s = uncovered puzzle boxes.
Proof.
  intros (Hr & [S0 S1] & _ & Hfree & Hcov & _).
  unfold free_cells, uncovered. rewrite S0, S1.
  apply list_filter_iff. intros [r c]. cbn [fst snd]. split.
  - apply Hfree.
  - intros [Hp Hnone]. destruct (Hcov r c Hp) as [H1|Hex]; [exact H1|].
    exfalso. apply Exists_exists in Hex. destruct Hex as (b & Hb & Hc).
    rewrite Forall_forall in Hnone. exact (Hnone b Hb Hc).
Qed.

Lemma expand_inv_square_free puzzle s boxes b :
  rectangular puzzle ->
  expand_inv puzzle s boxes -> b ∈ boxes -> 1 <= b.2 ->
  square_free puzzle b.1.1 b.1.2 b.2.
Proof.
  intros Hrp (_ & _ & _ & _ & _ & Hint & _) Hb Hn.
  destruct b as [[i j] n]. cbn [fst snd] in *.
  assert (Hall : forall r c, in_square i j n r c -> cell puzzle r c = 1).
  { intros r c Hin. apply (Hint (i, j, n) r c Hb). exact Hin. }
  assert (Hcorner : cell puzzle (i + n - 1) (j + n - 1) = 1).
  { apply Hall. unfold in_square. lia. }
  destruct (decide (inb puzzle (i + n - 1) (j + n - 1))) as [[? ?]|Hout].
  - split; [lia|]. split; [lia|]. exact Hall.
  - rewrite cell_outside in Hcorner by assumption. discriminate.
Qed.

(** X13: the expansion lists first the squares of side two or more, which
    are anchored at points of the solution in the solution's order, lie
    on interior cells and do not overlap, and then one unit square for
    each interior cell they leave uncovered, row by row. *)
Theorem expand_solution_layout (puzzle : array2) (solution : list Z) :
  rectangular puzzle ->
  Forall (valid_point puzzle) solution ->
  exists big,
    Scoring.expand_solution puzzle solution
    = Ok (to_square <$> (big ++ (unit_box <$> uncovered puzzle big)))
    /\ big.*1 `sublist_of` (Utils.split_point <$> solution)
    /\ Forall (fun b => 2 <= b.2 /\ square_free puzzle b.1.1 b.1.2 b.2) big
    /\ pairwise_disjoint box_covers big.
Proof.
  intros Hr Hv.
  destruct (solution_layout puzzle puzzle 0 solution Hr Hr
              ltac:(split; reflexivity) Hv)
    as (s' & big & He & _ & _ & Hinv & Hsz & Hsub).
  exists big. rewrite <- (expand_inv_uncovered puzzle s' big Hinv).
  split; [exact He|]. split; [exact Hsub|]. split.
  - rewrite Forall_forall in Hsz. apply Forall_forall. intros b Hb.
    split; [apply Hsz; exact Hb|].
    apply (expand_inv_square_free puzzle s' big); try assumption.
    specialize (Hsz b Hb). cbn beta in Hsz. lia.
  - destruct Hinv as (_ & _ & _ & _ & _ & _ & Hd & _). exact Hd.
Qed.

(** X14: the squares' areas add up to [puzzle.sum()], and the score lies
    between 0 and [puzzle.sum()], at least 3 below it as soon as one
    square has side two or more. *)
Theorem score_solution_bounds
        (puzzle scratch : array2) (solution : list Z) :
  rectangular puzzle -> binary puzzle ->
  rectangular scratch -> same_shape scratch puzzle ->
  Forall (valid_point puzzle) solution ->
  exists squares sc,
    Scoring.expand_solution puzzle solution = Ok squares
    /\ Scoring.score_solution puzzle (np_sum puzzle) scratch solution = Ok sc
    /\ squares_area squares = np_sum puzzle
    /\ Forall (fun q => 1 <= Scoring.Size q) squares
    /\ sc = Z.of_nat (length squares)
    /\ 0 <= sc <= np_sum puzzle
    /\ (forall q, q ∈ squares -> 2 <= Scoring.Size q -> sc + 3 <= np_sum puzzle).
Proof.
  intros Hr Hb Hrs Hsh Hv.
  destruct (solution_layout puzzle scratch (np_sum puzzle) solution
              Hr Hrs Hsh Hv)
    as (s' & big & He & Hs & _ & Hinv & Hsz & _).
  pose proof Hinv as (_ & _ & _ & _ & _ & _ & _ & Hcount).
  rewrite <- (np_sum_binary puzzle Hr Hb) in Hcount.
  pose proof (box_tiles_ge big Hsz) as Hge.
  eexists _, _. split; [exact He|]. split; [exact Hs|].
  split; [|split; [|split; [|split]]].
  - rewrite fmap_app, squares_area_app, squares_area_boxes, squares_area_units.
    lia.
  - rewrite fmap_app. apply Forall_app. split.
    + apply Forall_fmap. eapply Forall_impl; [exact Hsz|].
      intros [[y x] n] Hn. cbn in *. lia.
    + rewrite <- list_fmap_compose. apply Forall_fmap, Forall_true.
      intros [r c]. cbn. lia.
  - rewrite length_fmap, length_app, length_fmap. lia.
  - lia.
  - intros q Hq Hq2. rewrite fmap_app in Hq. apply elem_of_app in Hq.
    destruct Hq as [Hq|Hq].
    + assert (Hne : (0 < length big)%nat).
      { apply list_elem_of_fmap in Hq. destruct Hq as (b & _ & Hb').
        destruct big; [inversion Hb' | simpl; lia]. }
      lia.
    + rewrite <- list_fmap_compose in Hq. apply list_elem_of_fmap in Hq.
      destruct Hq as ([r c] & -> & _). cbn in Hq2. lia.
Qed.

(** ** Scoring a population *)

Section ScorePopulation.
Import Utils Scoring.
Variables (puzzle : array2) (puzzle_sum : Z).
Hypothesis Hrect : rectangular puzzle.

Lemma score_solution_any_scratch scratch1 scratch2 solution :
  rectangular scratch1 -> same_shape scratch1 puzzle ->
  rectangular scratch2 -> same_shape scratch2 puzzle ->
  score_solution puzzle puzzle_sum scratch1 solution
  = score_solution puzzle puzzle_sum scratch2 solution.
Proof.
  intros R1 [A1 B1] R2 [A2 B2]. unfold score_solution. cbv zeta.
  rewrite !copy_2d_same_shape by (assumption || (split; congruence)).
  reflexivity.
Qed.

Lemma score_population_spec (scratch population : array2) :
  rectangular scratch -> same_shape scratch puzzle ->
  rectangular population -> 0 < shape1 population ->
  members_valid puzzle population ->
  exists scratch',
    score_population puzzle puzzle_sum scratch population
    = Ok (scored_row puzzle puzzle_sum scratch <$> population, scratch')
    /\ rectangular scratch' /\ same_shape scratch' puzzle.
Proof.
  intros Hrs Hsh Hrp Hw Hv. unfold score_population, range.
  destruct (foldM_seqZ_inv
              (fun k (st : array2 * array2) =>
                 rectangular st.2 /\ same_shape st.2 puzzle
                 /\ length st.1 = length population
                 /\ forall (r : nat) row, population !! r = Some row ->
                      st.1 !! r = Some (if decide (Z.of_nat r < k)
                                        then scored_row puzzle puzzle_sum
                                                        scratch row
                                        else row))
              (fun '(population0, puzzle_scratch) k =>
                 row ← getitem population0 k;
                 let solution := drop 1 row in
                 score ← score_solution puzzle puzzle_sum puzzle_scratch
                                        solution;
                 puzzle_scratch ←
                   score_solution_scratch puzzle puzzle_scratch solution;
                 population1 ← set2 population0 k 0 (wrap32 score);
                 Ok (population1, puzzle_scratch))
              0 (shape0 population) (population, scratch))
    as ([pop' scr'] & Hf & Hr' & Hs' & Hlen & Hrows).
  - unfold shape0. lia.
  - cbn [fst snd]. split; [assumption|]. split; [assumption|].
    split; [reflexivity|]. intros r row Hrow.
    rewrite decide_False by lia. exact Hrow.
  - intros k [pop scr] Hk (Hrs1 & Hsh1 & Hlen & Hrows). cbn [fst snd] in *.
    unfold shape0 in Hk.
    destruct (lookup_lt_is_Some_2 population (Z.to_nat k)) as [row Hrow];
      [lia|].
    pose proof (Hrows _ _ Hrow) as Hk'.
    rewrite decide_False in Hk' by lia.
    assert (Hg : getitem pop k = Ok row).
    { apply getitem_Ok. split; [lia | exact Hk']. }
    rewrite Hg, bind_ret. cbv zeta.
    assert (Hval : Forall (valid_point puzzle) (drop 1 row)).
    { unfold members_valid in Hv. rewrite Forall_lookup in Hv.
      exact (Hv _ _ Hrow). }
    destruct (solution_layout puzzle scr puzzle_sum (drop 1 row)
                Hrect Hrs1 Hsh1 Hval)
      as (s' & boxes & _ & Hsc & Hscr & Hinv & _).
    rewrite Hsc, bind_ret, Hscr, bind_ret.
    assert (Hlrow : (0 < length row)%nat).
    { pose proof (rectangular_row population _ row Hrp Hrow). lia. }
    assert (Hset : set2 pop k 0
                     (wrap32 (Z.of_nat (length boxes)
                              + (puzzle_sum - box_tiles boxes)))
                   = Ok (<[Z.to_nat k :=
                            scored_row puzzle puzzle_sum scratch row]> pop)).
    { unfold set2. rewrite Hg, bind_ret.
      assert (Hs0 : setitem row 0
                      (wrap32 (Z.of_nat (length boxes)
                               + (puzzle_sum - box_tiles boxes)))
                    = Ok (scored_row puzzle puzzle_sum scratch row)).
      { apply setitem_Ok. split; [lia|].
        unfold scored_row.
        rewrite (score_solution_any_scratch scratch scr) by assumption.
        rewrite Hsc. destruct row as [|x row]; [simpl in Hlrow; lia|].
        reflexivity. }
      rewrite Hs0, bind_ret. apply setitem_Ok. split; [lia | reflexivity]. }
    rewrite Hset, bind_ret. eexists. split; [reflexivity|].
    cbn [fst snd]. pose proof Hinv as (Hr1 & Hsh' & _).
    split; [exact Hr1|]. split; [exact Hsh'|].
    split; [rewrite length_insert; exact Hlen|].
    intros r row' Hrow'.
    destruct (decide (r = Z.to_nat k)) as [->|Hne].
    + rewrite list_lookup_insert_eq by lia.
      rewrite decide_True by lia. congruence.
    + rewrite list_lookup_insert_ne by auto. rewrite (Hrows _ _ Hrow').
      destruct (decide (Z.of_nat r < k)).
      * rewrite decide_True by lia. reflexivity.
      * rewrite decide_False by lia. reflexivity.
  - cbn [fst snd] in *. exists scr'. split; [|split; assumption].
    rewrite Hf. f_equal. f_equal.
    apply list_eq. intros r. rewrite list_lookup_fmap.
    destruct (population !! r) as [row|] eqn:Hrow.
    + rewrite (Hrows _ _ Hrow). rewrite decide_True; [reflexivity|].
      apply lookup_lt_Some in Hrow. unfold shape0. lia.
    + apply lookup_ge_None in Hrow. apply lookup_ge_None. lia.
Qed.
End ScorePopulation.

(** X15: [score_population] puts in front of every row the score of the
    row's permutation and changes nothing else. *)
Theorem score_population_scores_rows
        (puzzle scratch population : array2) (puzzle_sum : Z) :
  rectangular puzzle ->
  rectangular scratch -> same_shape scratch puzzle ->
  rectangular population -> 0 < shape1 population ->
  members_valid puzzle population ->
  exists population' scratch',
    Scoring.score_population puzzle puzzle_sum scratch population
    = Ok (population', scratch')
    /\ length population' = length population
    /\ forall (k : nat) row, population !! k = Some row ->
         exists sc,
           Scoring.score_solution puzzle puzzle_sum scratch (drop 1 row)
           = Ok sc
           /\ population' !! k = Some (wrap32 sc :: drop 1 row).
Proof.
  intros Hr Hrs Hsh Hrp Hw Hv.
  destruct (score_population_spec puzzle puzzle_sum Hr scratch population
              Hrs Hsh Hrp Hw Hv) as (scratch' & Hf & _).
  eexists _, scratch'. split; [exact Hf|].
  split; [apply length_fmap|].
  intros k row Hrow. rewrite list_lookup_fmap, Hrow. cbn [fmap option_fmap option_map].
  assert (Hval : Forall (valid_point puzzle) (drop 1 row)).
  { unfold members_valid in Hv. rewrite Forall_lookup in Hv. exact (Hv _ _ Hrow). }
  destruct (solution_layout puzzle scratch puzzle_sum (drop 1 row)
              Hr Hrs Hsh Hval) as (s' & boxes & _ & Hsc & _).
  eexists. split; [exact Hsc|]. unfold scored_row. rewrite Hsc. reflexivity.
Qed.

(** ** Selection by any index *)

Lemma divide_loop_select divide_idx :
  forall fuel pop first_idx last_idx split_idx,
  rectangular pop -> 0 < shape1 pop ->
  0 <= first_idx -> last_idx < shape0 pop ->
  (Z.to_nat (last_idx - first_idx) < fuel)%nat ->
  divided pop first_idx -> divided pop (last_idx + 1) ->
  (split_idx = divide_idx ->
   divided pop divide_idx /\ divided pop (divide_idx + 1)) ->
  exists pop',
    Utils.divide_loop fuel pop divide_idx first_idx last_idx split_idx = Ok pop'
    /\ rectangular pop' /\ same_shape pop' pop /\ pop' ≡ₚ pop
    /\ (first_idx <= divide_idx <= last_idx ->
        divided pop' divide_idx /\ divided pop' (divide_idx + 1)).
Proof.
  induction fuel as [|fuel IH];
    intros pop first_idx last_idx split_idx Hr Hw Hf Hl Hfuel DA DB Hsplit;
    [lia|].
  rewrite divide_loop_S.
  assert (Hsame : same_shape pop pop) by (split; reflexivity).
  destruct (Z.ltb_spec first_idx last_idx) as [Hlt|Hge];
    destruct (Z.eqb_spec split_idx divide_idx) as [Heq|Hne]; simpl.
  - exists pop. split; [reflexivity|]. split; [assumption|].
    split; [assumption|]. split; [reflexivity|]. intros _. auto.
  - destruct (partition_population_spec pop first_idx last_idx)
      as (pop1 & h & Hp & Hsh & Hh & Hleft & Hright); try (assumption || lia).
    rewrite Hp, bind_ret.
    pose proof Hsh as (Hr1 & [S0 S1] & P1 & _ & _).
    assert (DA1 : divided pop1 first_idx).
    { apply (divided_shuffled first_idx last_idx pop); auto; lia. }
    assert (DB1 : divided pop1 (last_idx + 1)).
    { apply (divided_shuffled first_idx last_idx pop); auto; lia. }
    destruct (divided_pivot pop1 first_idx last_idx h) as [Dh Dh1];
      try (assumption || lia).
    assert (Hfin : forall pop2 (Q : Prop),
               rectangular pop2 /\ same_shape pop2 pop1 /\ pop2 ≡ₚ pop1 /\ Q ->
               rectangular pop2 /\ same_shape pop2 pop /\ pop2 ≡ₚ pop /\ Q).
    { intros pop2 Q (R2 & [T0 T1] & P2 & D2). split; [assumption|].
      split; [split; congruence|]. split; [etrans; eassumption | assumption]. }
    destruct (Z.gtb_spec h divide_idx) as [Hgt|Hle].
    + destruct (IH pop1 first_idx (h - 1) h) as (pop2 & Hd & R2 & T2 & P2 & D2);
        try (assumption || lia).
      * replace (h - 1 + 1) with h by lia. assumption.
      * exists pop2. split; [exact Hd|]. apply Hfin.
        split; [assumption|]. split; [assumption|]. split; [assumption|].
        intros Hk. apply D2. lia.
    + destruct (Z.ltb_spec h divide_idx) as [Hlt'|Hge'].
      * destruct (IH pop1 (h + 1) last_idx h) as (pop2 & Hd & R2 & T2 & P2 & D2);
          try (assumption || lia).
        exists pop2. split; [exact Hd|]. apply Hfin.
        split; [assumption|]. split; [assumption|]. split; [assumption|].
        intros Hk. apply D2. lia.
      * assert (h = divide_idx) by lia. subst h.
        destruct fuel as [|fuel]; [lia|].
        rewrite divide_loop_S.
        rewrite Z.eqb_refl, andb_false_r.
        exists pop1. split; [reflexivity|]. apply Hfin.
        split; [assumption|]. split; [split; reflexivity|].
        split; [reflexivity|]. intros _. auto.
  - exists pop. split; [reflexivity|]. split; [assumption|].
    split; [assumption|]. split; [reflexivity|]. intros _. auto.
  - exists pop. split; [reflexivity|]. split; [assumption|].
    split; [assumption|]. split; [reflexivity|]. intros Hk.
    assert (first_idx = divide_idx) by lia.
    assert (last_idx = divide_idx) by lia. subst first_idx last_idx. auto.
Qed.

(** X16: for a divide index from 1 on, the row the index names ends up in
    its sorted position. *)
Theorem divide_population_selects (pop : array2) (k : Z) :
  rectangular pop -> 0 < shape1 pop -> 1 <= k < shape0 pop ->
  exists pop',
    Utils.divide_population pop k = Ok pop'
    /\ pop' ≡ₚ pop
    /\ (forall i, 0 <= i < k -> key pop' i <= key pop' k)
    /\ (forall j, k < j < shape0 pop' -> key pop' k <= key pop' j).
Proof.
  intros Hr Hw Hk. unfold Utils.divide_population. cbv zeta.
  destruct (divide_loop_select k (S (length pop)) pop 0 (shape0 pop - 1) 0)
    as (pop' & Hd & Hr' & [S0 S1] & Hp & Hdiv); try (assumption || lia).
  - unfold shape0. lia.
  - intros i j Hi Hj. lia.
  - intros i j Hi Hj. lia.
  - exists pop'. split; [exact Hd|]. split; [exact Hp|].
    destruct Hdiv as [D1 D2]; [lia|]. split.
    + intros i Hi. apply D1; lia.
    + intros j Hj. apply D2; lia.
Qed.

(** X17: [divide_population] returns for every divide index, in range or
    not, with the rows permuted; for the index 0 it leaves the matrix as
    it is. *)
Theorem divide_population_any_index (pop : array2) :
  rectangular pop -> 0 < shape1 pop ->
  (forall k, exists pop',
     Utils.divide_population pop k = Ok pop'
     /\ pop' ≡ₚ pop /\ rectangular pop' /\ same_shape pop' pop)
  /\ Utils.divide_population pop 0 = Ok pop.
Proof.
  intros Hr Hw. split.
  - intros k. unfold Utils.divide_population. cbv zeta.
    destruct (decide (k = 0)) as [->|Hk0].
    { exists pop. split.
      - rewrite divide_loop_S. rewrite Z.eqb_refl, andb_false_r. reflexivity.
      - split; [reflexivity|]. split; [assumption|]. split; reflexivity. }
    destruct (divide_loop_select k (S (length pop)) pop 0 (shape0 pop - 1) 0)
      as (pop' & Hd & Hr' & Hs & Hp & _); try (assumption || lia).
    + unfold shape0. lia.
    + intros i j Hi Hj. lia.
    + intros i j Hi Hj. lia.
    + exists pop'. auto.
  - unfold Utils.divide_population. cbv zeta.
    rewrite divide_loop_S. rewrite Z.eqb_refl, andb_false_r. reflexivity.
Qed.

(** X18: [partition_population] returns the index at which it leaves the
    pivot row: no row of the range before it scores more, none after it
    scores less, and the scores of the rows outside the range stay where
    they were. *)
Theorem partition_population_pivot (pop : array2) (first_idx last_idx : Z) :
  rectangular pop -> 0 < shape1 pop ->
  0 <= first_idx -> first_idx <= last_idx -> last_idx < shape0 pop ->
  exists pop' h,
    Utils.partition_population pop first_idx last_idx = Ok (pop', h)
    /\ first_idx <= h <= last_idx
    /\ pop' ≡ₚ pop
    /\ (forall i, first_idx <= i < h -> key pop' i <= key pop' h)
    /\ (forall i, h < i <= last_idx -> key pop' h <= key pop' i)
    /\ (forall i, 0 <= i -> i < first_idx \/ last_idx < i ->
          key pop' i = key pop i).
Proof.
  intros Hr Hw Hf Hfl Hl.
  destruct (partition_population_spec pop first_idx last_idx)
    as (pop' & h & Hp & (_ & _ & Hperm & _ & Hout) & Hh & Hleft & Hright);
    try assumption.
  exists pop', h. auto 10.
Qed.

(** ** Spawning new members *)

Section Spawn.
Import Utils Gridea.
Variables (population puzzle : array2) (spawn_count : Z) (P : list Z).
Let split := shape0 population - spawn_count.
Hypothesis Hrect : rectangular population.
Hypothesis Hcount : 0 <= spawn_count < shape0 population.
Hypothesis Hsurv : forall (r : nat) row,
  Z.of_nat r < split -> population !! r = Some row -> row ≡ₚ P.
Hypothesis HL : length P <> 1%nat.
Hypothesis Hp0 : shape0 puzzle <> 0.
Hypothesis Hp1 : shape1 puzzle <> 0.

Lemma population_row_length (r : nat) row :
  population !! r = Some row -> length row = length P.
Proof.
  intros Hrow.
  destruct (lookup_lt_is_Some_2 population 0) as [row0 Hrow0].
  { unfold shape0 in Hcount. lia. }
  pose proof (rectangular_row population _ _ Hrect Hrow) as E.
  pose proof (rectangular_row population _ _ Hrect Hrow0) as E0.
  assert (Hperm : row0 ≡ₚ P).
  { apply (Hsurv 0 row0); [unfold split; lia | exact Hrow0]. }
  apply Permutation_length in Hperm. lia.
Qed.

Lemma spawn_spec (rs : random_state) :
  exists population' rs',
    spawn_new_population_members population spawn_count puzzle rs
    = Ok (population', rs')
    /\ length population' = length population
    /\ (forall r : nat, Z.of_nat r < split ->
          population' !! r = population !! r)
    /\ (forall (r : nat) row, split <= Z.of_nat r ->
          population' !! r = Some row -> row ≡ₚ P).
Proof.
  unfold spawn_new_population_members, range2. fold split.
  destruct (foldM_seqZ_inv
              (fun k (st : array2 * random_state) =>
                 length st.1 = length population
                 /\ (forall r : nat, Z.of_nat r < split \/ k <= Z.of_nat r ->
                       st.1 !! r = population !! r)
                 /\ (forall (r : nat) row, split <= Z.of_nat r < k ->
                       st.1 !! r = Some row -> row ≡ₚ P))
              (fun '(population0, rs0) k =>
                 let '(r, rs1) := xorshift rs0 in
                 a ← py_mod r split;
                 if k mod 2 =? 0 then
                   let '(r, rs2) := xorshift rs1 in
                   b ← py_mod r split;
                   row_a ← getitem population0 a;
                   row_b ← getitem population0 b;
                   row_k ← getitem population0 k;
                   '(out, rs3) ←
                     crossover_and_mutate row_a row_b row_k rs2 puzzle;
                   population1 ← setitem population0 k out.1;
                   Ok (population1, rs3)
                 else
                   row_a ← getitem population0 a;
                   row_k ← getitem population0 k;
                   '(out, rs3) ← copy_and_mutate row_a row_k rs1;
                   population1 ← setitem population0 k out.1;
                   Ok (population1, rs3))
              split (shape0 population - split) (population, rs))
    as ([pop' rs'] & Hf & Hlen & Hsame & Hnew).
  - unfold split. lia.
  - cbn [fst snd]. split; [reflexivity|]. split; [reflexivity|].
    intros r row Hr. lia.
  - intros k [pop rs0] Hk (Hlen & Hsame & Hnew). cbn [fst snd] in *.
    assert (Hget : forall a, 0 <= a < split ->
              exists row, getitem pop a = Ok row /\ row ≡ₚ P).
    { intros a Ha.
      destruct (lookup_lt_is_Some_2 population (Z.to_nat a)) as [row Hrow].
      { unfold split, shape0 in *. lia. }
      exists row. split.
      - apply getitem_Ok. split; [lia|]. rewrite Hsame by lia. exact Hrow.
      - apply (Hsurv (Z.to_nat a)); [lia | exact Hrow]. }
    destruct (lookup_lt_is_Some_2 population (Z.to_nat k)) as [row_k Hrow_k].
    { unfold split, shape0 in *. lia. }
    assert (Hgk : getitem pop k = Ok row_k).
    { apply getitem_Ok. split; [unfold split in *; lia|].
      rewrite Hsame by lia. exact Hrow_k. }
    pose proof (population_row_length _ _ Hrow_k) as Hlk.
    assert (Hstore : forall (out : list Z) (rs3 : random_state), out ≡ₚ P ->
              exists st' : array2 * random_state,
                (population1 ← setitem pop k out; Ok (population1, rs3))
                = Ok st'
                /\ length st'.1 = length population
                /\ (forall r : nat,
                      Z.of_nat r < split \/ k + 1 <= Z.of_nat r ->
                      st'.1 !! r = population !! r)
                /\ (forall (r : nat) row, split <= Z.of_nat r < k + 1 ->
                      st'.1 !! r = Some row -> row ≡ₚ P)).
    { intros out rs3 Hout.
      exists (<[Z.to_nat k := out]> pop, rs3). split.
      { assert (Hs : setitem pop k out = Ok (<[Z.to_nat k := out]> pop)).
        { apply setitem_Ok. split; [|reflexivity].
          unfold split, shape0 in *. lia. }
        rewrite Hs. reflexivity. }
      cbn [fst snd]. split; [rewrite length_insert; exact Hlen|]. split.
      - intros r Hr. rewrite list_lookup_insert_ne by lia.
        apply Hsame. lia.
      - intros r row Hr Hrow.
        destruct (decide (r = Z.to_nat k)) as [->|Hne].
        + rewrite list_lookup_insert_eq in Hrow
            by (unfold split, shape0 in *; lia).
          inversion Hrow. subst row. exact Hout.
        + rewrite list_lookup_insert_ne in Hrow by auto.
          apply (Hnew r row); [lia | exact Hrow]. }
    destruct (xorshift rs0) as [r1 rs1].
    destruct (py_mod_pos r1 split) as (a & Ha & Hra); [lia|].
    rewrite Ha, bind_ret.
    destruct (Hget a Hra) as (row_a & Hga & Hpa).
    assert (Hla : length row_a = length P)
      by (apply Permutation_length; exact Hpa).
    destruct (k mod 2 =? 0).
    + destruct (xorshift rs1) as [r2 rs2].
      destruct (py_mod_pos r2 split) as (b & Hb & Hrb); [lia|].
      rewrite Hb, bind_ret.
      destruct (Hget b Hrb) as (row_b & Hgb & Hpb).
      rewrite Hga, bind_ret, Hgb, bind_ret, Hgk, bind_ret.
      destruct (crossover_and_mutate_spec row_a row_b row_k rs2 puzzle)
        as (out & log & rs3 & Hc & _ & _ & Hout);
        try (assumption || lia).
      { rewrite Hpa, Hpb. reflexivity. }
      rewrite Hc, bind_ret. cbn [fst]. apply Hstore.
      rewrite Hout. exact Hpa.
    + rewrite Hga, bind_ret, Hgk, bind_ret.
      destruct (copy_and_mutate_spec row_a row_k rs1)
        as (out & log & rs3 & Hc & _ & _ & _ & Hout);
        try (assumption || lia).
      rewrite Hc, bind_ret. cbn [fst]. apply Hstore.
      rewrite Hout. exact Hpa.
  - exists pop', rs'. cbn [fst snd] in *. split; [exact Hf|].
    split; [exact Hlen|]. split.
    + intros r Hr. apply Hsame. lia.
    + intros r row Hr Hrow. apply (Hnew r row); [|exact Hrow].
      apply lookup_lt_Some in Hrow. unfold shape0. lia.
Qed.
End Spawn.

(** X19: spawning leaves the surviving rows alone and writes into every
    other row a permutation of the points the survivors hold. *)
Theorem spawn_new_population_members_permutations
        (population puzzle : array2) (spawn_count : Z) (P : list Z)
        (rs : Utils.random_state) :
  rectangular population ->
  0 <= spawn_count < shape0 population ->
  (forall (r : nat) row,
     Z.of_nat r < shape0 population - spawn_count ->
     population !! r = Some row -> row ≡ₚ P) ->
  length P <> 1%nat ->
  shape0 puzzle <> 0 -> shape1 puzzle <> 0 ->
  exists population' rs',
    Gridea.spawn_new_population_members population spawn_count puzzle rs
    = Ok (population', rs')
    /\ length population' = length population
    /\ (forall r : nat, Z.of_nat r < shape0 population - spawn_count ->
          population' !! r = population !! r)
    /\ Forall (fun row => row ≡ₚ P) population'.
Proof.
  intros Hr Hc Hs HL H0 H1.
  destruct (spawn_spec population puzzle spawn_count P Hr Hc Hs HL H0 H1 rs)
    as (pop' & rs' & Hf & Hlen & Hsame & Hnew).
  exists pop', rs'. split; [exact Hf|]. split; [exact Hlen|].
  split; [exact Hsame|].
  apply Forall_lookup. intros r row Hrow.
  destruct (decide (Z.of_nat r < shape0 population - spawn_count)) as [Hlt|Hge].
  - rewrite Hsame in Hrow by exact Hlt. exact (Hs r row Hlt Hrow).
  - apply (Hnew r row); [lia | exact Hrow].
Qed.

(** X20: with nothing to spawn the population is returned as it is, and
    with no survivor to draw from the first draw divides by zero. *)
Theorem spawn_new_population_members_edges
        (population puzzle : array2) (rs : Utils.random_state) :
  Gridea.spawn_new_population_members population 0 puzzle rs
  = Ok (population, rs)
  /\ (population <> [] ->
      Gridea.spawn_new_population_members population (shape0 population)
                                          puzzle rs
      = Raise ZeroDivisionError).
Proof.
  split.
  - unfold Gridea.spawn_new_population_members, range2.
    rewrite Z.sub_0_r, Z.sub_diag. reflexivity.
  - intros Hne. unfold Gridea.spawn_new_population_members, range2.
    rewrite Z.sub_diag, Z.sub_0_r.
    rewrite seqZ_cons by (unfold shape0; destruct population; simpl; [congruence|lia]).
    cbn [foldM]. destruct (Utils.xorshift rs) as [r rs1]. reflexivity.
Qed.

(** ** One generation *)

Lemma member_of_length P row : member_of P row -> length row = S (length P).
Proof.
  intros [Hl Hp]. apply Permutation_length in Hp.
  rewrite length_drop in Hp. lia.
Qed.

Lemma members_rectangular P (pop : array2) :
  Forall (member_of P) pop -> rectangular pop.
Proof.
  intros H. unfold rectangular. destruct pop as [|row0 pop]; [constructor|].
  cbn [shape1]. pose proof (Forall_inv H) as H0.
  apply member_of_length in H0. eapply Forall_impl; [exact H|].
  intros row Hrow. apply member_of_length in Hrow. cbn beta. lia.
Qed.

Lemma members_shape1 P (pop : array2) :
  Forall (member_of P) pop -> pop <> [] ->
  shape1 pop = Z.of_nat (S (length P)).
Proof.
  intros H Hne. destruct pop as [|row0 pop]; [congruence|].
  cbn [shape1]. pose proof (Forall_inv H) as H0.
  apply member_of_length in H0. lia.
Qed.

Lemma key_hd (pop : array2) (r : nat) row :
  pop !! r = Some row -> key pop (Z.of_nat r) = hd 0 row.
Proof.
  intros Hrow. unfold key.
  rewrite (cell_row pop _ _ row); [|lia|lia|rewrite Nat2Z.id; exact Hrow].
  destruct row; reflexivity.
Qed.

Section Generation.
Import Utils Scoring Gridea.
Variables (population puzzle scratch : array2).
Variables (puzzle_sum pop_size spawn_count : Z) (P : list Z).
Hypothesis Hrp : rectangular puzzle.
Hypothesis Hp0 : shape0 puzzle <> 0.
Hypothesis Hp1 : shape1 puzzle <> 0.
Hypothesis Hrs : rectangular scratch.
Hypothesis Hsh : same_shape scratch puzzle.
Hypothesis HP : Forall (valid_point puzzle) P.
Hypothesis HL : length P <> 1%nat.
Hypothesis Hpop : 1 <= pop_size.
Hypothesis Hspawn : 1 <= spawn_count.
Hypothesis Hrows : shape0 population = pop_size + spawn_count.
Hypothesis Hmem : Forall (member_of P) population.

Let n := Z.to_nat pop_size.

Lemma generation_spec (rs : random_state) :
  exists pop1 fresh scratch' rs',
    generation population puzzle scratch puzzle_sum pop_size spawn_count rs
    = Ok (take n pop1 ++ fresh, scratch', rs')
    /\ pop1 ≡ₚ population
    /\ divided pop1 pop_size
    /\ length fresh = Z.to_nat spawn_count
    /\ Forall (fun row =>
                 member_of P row
                 /\ exists sc,
                      score_solution puzzle puzzle_sum scratch (drop 1 row)
                      = Ok sc
                      /\ hd 0 row = wrap32 sc) fresh
    /\ rectangular scratch' /\ same_shape scratch' puzzle.
Proof.
  assert (Hrect : rectangular population)
    by (apply (members_rectangular P); exact Hmem).
  assert (Hne : population <> []).
  { intros E. rewrite E in Hrows. unfold shape0 in Hrows. simpl in Hrows. lia. }
  assert (Hw : shape1 population = Z.of_nat (S (length P)))
    by (apply members_shape1; assumption).
  unfold generation, divide_population. cbv zeta.
  destruct (divide_loop_spec pop_size (S (length population)) population
              0 (shape0 population - 1) 0)
    as (pop1 & Hd & Hr1 & [S0 S1] & Hperm & Hdiv); try (assumption || lia).
  { unfold shape0. lia. }
  { intros i j Hi Hj. lia. }
  { intros i j Hi Hj. lia. }
  rewrite Hd, bind_ret.
  assert (Hmem1 : Forall (member_of P) pop1) by (rewrite Hperm; exact Hmem).
  assert (Hlen1 : length pop1 = length population)
    by (apply Permutation_length; exact Hperm).
  (* the view without the score column *)
  set (members1 := drop 1 <$> pop1).
  assert (Hrm1 : rectangular members1).
  { unfold rectangular, members1. apply Forall_fmap.
    assert (E : shape1 (drop 1 <$> pop1) = Z.of_nat (length P)).
    { destruct pop1 as [|row0 pop1]; [simpl in Hlen1; destruct population;
                                      [congruence|discriminate]|].
      cbn [fmap list_fmap shape1]. pose proof (Forall_inv Hmem1) as [_ E].
      apply Permutation_length in E. lia. }
    rewrite E. eapply Forall_impl; [exact Hmem1|].
    intros row [_ E']. apply Permutation_length in E'. cbn. lia. }
  assert (Hs0m : shape0 members1 = shape0 population).
  { unfold shape0, members1. rewrite length_fmap. lia. }
  destruct (spawn_spec members1 puzzle spawn_count P Hrm1) with (rs := rs)
    as (members2 & rs' & Hsp & Hlen2 & Hsame2 & Hnew2);
    try (assumption || lia).
  { intros r row _ Hrow. unfold members1 in Hrow.
    rewrite list_lookup_fmap in Hrow.
    destruct (pop1 !! r) as [row1|] eqn:E; [|discriminate].
    inversion Hrow. subst row.
    rewrite Forall_lookup in Hmem1. apply (Hmem1 r row1 E). }
  rewrite Hsp, bind_ret.
  rewrite Hs0m in Hsame2, Hnew2.
  replace (shape0 population - spawn_count) with pop_size in * by lia.
  set (population2 :=
         zip_with (fun row member => take 1 row ++ member) pop1 members2).
  assert (Hlm2 : length members2 = length pop1).
  { rewrite Hlen2. unfold members1. apply length_fmap. }
  assert (Hlen_p2 : length population2 = length pop1).
  { unfold population2. rewrite length_zip_with. lia. }
  assert (Hlow : take n population2 = take n pop1).
  { apply list_eq. intros r.
    destruct (decide (r < n)%nat) as [Hr|Hr].
    - rewrite !lookup_take_lt by exact Hr. unfold population2.
      rewrite lookup_zip_with. rewrite Hsame2 by (unfold n in Hr; lia).
      unfold members1. rewrite list_lookup_fmap.
      destruct (pop1 !! r) as [row|]; [|reflexivity]. cbn.
      rewrite take_drop. reflexivity.
    - rewrite !lookup_take_ge by lia. reflexivity. }
  assert (Hhigh : Forall (fun row => member_of P row) (drop n population2)).
  { apply Forall_lookup. intros r row Hrow. rewrite lookup_drop in Hrow.
    unfold population2 in Hrow. apply lookup_zip_with_Some in Hrow.
    destruct Hrow as (row1 & m & -> & Hrow1 & Hm).
    rewrite Forall_lookup in Hmem1. destruct (Hmem1 _ _ Hrow1) as [Hl1 _].
    assert (Hm' : m ≡ₚ P) by (apply (Hnew2 (n + r)%nat m); [unfold n; lia | exact Hm]).
    assert (Ht : length (take 1 row1) = 1%nat) by (rewrite length_take; lia).
    split.
    - rewrite length_app, Ht. lia.
    - rewrite drop_app_length' by (first [exact Ht | symmetry; exact Ht]).
      exact Hm'. }
  assert (Hstart : slice_start (shape0 population2) pop_size = n).
  { unfold slice_start. destruct (Z.ltb_spec pop_size 0); [lia|].
    unfold shape0. rewrite Hlen_p2, Hlen1. unfold shape0 in Hrows.
    rewrite Z.min_l by lia. reflexivity. }
  rewrite Hstart.
  assert (Hldrop : length (drop n population2) = Z.to_nat spawn_count).
  { rewrite length_drop, Hlen_p2, Hlen1. unfold shape0 in Hrows. unfold n. lia. }
  destruct (score_population_spec puzzle puzzle_sum Hrp scratch
              (drop n population2))
    as (scratch' & Hscore & Hrs' & Hsh'); try assumption.
  { apply (members_rectangular P). exact Hhigh. }
  { rewrite (members_shape1 P); [lia | exact Hhigh |].
    intros E. rewrite E in Hldrop. simpl in Hldrop. lia. }
  { unfold members_valid. eapply Forall_impl; [exact Hhigh|].
    intros row [_ Hp]. cbn beta. rewrite Hp. exact HP. }
  rewrite Hscore, bind_ret. rewrite Hlow.
  exists pop1, (scored_row puzzle puzzle_sum scratch <$> drop n population2),
    scratch', rs'.
  split; [reflexivity|]. split; [exact Hperm|]. split; [exact Hdiv|].
  split; [rewrite length_fmap; exact Hldrop|].
  split; [|split; assumption].
  apply Forall_fmap. eapply Forall_impl; [exact Hhigh|].
  intros row [Hl Hp]. cbn beta.
  assert (Hval : Forall (valid_point puzzle) (drop 1 row))
    by (rewrite Hp; exact HP).
  destruct (solution_layout puzzle scratch puzzle_sum (drop 1 row)
              Hrp Hrs Hsh Hval) as (s' & boxes & _ & Hsc & _).
  unfold compose, scored_row. rewrite Hsc. cbn [drop hd].
  split; [split; [simpl; lia | exact Hp]|].
  eexists. split; [exact Hsc | reflexivity].
Qed.
End Generation.



(** X21: one generation keeps the [pop_size] rows that score least, in
    front and as they were, and replaces every other row with a freshly
    scored permutation of the same points; the scratch grid keeps its
    shape, so that the next generation can run. *)
Theorem generation_keeps_best
        (population puzzle scratch : array2)
        (puzzle_sum pop_size spawn_count : Z) (P : list Z)
        (rs : Utils.random_state) :
  rectangular puzzle -> shape0 puzzle <> 0 -> shape1 puzzle <> 0 ->
  rectangular scratch -> same_shape scratch puzzle ->
  Forall (valid_point puzzle) P -> length P <> 1%nat ->
  1 <= pop_size -> 1 <= spawn_count ->
  shape0 population = pop_size + spawn_count ->
  Forall (member_of P) population ->
  exists population' scratch' rs',
    Gridea.generation population puzzle scratch puzzle_sum pop_size
                      spawn_count rs
    = Ok (population', scratch', rs')
    /\ length population' = length population
    /\ Forall (member_of P) population'
    /\ rectangular scratch' /\ same_shape scratch' puzzle
    /\ (exists discarded,
          take (Z.to_nat pop_size) population' ++ discarded ≡ₚ population
          /\ forall s d, s ∈ take (Z.to_nat pop_size) population' ->
               d ∈ discarded -> hd 0 s <= hd 0 d)
    /\ Forall (carries_score puzzle puzzle_sum scratch)
              (drop (Z.to_nat pop_size) population')
    /\ (Forall (carries_score puzzle puzzle_sum scratch) population ->
        Forall (carries_score puzzle puzzle_sum scratch) population').
Proof.
  intros Hrp Hp0 Hp1 Hrs Hsh HP HL Hpop Hspawn Hrows Hmem.
  destruct (generation_spec population puzzle scratch puzzle_sum pop_size
              spawn_count P Hrp Hp0 Hp1 Hrs Hsh HP HL Hpop Hspawn Hrows Hmem rs)
    as (pop1 & fresh & scratch' & rs' & Hg & Hperm & Hdiv & Hlf & Hfresh
        & Hrs' & Hsh').
  set (n := Z.to_nat pop_size) in *.
  assert (Hlen1 : length pop1 = length population)
    by (apply Permutation_length; exact Hperm).
  assert (Hn : (n <= length pop1)%nat).
  { rewrite Hlen1. unfold shape0 in Hrows. unfold n. lia. }
  assert (Hlt : length (take n pop1) = n) by (rewrite length_take; lia).
  assert (Htake : take n (take n pop1 ++ fresh) = take n pop1).
  { rewrite take_app_length' by (first [exact Hlt | symmetry; exact Hlt]).
    reflexivity. }
  assert (Hdrop : drop n (take n pop1 ++ fresh) = fresh).
  { rewrite drop_app_length' by (first [exact Hlt | symmetry; exact Hlt]).
    reflexivity. }
  assert (Hmem1 : Forall (member_of P) pop1) by (rewrite Hperm; exact Hmem).
  exists (take n pop1 ++ fresh), scratch', rs'.
  split; [exact Hg|]. rewrite Htake, Hdrop.
  split; [|split; [|split; [|split; [|split; [|split]]]]].
  - rewrite length_app, Hlt, Hlf, <- Hlen1. unfold shape0 in Hrows.
    unfold n. lia.
  - apply Forall_app. split.
    + apply Forall_take. exact Hmem1.
    + eapply Forall_impl; [exact Hfresh|]. intros row [Hm _]. exact Hm.
  - exact Hrs'.
  - exact Hsh'.
  - exists (drop n pop1). split; [rewrite take_drop; exact Hperm|].
    intros s d Hs Hd.
    apply list_elem_of_lookup in Hs. destruct Hs as [i Hi].
    apply list_elem_of_lookup in Hd. destruct Hd as [j Hj].
    assert (Hin : (i < n)%nat).
    { apply lookup_lt_Some in Hi. lia. }
    rewrite lookup_take_lt in Hi by exact Hin. rewrite lookup_drop in Hj.
    rewrite <- (key_hd pop1 i s Hi), <- (key_hd pop1 (n + j) d Hj).
    apply Hdiv.
    + unfold n in Hin. lia.
    + apply lookup_lt_Some in Hj. unfold shape0, n. lia.
  - eapply Forall_impl; [exact Hfresh|]. intros row [_ Hc]. exact Hc.
  - intros Hall. apply Forall_app. split.
    + apply Forall_take. rewrite Hperm. exact Hall.
    + eapply Forall_impl; [exact Hfresh|]. intros row [_ Hc]. exact Hc.
Qed.

(** ** The initial population *)

Section Sorting.
Import Initialize.
Variable h : heuristic.

Lemma insert_by_perm x l : insert_by h x l ≡ₚ x :: l.
Proof.
  induction l as [|y l IH]; [reflexivity|]. cbn [insert_by].
  destruct (key_lt (h x) (h y)); [reflexivity|].
  rewrite IH. apply Permutation_swap.
Qed.

Lemma sort_by_perm l : sort_by h l ≡ₚ l.
Proof.
  unfold sort_by.
  assert (G : forall acc, foldl (fun sorted x => insert_by h x sorted) acc l
                          ≡ₚ acc ++ l).
  { induction l as [|x l' IH]; intros acc; cbn [foldl].
    - rewrite app_nil_r. reflexivity.
    - rewrite IH, insert_by_perm.
      rewrite (Permutation_middle acc l' x). reflexivity. }
  apply (G []).
Qed.
End Sorting.

Lemma pack_anchor_range puzzle rc :
  rectangular puzzle ->
  shape0 puzzle <= 2 ^ 16 -> shape1 puzzle <= 2 ^ 16 ->
  rc ∈ anchors puzzle -> 0 <= pack rc < 2 ^ 32.
Proof.
  intros Hr H0 H1 Hin. destruct rc as [i j].
  apply anchors_in_range in Hin; [|assumption].
  unfold pack. cbn [fst snd]. rewrite Z.shiftl_mul_pow2 by lia.
  change (2 ^ 32) with (2 ^ 16 * 2 ^ 16). nia.
Qed.

Lemma zip_range_index {A} (l : list A) pre k x post :
  zip (range (Z.of_nat (length l))) l = pre ++ (k, x) :: post ->
  k = Z.of_nat (length pre) /\ (length pre < length l)%nat.
Proof.
  intros E.
  assert (Hl : zip (range (Z.of_nat (length l))) l !! length pre = Some (k, x)).
  { rewrite E. rewrite lookup_app_r by lia. rewrite Nat.sub_diag. reflexivity. }
  apply lookup_zip_Some in Hl. destruct Hl as [Hk Hx].
  unfold range in Hk. apply lookup_seqZ in Hk. apply lookup_lt_Some in Hx.
  split; [lia | exact Hx].
Qed.

Section InitPopulation.
Import Utils Scoring Initialize.
Variables (puzzle scratch : array2) (puzzle_sum count : Z).
Hypothesis Hrp : rectangular puzzle.
Hypothesis Hrs : rectangular scratch.
Hypothesis Hsh : same_shape scratch puzzle.
Hypothesis H0 : shape0 puzzle <= 2 ^ 16.
Hypothesis H1 : shape1 puzzle <= 2 ^ 16.

Let P := pack <$> anchors puzzle.

Lemma anchors_points_valid : Forall (valid_point puzzle) P.
Proof.
  apply Forall_forall. intros p Hp. apply elem_of_pack_anchors; assumption.
Qed.

Lemma wrap32_points (ms : list (Z * Z)) :
  ms.*2 ≡ₚ P -> wrap32 <$> ms.*2 = ms.*2.
Proof.
  intros Hperm. rewrite <- (list_fmap_id (ms.*2)) at 2.
  apply list_fmap_ext. intros k p Hk. cbn.
  assert (Hin : p ∈ P).
  { rewrite <- Hperm. apply list_elem_of_lookup. eauto. }
  unfold P in Hin. apply list_elem_of_fmap in Hin.
  destruct Hin as (rc & -> & Hrc).
  apply wrap32_small. apply (pack_anchor_range puzzle); assumption.
Qed.

(** The seeding loop: row [k] receives the points in the order of the
    [k]-th heuristic. *)
Lemma seed_rows (ms0 : list (Z * Z)) :
  ms0.*2 = P ->
  (length make_heuristic_list <= Z.to_nat count)%nat ->
  exists ms population,
    foldM (fun '(max_sizes, population) '(k, heuristic) =>
             let max_sizes := sort_by heuristic max_sizes in
             row ← getitem population k;
             population ←
               setitem population k
                       (take 1 row ++ (wrap32 <$> max_sizes.*2));
             Ok (max_sizes, population))
          (zip (range (Z.of_nat (length make_heuristic_list)))
               make_heuristic_list)
          (ms0, replicate (Z.to_nat count) (replicate (S (length ms0)) 0))
    = Ok (ms, population)
    /\ length population = Z.to_nat count
    /\ (forall (r : nat) row, population !! r = Some row ->
          length row = S (length P)
          /\ ((r < length make_heuristic_list)%nat -> member_of P row)).
Proof.
  intros HP Hcount.
  destruct (foldM_inv
              (fun pre (st : list (Z * Z) * array2) =>
                 st.1 ≡ₚ ms0
                 /\ length st.2 = Z.to_nat count
                 /\ (forall (r : nat) row, st.2 !! r = Some row ->
                       length row = S (length ms0)
                       /\ ((r < length pre)%nat -> member_of P row)))
              (fun '(max_sizes, population) '(k, heuristic) =>
                 let max_sizes := sort_by heuristic max_sizes in
                 row ← getitem population k;
                 population ←
                   setitem population k
                           (take 1 row ++ (wrap32 <$> max_sizes.*2));
                 Ok (max_sizes, population))
              (zip (range (Z.of_nat (length make_heuristic_list)))
                   make_heuristic_list)
              (ms0, replicate (Z.to_nat count) (replicate (S (length ms0)) 0)))
    as ([ms pop] & Hf & Hperm & Hlen & Hrows).
  - cbn [fst snd]. split; [reflexivity|].
    split; [apply length_replicate|].
    intros r row Hrow. apply lookup_replicate in Hrow. destruct Hrow as [-> _].
    split; [apply length_replicate | simpl; lia].
  - intros pre [k heur] post [ms pop] E (Hperm & Hlen & Hrows).
    cbn [fst snd] in *.
    destruct (zip_range_index make_heuristic_list pre k heur post E)
      as [-> Hk].
    destruct (lookup_lt_is_Some_2 pop (length pre)) as [row Hrow]; [lia|].
    cbv zeta.
    assert (Hg : getitem pop (Z.of_nat (length pre)) = Ok row).
    { apply getitem_Ok. split; [lia|]. rewrite Nat2Z.id. exact Hrow. }
    rewrite Hg, bind_ret.
    set (ms' := sort_by heur ms).
    assert (Hperm' : ms' ≡ₚ ms0).
    { unfold ms'. rewrite sort_by_perm. exact Hperm. }
    assert (Hpts : ms'.*2 ≡ₚ P).
    { rewrite <- HP. apply fmap_Permutation. exact Hperm'. }
    assert (Hs : setitem pop (Z.of_nat (length pre))
                         (take 1 row ++ (wrap32 <$> ms'.*2))
                 = Ok (<[length pre := take 1 row ++ ms'.*2]> pop)).
    { apply setitem_Ok. split; [lia|]. rewrite Nat2Z.id.
      rewrite (wrap32_points ms' Hpts). reflexivity. }
    rewrite Hs, bind_ret. eexists. split; [reflexivity|].
    cbn [fst snd]. split; [exact Hperm'|].
    split; [rewrite length_insert; exact Hlen|].
    destruct (Hrows _ _ Hrow) as [Hlrow _].
    assert (Ht : length (take 1 row) = 1%nat) by (rewrite length_take; lia).
    intros r row' Hrow'.
    destruct (decide (r = length pre)) as [->|Hne].
    + rewrite list_lookup_insert_eq in Hrow' by lia.
      inversion Hrow'. subst row'. split.
      * rewrite length_app, Ht, length_fmap.
        apply Permutation_length in Hperm'. lia.
      * intros _. split.
        -- rewrite length_app, Ht. lia.
        -- rewrite drop_app_length'
             by (first [exact Ht | symmetry; exact Ht]).
           exact Hpts.
    + rewrite list_lookup_insert_ne in Hrow' by auto.
      destruct (Hrows _ _ Hrow') as [Hl' Hm']. split; [exact Hl'|].
      rewrite length_app. cbn [length]. intros Hr. apply Hm'. lia.
  - cbn [fst snd] in *. exists ms, pop. split; [exact Hf|].
    split; [exact Hlen|].
    intros r row Hrow. destruct (Hrows r row Hrow) as [Hl Hm].
    split.
    + rewrite Hl, <- HP, length_fmap. reflexivity.
    + intros Hr. apply Hm. rewrite length_zip.
      unfold range. rewrite length_seqZ. lia.
Qed.
End InitPopulation.

Lemma rows_rectangular (a : array2) (n : nat) :
  Forall (fun row => length row = n) a -> rectangular a.
Proof.
  intros H. unfold rectangular. destruct a as [|row0 a]; [constructor|].
  cbn [shape1]. pose proof (Forall_inv H) as E0. cbn beta in E0.
  eapply Forall_impl; [exact H|]. intros row E. cbn beta in *. lia.
Qed.

Lemma scored_row_member puzzle puzzle_sum scratch P row :
  rectangular puzzle -> rectangular scratch -> same_shape scratch puzzle ->
  Forall (valid_point puzzle) P -> member_of P row ->
  member_of P (scored_row puzzle puzzle_sum scratch row)
  /\ carries_score puzzle puzzle_sum scratch
                   (scored_row puzzle puzzle_sum scratch row).
Proof.
  intros Hrp Hrs Hsh HP [Hl Hp].
  assert (Hval : Forall (valid_point puzzle) (drop 1 row))
    by (rewrite Hp; exact HP).
  destruct (solution_layout puzzle scratch puzzle_sum (drop 1 row)
              Hrp Hrs Hsh Hval) as (s' & boxes & _ & Hsc & _).
  unfold carries_score, scored_row. rewrite Hsc. cbn [drop hd].
  split; [split; [simpl; lia | exact Hp]|].
  eexists. split; [exact Hsc | reflexivity].
Qed.

Section InitPopulationSpec.
Import Utils Scoring Initialize.
Variables (puzzle scratch : array2) (puzzle_sum count : Z).
Hypothesis Hrp : rectangular puzzle.
Hypothesis Hrs : rectangular scratch.
Hypothesis Hsh : same_shape scratch puzzle.
Hypothesis H0 : shape0 puzzle <= 2 ^ 16.
Hypothesis H1 : shape1 puzzle <= 2 ^ 16.
Hypothesis Hcount : 256 <= count.

Let P := pack <$> anchors puzzle.

Lemma init_population_spec :
  exists population scratch',
    init_population puzzle puzzle_sum scratch count
    = Ok (population, scratch')
    /\ shape0 population = count
    /\ Forall (member_of P) population
    /\ Forall (carries_score puzzle puzzle_sum scratch) population
    /\ (forall r, 256 <= r < count ->
          population !! Z.to_nat r = population !! Z.to_nat (r mod 256))
    /\ rectangular scratch' /\ same_shape scratch' puzzle.
Proof.
  pose proof (anchors_points_valid puzzle Hrp H1) as HP. fold P in HP.
  pose proof make_heuristic_list_length as Hn.
  unfold init_population.
  destruct (calculate_max_sizes_spec puzzle Hrp) as (boxes & Hc & Hf).
  rewrite Hc, bind_ret. cbv zeta.
  pose proof (largest_square_points puzzle boxes _ Hf) as Hpts. fold P in Hpts.
  destruct (seed_rows puzzle count Hrp H0 H1 boxes Hpts)
    as (ms & pop & Hseed & Hlen & Hrows); [lia|].
  cbv zeta in Hseed. rewrite Hseed, bind_ret. rewrite Hn.
  rewrite Hn in Hrows.
  assert (Hmem : Forall (member_of P) (take 256 pop)).
  { apply Forall_lookup. intros r row Hrow.
    assert (Hr : (r < 256)%nat).
    { apply lookup_lt_Some in Hrow. rewrite length_take in Hrow. lia. }
    rewrite lookup_take_lt in Hrow by exact Hr.
    apply (Hrows r row Hrow). exact Hr. }
  assert (Hlt : length (take 256 pop) = 256%nat)
    by (rewrite length_take; lia).
  destruct (score_population_spec puzzle puzzle_sum Hrp scratch
              (take 256 pop))
    as (scratch' & Hscore & Hrs' & Hsh'); try assumption.
  { apply (members_rectangular P). exact Hmem. }
  { rewrite (members_shape1 P); [lia | exact Hmem |].
    intros E. rewrite E in Hlt. discriminate. }
  { unfold members_valid. eapply Forall_impl; [exact Hmem|].
    intros row [_ Hp]. cbn beta. rewrite Hp. exact HP. }
  rewrite Hscore, bind_ret.
  set (scored := scored_row puzzle puzzle_sum scratch <$> take 256 pop).
  assert (Hls : length scored = 256%nat)
    by (unfold scored; rewrite length_fmap; exact Hlt).
  assert (Hgood : Forall (fun row => member_of P row
                            /\ carries_score puzzle puzzle_sum scratch row)
                         scored).
  { unfold scored. apply Forall_fmap. eapply Forall_impl; [exact Hmem|].
    intros row Hm. unfold compose. apply scored_row_member; assumption. }
  set (population1 := scored ++ drop 256 pop).
  assert (Hl1 : length population1 = Z.to_nat count).
  { unfold population1. rewrite length_app, Hls, length_drop. lia. }
  assert (Hr1 : rectangular population1).
  { apply (rows_rectangular _ (S (length P))). unfold population1.
    apply Forall_app. split.
    - eapply Forall_impl; [exact Hgood|]. intros row [Hm _].
      apply member_of_length. exact Hm.
    - apply Forall_lookup. intros r row Hrow. rewrite lookup_drop in Hrow.
      apply (Hrows _ _ Hrow). }
  destruct (fill_population_repeating_spec population1 256 Hr1)
    as (population' & Hfill & Hlen' & Hlow & Hhigh); [lia|].
  change (Z.of_nat 256) with 256. rewrite Hfill, bind_ret.
  assert (Hsrc : forall r : Z, 0 <= r < 256 ->
            exists row, population1 !! Z.to_nat r = Some row
                        /\ member_of P row
                        /\ carries_score puzzle puzzle_sum scratch row).
  { intros r Hr.
    destruct (lookup_lt_is_Some_2 scored (Z.to_nat r)) as [row Hrow]; [lia|].
    exists row. split.
    - unfold population1. rewrite lookup_app_l by lia. exact Hrow.
    - rewrite Forall_lookup in Hgood. exact (Hgood _ _ Hrow). }
  assert (Hall : forall (r : nat) row, population' !! r = Some row ->
            member_of P row /\ carries_score puzzle puzzle_sum scratch row).
  { intros r row Hrow.
    assert (Hr : (r < Z.to_nat count)%nat).
    { apply lookup_lt_Some in Hrow. lia. }
    destruct (decide (Z.of_nat r < 256)) as [Hlo|Hhi].
    - destruct (Hsrc (Z.of_nat r)) as (row' & Hrow' & Hm); [lia|].
      rewrite <- Hlow in Hrow' by lia. rewrite Nat2Z.id in Hrow'.
      rewrite Hrow in Hrow'. inversion Hrow'. subst row'. exact Hm.
    - pose proof (Z.mod_pos_bound (Z.of_nat r) 256 ltac:(lia)) as Hmod.
      destruct (Hsrc (Z.of_nat r mod 256)) as (row' & Hrow' & Hm); [lia|].
      rewrite <- Hhigh in Hrow' by (unfold shape0; lia).
      rewrite Nat2Z.id in Hrow'.
      rewrite Hrow in Hrow'. inversion Hrow'. subst row'. exact Hm. }
  exists population', scratch'. split; [reflexivity|].
  split; [unfold shape0; lia|].
  split; [apply Forall_lookup; intros r row Hrow; apply (Hall r row Hrow)|].
  split; [apply Forall_lookup; intros r row Hrow; apply (Hall r row Hrow)|].
  split; [|split; assumption].
  intros r Hr. rewrite Hhigh by (unfold shape0; lia).
  pose proof (Z.mod_pos_bound r 256 ltac:(lia)) as Hmod.
  rewrite Hlow by lia. reflexivity.
Qed.
End InitPopulationSpec.

(** X22: with room for the 256 seeds, [init_population] returns a
    population in which every row is a permutation of the valid points
    behind its own score, the rows from 256 on repeating the seeds. *)
Theorem init_population_seeds_valid_members
        (puzzle scratch : array2) (puzzle_sum count : Z) :
  rectangular puzzle ->
  rectangular scratch -> same_shape scratch puzzle ->
  shape0 puzzle <= 2 ^ 16 -> shape1 puzzle <= 2 ^ 16 ->
  256 <= count ->
  exists population scratch',
    Initialize.init_population puzzle puzzle_sum scratch count
    = Ok (population, scratch')
    /\ shape0 population = count
    /\ Forall (member_of (pack <$> anchors puzzle)) population
    /\ Forall (carries_score puzzle puzzle_sum scratch) population
    /\ (forall r, 256 <= r < count ->
          population !! Z.to_nat r = population !! Z.to_nat (r mod 256))
    /\ rectangular scratch' /\ same_shape scratch' puzzle.
Proof.
  intros Hrp Hrs Hsh H0 H1 Hcount.
  exact (init_population_spec puzzle scratch puzzle_sum count
           Hrp Hrs Hsh H0 H1 Hcount).
Qed.

Section InitPopulationShort.
Import Utils Scoring Initialize.
Variables (puzzle scratch : array2) (puzzle_sum count : Z).
Hypothesis Hrp : rectangular puzzle.
Hypothesis Hcount : 0 <= count < 256.

Lemma seed_rows_short (ms0 : list (Z * Z)) (pop0 : array2) :
  length pop0 = Z.to_nat count ->
  foldM (fun '(max_sizes, population) '(k, heuristic) =>
           row ← getitem population k;
           population ←
             setitem population k
                     (take 1 row
                      ++ (wrap32 <$> (sort_by heuristic max_sizes).*2));
           Ok (sort_by heuristic max_sizes, population))
        (zip (range (Z.of_nat (length make_heuristic_list)))
             make_heuristic_list)
        (ms0, pop0)
  = Raise IndexError.
Proof.
  intros Hlen0. pose proof make_heuristic_list_length as Hn.
  set (l := zip (range (Z.of_nat (length make_heuristic_list)))
                make_heuristic_list).
  assert (Hll : length l = 256%nat).
  { unfold l. rewrite length_zip. unfold range. rewrite length_seqZ. lia. }
  rewrite <- (take_drop (Z.to_nat count) l). rewrite foldM_app.
  destruct (foldM_inv
              (fun pre (st : list (Z * Z) * array2) =>
                 length st.2 = Z.to_nat count)
              (fun '(max_sizes, population) '(k, heuristic) =>
                 row ← getitem population k;
                 population ←
                   setitem population k
                           (take 1 row
                            ++ (wrap32 <$> (sort_by heuristic max_sizes).*2));
                 Ok (sort_by heuristic max_sizes, population))
              (take (Z.to_nat count) l) (ms0, pop0))
    as ([ms pop] & Hf & Hlen).
  - exact Hlen0.
  - intros pre [k heur] post [ms pop] E Hlen. cbn [fst snd] in *.
    assert (E' : l = pre ++ (k, heur) :: (post ++ drop (Z.to_nat count) l)).
    { rewrite <- (take_drop (Z.to_nat count) l) at 1. rewrite E.
      rewrite <- app_assoc. reflexivity. }
    destruct (zip_range_index make_heuristic_list pre k heur _ E')
      as [-> _].
    assert (Hpre : (length pre < Z.to_nat count)%nat).
    { assert (Hlt : length (take (Z.to_nat count) l) = Z.to_nat count)
        by (rewrite length_take; lia).
      rewrite E, length_app in Hlt. cbn [length] in Hlt. lia. }
    destruct (lookup_lt_is_Some_2 pop (length pre)) as [row Hrow]; [lia|].
    assert (Hg : getitem pop (Z.of_nat (length pre)) = Ok row).
    { apply getitem_Ok. split; [lia|]. rewrite Nat2Z.id. exact Hrow. }
    rewrite Hg, bind_ret.
    eexists (_, <[length pre := _]> pop). split.
    + assert (Hs : forall v, setitem pop (Z.of_nat (length pre)) v
                             = Ok (<[length pre := v]> pop)).
      { intros v. apply setitem_Ok. split; [lia|]. rewrite Nat2Z.id.
        reflexivity. }
      rewrite Hs, bind_ret. reflexivity.
    + cbn [snd]. rewrite length_insert. exact Hlen.
  - cbn [snd] in Hlen. rewrite Hf, bind_ret.
    destruct (lookup_lt_is_Some_2 l (Z.to_nat count)) as [[k heur] Hk]; [lia|].
    rewrite (drop_S l (k, heur) (Z.to_nat count) Hk). cbn [foldM].
    assert (k = count).
    { unfold l in Hk. apply lookup_zip_Some in Hk. destruct Hk as [Hk _].
      unfold range in Hk. apply lookup_seqZ in Hk. lia. }
    subst k.
    assert (Hg : getitem pop count = Raise IndexError).
    { unfold getitem. rewrite decide_True by lia.
      rewrite lookup_ge_None_2 by lia. reflexivity. }
    rewrite Hg. reflexivity.
Qed.
End InitPopulationShort.

(** X23: a population of fewer than 256 rows has no room for the seeds:
    [init_population] indexes row [count], which the matrix does not
    have. *)
Theorem init_population_needs_256_rows
        (puzzle scratch : array2) (puzzle_sum count : Z) :
  rectangular puzzle -> 0 <= count < 256 ->
  Initialize.init_population puzzle puzzle_sum scratch count
  = Raise IndexError.
Proof.
  intros Hrp Hcount. unfold Initialize.init_population.
  destruct (calculate_max_sizes_spec puzzle Hrp) as (boxes & Hc & _).
  rewrite Hc, bind_ret. cbv zeta.
  rewrite (seed_rows_short count Hcount boxes); [reflexivity|].
  apply length_replicate.
Qed.

(** ** The best member *)

Section Argmin.
Import GrideaWorker.



End Argmin.

(** ** The worker's loop *)




Section Evolve.
Import Utils Scoring Gridea GrideaWorker.
Variable json_dumps : option string -> Z -> list Z -> string.
Variables (self : nat) (peers : gset nat).
Variables (puzzle_id : option string) (puzzle : array2).
Variables (puzzle_sum pop_size spawn_count : Z) (P : list Z).
Hypothesis Hrp : rectangular puzzle.
Hypothesis Hp0 : shape0 puzzle <> 0.
Hypothesis Hp1 : shape1 puzzle <> 0.
Hypothesis HP : Forall (valid_point puzzle) P.
Hypothesis HL : length P <> 1%nat.
Hypothesis Hpop : 1 <= pop_size.
Hypothesis Hspawn : 1 <= spawn_count.






End Evolve.




(** ** A puzzle with a single valid point *)

Section SinglePoint.
Import Utils Gridea.

Lemma copy_and_mutate_single (solution_in solution_out : list Z) rs :
  length solution_out = 1%nat ->
  copy_and_mutate solution_in solution_out rs = Raise ZeroDivisionError.
Proof.
  intros Hl. unfold copy_and_mutate. rewrite Hl.
  destruct (xorshift rs) as [r rs1]. reflexivity.
Qed.

Lemma crossover_and_mutate_single
      (solution_a solution_b solution_out : list Z) rs (puzzle : array2) :
  length solution_out = 1%nat -> shape0 puzzle <> 0 -> shape1 puzzle <> 0 ->
  crossover_and_mutate solution_a solution_b solution_out rs puzzle
  = Raise ZeroDivisionError.
Proof.
  intros Hl Hp0 Hp1. unfold crossover_and_mutate. rewrite Hl. cbv zeta.
  destruct (xorshift rs) as [r1 rs1].
  change (py_mod r1 10000) with (Ok (r1 mod 10000)). rewrite bind_ret.
  destruct (xorshift rs1) as [r2 rs2].
  change (py_mod r2 10000) with (Ok (r2 mod 10000)). rewrite bind_ret.
  unfold py_floordiv.
  rewrite (proj2 (Z.eqb_neq _ _) Hp0), (proj2 (Z.eqb_neq _ _) Hp1).
  rewrite !bind_ret.
  destruct (xorshift rs2) as [r3 rs3]. reflexivity.
Qed.

Lemma spawn_single_point (population puzzle : array2) (spawn_count : Z) rs :
  Forall (fun row => length row = 1%nat) population ->
  1 <= spawn_count < shape0 population ->
  shape0 puzzle <> 0 -> shape1 puzzle <> 0 ->
  spawn_new_population_members population spawn_count puzzle rs
  = Raise ZeroDivisionError.
Proof.
  intros Hrows Hc Hp0 Hp1. unfold spawn_new_population_members, range2.
  set (split := shape0 population - spawn_count).
  rewrite seqZ_cons by lia. cbn [foldM].
  assert (Hget : forall a, 0 <= a < shape0 population ->
            exists row, getitem population a = Ok row
                        /\ length row = 1%nat).
  { intros a Ha.
    destruct (lookup_lt_is_Some_2 population (Z.to_nat a)) as [row Hrow].
    { unfold shape0 in Ha. lia. }
    exists row. split; [apply getitem_Ok; split; [lia | exact Hrow]|].
    rewrite Forall_lookup in Hrows. exact (Hrows _ _ Hrow). }
  destruct (xorshift rs) as [r1 rs1].
  destruct (py_mod_pos r1 split) as (a & Ha & Hra); [unfold split; lia|].
  rewrite Ha, bind_ret.
  destruct (Hget a) as (row_a & Hga & _); [unfold split in Hra; lia|].
  destruct (Hget split) as (row_k & Hgk & Hlk); [unfold split; lia|].
  destruct (split mod 2 =? 0).
  - destruct (xorshift rs1) as [r2 rs2].
    destruct (py_mod_pos r2 split) as (b & Hb & Hrb); [unfold split; lia|].
    rewrite Hb, bind_ret.
    destruct (Hget b) as (row_b & Hgb & _); [unfold split in Hrb; lia|].
    rewrite Hga, bind_ret, Hgb, bind_ret, Hgk, bind_ret.
    rewrite crossover_and_mutate_single by assumption. reflexivity.
  - rewrite Hga, bind_ret, Hgk, bind_ret.
    rewrite copy_and_mutate_single by assumption. reflexivity.
Qed.

Lemma generation_single_point
      (population puzzle scratch : array2)
      (puzzle_sum pop_size spawn_count : Z) (P : list Z) rs :
  shape0 puzzle <> 0 -> shape1 puzzle <> 0 ->
  length P = 1%nat ->
  1 <= pop_size -> 1 <= spawn_count ->
  shape0 population = pop_size + spawn_count ->
  Forall (member_of P) population ->
  generation population puzzle scratch puzzle_sum pop_size spawn_count rs
  = Raise ZeroDivisionError.
Proof.
  intros Hp0 Hp1 HL Hpop Hspawn Hrows Hmem.
  assert (Hrect : rectangular population)
    by (apply (members_rectangular P); exact Hmem).
  assert (Hne : population <> []).
  { intros E. rewrite E in Hrows. unfold shape0 in Hrows. simpl in Hrows. lia. }
  assert (Hw : shape1 population = Z.of_nat (S (length P)))
    by (apply members_shape1; assumption).
  unfold generation, divide_population. cbv zeta.
  destruct (divide_loop_spec pop_size (S (length population)) population
              0 (shape0 population - 1) 0)
    as (pop1 & Hd & Hr1 & [S0 S1] & Hperm & Hdiv); try (assumption || lia).
  { unfold shape0. lia. }
  { intros i j Hi Hj. lia. }
  { intros i j Hi Hj. lia. }
  rewrite Hd, bind_ret.
  assert (Hmem1 : Forall (member_of P) pop1) by (rewrite Hperm; exact Hmem).
  rewrite spawn_single_point; [reflexivity| | |assumption|assumption].
  - apply Forall_fmap. eapply Forall_impl; [exact Hmem1|].
    intros row [_ Hp]. cbn. apply Permutation_length in Hp. lia.
  - unfold shape0. rewrite length_fmap. unfold shape0 in S0, Hrows. lia.
Qed.
End SinglePoint.

(** X25: on a puzzle with exactly one valid point the first round of
    [solve] divides by zero, in [copy_and_mutate] or
    [crossover_and_mutate]. *)
Theorem solve_single_point_raises
        (json_dumps : option string -> Z -> list Z -> string)
        (self : nat) (peers : gset nat) (puzzle_id : option string)
        (puzzle scratch : array2) (pop_size spawn_count : Z)
        (rs : Utils.random_state) (cls : Network.GlobalBest)
        (ticks : list (option Q)) (now : Q) :
  rectangular puzzle ->
  shape0 puzzle <= 2 ^ 16 -> shape1 puzzle <= 2 ^ 16 ->
  rectangular scratch -> same_shape scratch puzzle ->
  length (anchors puzzle) = 1%nat ->
  1 <= pop_size -> 1 <= spawn_count -> 256 <= pop_size + spawn_count ->
  ticks <> [] ->
  GrideaWorker.solve json_dumps self peers puzzle_id puzzle scratch
                     pop_size spawn_count rs cls ticks now
  = Raise ZeroDivisionError.
Proof.
  intros Hrp H0 H1 Hrs Hsh HL Hpop Hspawn Hcount Hticks.
  destruct (init_population_spec puzzle scratch (np_sum puzzle)
              (pop_size + spawn_count) Hrp Hrs Hsh H0 H1 Hcount)
    as (seeds & scratch1 & Hinit & Hrows & Hmem & _).
  assert (Hdims : shape0 puzzle <> 0 /\ shape1 puzzle <> 0).
  { destruct (anchors puzzle) as [|[i j] l] eqn:E; [discriminate|].
    assert (Hin : (i, j) ∈ anchors puzzle) by (rewrite E; left).
    apply anchors_in_range in Hin; [|assumption]. lia. }
  destruct Hdims as [Hp0 Hp1].
  unfold GrideaWorker.solve. cbv zeta. rewrite Hinit, bind_ret.
  destruct ticks as [|tick ticks]; [congruence|].
  cbn [GrideaWorker.evolve].
  rewrite (generation_single_point seeds puzzle scratch1 (np_sum puzzle)
             pop_size spawn_count (pack <$> anchors puzzle));
    try assumption.
  - reflexivity.
  - rewrite length_fmap. exact HL.
Qed.

(** ** Broadcasting a new best *)

Section Broadcast.
Import Network.
Variable json_dumps : option string -> Z -> list Z -> string.

Lemma elem_of_broadcast self line peers a :
  a ∈ broadcast self line peers
  <-> exists p, p ∈ peers /\ p <> self /\ a = SendLine p line.
Proof.
  unfold broadcast. rewrite list_elem_of_fmap. split.
  - intros (p & -> & Hp). apply list_elem_of_filter in Hp.
    destruct Hp as [Hne Hp]. apply elem_of_elements in Hp. eauto.
  - intros (p & Hp & Hne & ->). exists p. split; [reflexivity|].
    apply list_elem_of_filter. split; [exact Hne|].
    apply elem_of_elements. exact Hp.
Qed.

Lemma NoDup_broadcast self line peers : NoDup (broadcast self line peers).
Proof.
  unfold broadcast. apply NoDup_fmap_2.
  - intros p q E. inversion E. reflexivity.
  - apply NoDup_filter, NoDup_elements.
Qed.

Lemma update_accepts_same_now cls pid sc sol now now' :
  (update cls pid sc sol now').1 = (update cls pid sc sol now).1.
Proof.
  unfold update. destruct (negb _); [reflexivity|].
  destruct (match score cls with Some c => sc <? c | None => true end);
    reflexivity.
Qed.

Lemma update_twice cls pid sc sol now now' :
  (update (update cls pid sc sol now).2 pid sc sol now').1 = false.
Proof.
  destruct ((update cls pid sc sol now).1) eqn:Hacc.
  - pose proof Hacc as Hid. apply update_true_iff in Hid.
    destruct Hid as [Hid _].
    assert (E : (update cls pid sc sol now).2
                = MkGlobalBest (puzzle_id cls) (Some sc) (Some sol) now).
    { revert Hacc. unfold update. destruct (negb _); [discriminate|].
      destruct (match score cls with Some c => sc <? c | None => true end);
        [reflexivity | discriminate]. }
    rewrite E. unfold update. cbn [puzzle_id score].
    rewrite bool_decide_eq_true_2 by exact Hid. cbn [negb].
    rewrite Z.ltb_irrefl. reflexivity.
  - rewrite (update_false_unchanged _ _ _ _ _ Hacc).
    rewrite (update_accepts_same_now cls pid sc sol now now'). exact Hacc.
Qed.
End Broadcast.

(** X26: [best] sends the report to every peer but the caller, once each,
    exactly when the register accepts it, and a report that is repeated
    is not sent again. *)
Theorem best_broadcasts_once
        (json_dumps : option string -> Z -> list Z -> string)
        (self : nat) (peers : gset nat) (cls : Network.GlobalBest)
        (puzzle_id : option string) (score : Z) (solution : list Z)
        (now : Q) :
  let accepted := (Network.update cls puzzle_id score solution now).1 in
  let r := Network.best json_dumps self peers cls puzzle_id score solution
                        now in
  r.1 = (Network.update cls puzzle_id score solution now).2
  /\ (accepted = false -> r = (cls, []))
  /\ (accepted = true ->
      NoDup r.2
      /\ forall a, a ∈ r.2 <->
           exists p, p ∈ peers /\ p <> self
                     /\ a = Network.SendLine
                              p (json_dumps puzzle_id score solution))
  /\ (forall self' peers' now',
        (Network.best json_dumps self' peers' r.1 puzzle_id score solution
                      now').2 = []).
Proof.
  cbn zeta. unfold Network.best.
  pose proof (update_twice cls puzzle_id score solution now) as Htwice.
  pose proof (update_false_unchanged cls puzzle_id score solution now) as Hun.
  destruct (Network.update cls puzzle_id score solution now) as [acc cls1].
  cbn [fst snd] in *. split; [reflexivity|]. split; [|split].
  - intros ->. rewrite (Hun eq_refl). reflexivity.
  - intros ->. split; [apply NoDup_broadcast|].
    intros a. apply elem_of_broadcast.
  - intros self' peers' now'. specialize (Htwice now').
    destruct (Network.update cls1 puzzle_id score solution now') as [acc' cls2].
    cbn [fst snd] in *. rewrite Htwice. reflexivity.
Qed.

(** ** Inputs outside the contract *)

(** X27: the scratch grid is scratch: [score_solution] returns the same
    for any two grids of the puzzle's shape, whatever they hold and
    whatever the solution. *)
Theorem score_solution_ignores_scratch
        (puzzle scratch1 scratch2 : array2) (puzzle_sum : Z)
        (solution : list Z) :
  rectangular puzzle ->
  rectangular scratch1 -> same_shape scratch1 puzzle ->
  rectangular scratch2 -> same_shape scratch2 puzzle ->
  Scoring.score_solution puzzle puzzle_sum scratch1 solution
  = Scoring.score_solution puzzle puzzle_sum scratch2 solution
  /\ Scoring.score_solution_scratch puzzle scratch1 solution
     = Scoring.score_solution_scratch puzzle scratch2 solution.
Proof.
  intros Hrp R1 [A1 B1] R2 [A2 B2]. split.
  - apply score_solution_any_scratch; try assumption; split; assumption.
  - unfold Scoring.score_solution_scratch. cbv zeta.
    rewrite !copy_2d_same_shape by (assumption || (split; congruence)).
    reflexivity.
Qed.


(** X29: [fill_population_repeating] with any positive number of seeds
    leaves the seeds alone and makes every later row the seed of its
    index modulo that number; with no seed it divides by zero. *)
Theorem fill_population_repeating_any_count (population : array2) (n : Z) :
  rectangular population ->
  (0 < n ->
   exists population',
     Initialize.fill_population_repeating population n = Ok population'
     /\ length population' = length population
     /\ (forall r, 0 <= r < n ->
           population' !! Z.to_nat r = population !! Z.to_nat r)
     /\ (forall r, n <= r < shape0 population ->
           population' !! Z.to_nat r = population !! Z.to_nat (r mod n)))
  /\ (n = 0 -> population <> [] ->
      Initialize.fill_population_repeating population n
      = Raise ZeroDivisionError).
Proof.
  intros Hr. split.
  - intros Hn. apply fill_population_repeating_spec; assumption.
  - intros -> Hne. unfold Initialize.fill_population_repeating, range2.
    rewrite Z.sub_0_r.
    rewrite seqZ_cons
      by (unfold shape0; destruct population; simpl; [congruence | lia]).
    reflexivity.
Qed.

(** ** Instances *)

(** The hypotheses of the theorems above hold on concrete data. *)
Ltac rect :=
  unfold rectangular; vm_compute;
  repeat first [apply List.Forall_nil | apply List.Forall_cons; [reflexivity|]].
Ltac bin :=
  unfold binary; vm_compute;
  repeat first [apply List.Forall_nil | apply List.Forall_cons; [lia|]
               | apply List.Forall_cons].

Lemma full4_solution_perm : full4_solution ≡ₚ full4_points.
Proof.
  unfold full4_solution, full4_points.
  apply (Permutation_middle [0; 1; 2; 65536]).
Defined.

Lemma score_solution_matches_expand_solution_witness :
  rectangular full4 /\ binary full4 /\ rectangular zeros4
  /\ same_shape zeros4 full4
  /\ Scoring.get_valid_points full4 = Ok full4_points
  /\ full4_solution ≡ₚ full4_points
  /\ exists squares,
       Scoring.expand_solution full4 full4_solution = Ok squares
       /\ Scoring.score_solution full4 (np_sum full4) zeros4 full4_solution
          = Ok (Z.of_nat (length squares)).
Proof.
  assert (H1 : rectangular full4) by rect.
  assert (H2 : binary full4) by bin.
  assert (H3 : rectangular zeros4) by rect.
  assert (H4 : same_shape zeros4 full4) by (split; reflexivity).
  assert (H5 : Scoring.get_valid_points full4 = Ok full4_points)
    by (vm_compute; reflexivity).
  pose proof full4_solution_perm as H6.
  repeat (split; [assumption|]).
  exact (score_solution_matches_expand_solution full4 zeros4 full4_points
           full4_solution H1 H2 H3 H4 H5 H6).
Defined.

Lemma expand_solution_tiles_interior_witness :
  rectangular full4 /\ binary full4
  /\ Scoring.get_valid_points full4 = Ok full4_points
  /\ full4_solution ≡ₚ full4_points
  /\ exists squares,
       Scoring.expand_solution full4 full4_solution = Ok squares
       /\ pairwise_disjoint covers squares
       /\ forall r c, (exists q, q ∈ squares /\ covers q r c)
                      <-> cell full4 r c = 1.
Proof.
  assert (H1 : rectangular full4) by rect.
  assert (H2 : binary full4) by bin.
  assert (H5 : Scoring.get_valid_points full4 = Ok full4_points)
    by (vm_compute; reflexivity).
  pose proof full4_solution_perm as H6.
  repeat (split; [assumption|]).
  exact (expand_solution_tiles_interior full4 full4_points full4_solution
           H1 H2 H5 H6).
Defined.

Lemma divide_population_divides_witness :
  rectangular sample_population /\ 0 < shape1 sample_population
  /\ 0 <= 3 < shape0 sample_population
  /\ exists pop',
       Utils.divide_population sample_population 3 = Ok pop'
       /\ same_shape pop' sample_population
       /\ forall i j, 0 <= i < 3 -> 3 <= j < shape0 pop' ->
            cell pop' i 0 <= cell pop' j 0.
Proof.
  assert (H1 : rectangular sample_population) by rect.
  assert (H2 : 0 < shape1 sample_population) by (vm_compute; reflexivity).
  assert (H3 : 0 <= 3 < shape0 sample_population) by (vm_compute; split; congruence).
  repeat (split; [assumption|]).
  exact (divide_population_divides sample_population 3 H1 H2 H3).
Defined.

Lemma divide_population_permutes_rows_witness :
  rectangular sample_population /\ 0 < shape1 sample_population
  /\ 0 <= 3 < shape0 sample_population
  /\ exists pop', Utils.divide_population sample_population 3 = Ok pop'
                  /\ pop' ≡ₚ sample_population.
Proof.
  assert (H1 : rectangular sample_population) by rect.
  assert (H2 : 0 < shape1 sample_population) by (vm_compute; reflexivity).
  assert (H3 : 0 <= 3 < shape0 sample_population) by (vm_compute; split; congruence).
  repeat (split; [assumption|]).
  exact (proj2 (proj2 (divide_population_permutes_rows sample_population 3
                         H1 H2 H3))).
Defined.


Lemma score_4x4_point_1_1_then_0_0_witness :
  rectangular zeros4 /\ same_shape zeros4 full4
  /\ Scoring.score_solution full4 (np_sum full4) zeros4 [pt_1_1; pt_0_0] = Ok 8.
Proof.
  assert (H1 : rectangular zeros4) by rect.
  assert (H2 : same_shape zeros4 full4) by (split; reflexivity).
  repeat (split; [assumption|]).
  exact (proj1 (score_4x4_point_1_1_then_0_0 zeros4 H1 H2)).
Defined.

Lemma seeding_fills_by_repetition_witness :
  rectangular seeded_population
  /\ exists population',
       Initialize.fill_population_repeating seeded_population
         (Z.of_nat (length Initialize.make_heuristic_list)) = Ok population'
       /\ population' !! 257%nat = Some [1; 7].
Proof.
  assert (H1 : rectangular seeded_population) by rect.
  split; [assumption|].
  destruct (seeding_fills_by_repetition seeded_population H1)
    as (_ & p & Hf & _ & _ & Hhigh).
  exists p. split; [exact Hf|].
  exact (proj1 (Hhigh 257 ltac:(vm_compute; split; congruence))).
Defined.

Lemma score_solution_stays_in_bounds_witness :
  rectangular full4 /\ rectangular zeros4 /\ same_shape zeros4 full4
  /\ Forall (valid_point full4) [pt_1_1; pt_0_0]
  /\ exists score,
       Scoring.score_solution full4 16 zeros4 [pt_1_1; pt_0_0] = Ok score.
Proof.
  assert (H1 : rectangular full4) by rect.
  assert (H3 : rectangular zeros4) by rect.
  assert (H4 : same_shape zeros4 full4) by (split; reflexivity).
  assert (H5 : Forall (valid_point full4) [pt_1_1; pt_0_0]).
  { repeat first [apply List.Forall_nil
                 | apply List.Forall_cons;
                   [vm_compute; repeat split; congruence|]]. }
  repeat (split; [assumption|]).
  exact (score_solution_stays_in_bounds full4 zeros4 16 [pt_1_1; pt_0_0]
           H1 H3 H4 H5).
Defined.

Ltac valid_points :=
  repeat first [apply List.Forall_nil
               | apply List.Forall_cons;
                 [vm_compute; repeat split; congruence|]].

Lemma shift_to_moves_one_witness :
  0 <= 3 < Z.of_nat (length [10; 20; 30; 40])
  /\ 0 <= 1 < Z.of_nat (length [10; 20; 30; 40])
  /\ exists array',
       Utils.shift_to 3 1 [10; 20; 30; 40] = Ok array'
       /\ array' !! Z.to_nat 1 = [10; 20; 30; 40] !! Z.to_nat 3
       /\ delete (Z.to_nat 1) array' = delete (Z.to_nat 3) [10; 20; 30; 40]
       /\ array' ≡ₚ [10; 20; 30; 40].
Proof.
  assert (H1 : 0 <= 3 < Z.of_nat (length [10; 20; 30; 40])) by (simpl; lia).
  assert (H2 : 0 <= 1 < Z.of_nat (length [10; 20; 30; 40])) by (simpl; lia).
  repeat (split; [assumption|]).
  exact (shift_to_moves_one 3 1 [10; 20; 30; 40] H1 H2).
Defined.

Lemma mutate_permutes_witness :
  0 <= 2 < Z.of_nat (length [10; 20; 30; 40])
  /\ 0 <= 1 < Z.of_nat (length [10; 20; 30; 40])
  /\ exists out,
       Gridea.mutate [10; 20; 30; 40] 2 1 = Ok out
       /\ out ≡ₚ [10; 20; 30; 40].
Proof.
  assert (H1 : 0 <= 2 < Z.of_nat (length [10; 20; 30; 40])) by (simpl; lia).
  assert (H2 : 0 <= 1 < Z.of_nat (length [10; 20; 30; 40])) by (simpl; lia).
  repeat (split; [assumption|]).
  destruct (mutate_permutes [10; 20; 30; 40] 2 1 H1 H2) as (out & Hm & Hp & _).
  exists out. split; assumption.
Defined.

Lemma xorshift_state_injective_witness :
  words32 (Utils.RandomState 1 2 3 4)
  /\ words32 (Utils.RandomState 5 6 7 8)
  /\ words32 (Utils.xorshift (Utils.RandomState 1 2 3 4)).2
  /\ 0 <= (Utils.xorshift (Utils.RandomState 1 2 3 4)).1 < 2 ^ 32.
Proof.
  assert (H1 : words32 (Utils.RandomState 1 2 3 4))
    by (unfold words32; cbn; lia).
  assert (H2 : words32 (Utils.RandomState 5 6 7 8))
    by (unfold words32; cbn; lia).
  split; [exact H1|]. split; [exact H2|].
  destruct (xorshift_state_injective (Utils.RandomState 1 2 3 4)
              (Utils.RandomState 5 6 7 8) H1 H2) as (A & B & _).
  exact (conj A B).
Defined.

Lemma xorshift_zero_state_unreachable_witness :
  words32 (Utils.RandomState 1 2 3 4)
  /\ xorshift_iter 5 (Utils.RandomState 1 2 3 4) <> Utils.RandomState 0 0 0 0.
Proof.
  assert (H1 : words32 (Utils.RandomState 1 2 3 4))
    by (unfold words32; cbn; lia).
  split; [assumption|].
  apply (proj2 (xorshift_zero_state_unreachable (Utils.RandomState 1 2 3 4)
                  5 H1)).
  discriminate.
Defined.

Lemma zero_fill_2d_zeroes_witness :
  rectangular full4
  /\ exists d,
       Utils.zero_fill_2d full4 = Ok d
       /\ same_shape d full4
       /\ Forall (Forall (fun v => v = 0)) d.
Proof.
  assert (H1 : rectangular full4) by rect.
  split; [assumption|]. exact (zero_fill_2d_zeroes full4 H1).
Defined.

Lemma get_valid_points_enumerates_witness :
  rectangular full4 /\ binary full4
  /\ shape0 full4 <= 2 ^ 16 /\ shape1 full4 <= 2 ^ 16
  /\ exists vps,
       Scoring.get_valid_points full4 = Ok vps
       /\ vps = pack <$> anchors full4
       /\ NoDup vps
       /\ forall p, p ∈ vps <-> valid_point full4 p.
Proof.
  assert (H1 : rectangular full4) by rect.
  assert (H2 : binary full4) by bin.
  assert (H3 : shape0 full4 <= 2 ^ 16) by (vm_compute; congruence).
  assert (H4 : shape1 full4 <= 2 ^ 16) by (vm_compute; congruence).
  repeat (split; [assumption|]).
  exact (get_valid_points_enumerates full4 H1 H2 H3 H4).
Defined.

Lemma calculate_max_sizes_largest_witness :
  rectangular full4
  /\ exists boxes,
       Scoring.calculate_max_sizes full4 = Ok boxes
       /\ Forall2 (largest_square_at full4) boxes (anchors full4)
       /\ boxes.*2 = pack <$> anchors full4.
Proof.
  assert (H1 : rectangular full4) by rect.
  split; [assumption|]. exact (calculate_max_sizes_largest full4 H1).
Defined.

Lemma max_sizes_points_are_valid_points_witness :
  rectangular full4 /\ binary full4
  /\ shape0 full4 <= 2 ^ 16 /\ shape1 full4 <= 2 ^ 16
  /\ exists boxes,
       Scoring.calculate_max_sizes full4 = Ok boxes
       /\ Scoring.get_valid_points full4 = Ok boxes.*2.
Proof.
  assert (H1 : rectangular full4) by rect.
  assert (H2 : binary full4) by bin.
  assert (H3 : shape0 full4 <= 2 ^ 16) by (vm_compute; congruence).
  assert (H4 : shape1 full4 <= 2 ^ 16) by (vm_compute; congruence).
  repeat (split; [assumption|]).
  exact (max_sizes_points_are_valid_points full4 H1 H2 H3 H4).
Defined.

Lemma expand_solution_layout_witness :
  rectangular full4
  /\ Forall (valid_point full4) [pt_1_1; pt_0_0]
  /\ exists big,
       Scoring.expand_solution full4 [pt_1_1; pt_0_0]
       = Ok (to_square <$> (big ++ (unit_box <$> uncovered full4 big)))
       /\ big.*1 `sublist_of` (Utils.split_point <$> [pt_1_1; pt_0_0])
       /\ Forall (fun b => 2 <= b.2 /\ square_free full4 b.1.1 b.1.2 b.2) big
       /\ pairwise_disjoint box_covers big.
Proof.
  assert (H1 : rectangular full4) by rect.
  assert (H2 : Forall (valid_point full4) [pt_1_1; pt_0_0]) by valid_points.
  repeat (split; [assumption|]).
  exact (expand_solution_layout full4 [pt_1_1; pt_0_0] H1 H2).
Defined.

Lemma score_solution_bounds_witness :
  rectangular full4 /\ binary full4
  /\ rectangular zeros4 /\ same_shape zeros4 full4
  /\ Forall (valid_point full4) [pt_1_1; pt_0_0]
  /\ exists squares sc,
       Scoring.expand_solution full4 [pt_1_1; pt_0_0] = Ok squares
       /\ Scoring.score_solution full4 (np_sum full4) zeros4 [pt_1_1; pt_0_0]
          = Ok sc
       /\ squares_area squares = np_sum full4
       /\ 0 <= sc <= np_sum full4.
Proof.
  assert (H1 : rectangular full4) by rect.
  assert (H2 : binary full4) by bin.
  assert (H3 : rectangular zeros4) by rect.
  assert (H4 : same_shape zeros4 full4) by (split; reflexivity).
  assert (H5 : Forall (valid_point full4) [pt_1_1; pt_0_0]) by valid_points.
  repeat (split; [assumption|]).
  destruct (score_solution_bounds full4 zeros4 [pt_1_1; pt_0_0]
              H1 H2 H3 H4 H5) as (squares & sc & A & B & C & _ & _ & D & _).
  exists squares, sc. repeat (split; [assumption|]). exact D.
Defined.

Lemma score_population_scores_rows_witness :
  rectangular full4
  /\ rectangular zeros4 /\ same_shape zeros4 full4
  /\ rectangular full4_population /\ 0 < shape1 full4_population
  /\ members_valid full4 full4_population
  /\ exists population' scratch',
       Scoring.score_population full4 16 zeros4 full4_population
       = Ok (population', scratch')
       /\ length population' = length full4_population.
Proof.
  assert (H1 : rectangular full4) by rect.
  assert (H3 : rectangular zeros4) by rect.
  assert (H4 : same_shape zeros4 full4) by (split; reflexivity).
  assert (H5 : rectangular full4_population) by rect.
  assert (H6 : 0 < shape1 full4_population) by (vm_compute; reflexivity).
  assert (H7 : members_valid full4 full4_population).
  { unfold members_valid, full4_population.
    repeat first [apply List.Forall_nil
                 | apply List.Forall_cons; [cbn [drop]; valid_points|]]. }
  repeat (split; [assumption|]).
  destruct (score_population_scores_rows full4 zeros4 full4_population 16
              H1 H3 H4 H5 H6 H7) as (p & s & A & B & _).
  exists p, s. split; assumption.
Defined.

Lemma divide_population_selects_witness :
  rectangular sample_population /\ 0 < shape1 sample_population
  /\ 1 <= 3 < shape0 sample_population
  /\ exists pop',
       Utils.divide_population sample_population 3 = Ok pop'
       /\ pop' ≡ₚ sample_population
       /\ (forall i, 0 <= i < 3 -> key pop' i <= key pop' 3)
       /\ (forall j, 3 < j < shape0 pop' -> key pop' 3 <= key pop' j).
Proof.
  assert (H1 : rectangular sample_population) by rect.
  assert (H2 : 0 < shape1 sample_population) by (vm_compute; reflexivity).
  assert (H3 : 1 <= 3 < shape0 sample_population)
    by (vm_compute; split; congruence).
  repeat (split; [assumption|]).
  exact (divide_population_selects sample_population 3 H1 H2 H3).
Defined.

Lemma divide_population_any_index_witness :
  rectangular sample_population /\ 0 < shape1 sample_population
  /\ (exists pop',
        Utils.divide_population sample_population 6 = Ok pop'
        /\ pop' ≡ₚ sample_population)
  /\ Utils.divide_population sample_population 0 = Ok sample_population.
Proof.
  assert (H1 : rectangular sample_population) by rect.
  assert (H2 : 0 < shape1 sample_population) by (vm_compute; reflexivity).
  repeat (split; [assumption|]).
  destruct (divide_population_any_index sample_population H1 H2) as [A B].
  split; [|exact B].
  destruct (A 6) as (pop' & Hd & Hp & _). exists pop'. split; assumption.
Defined.

Lemma partition_population_pivot_witness :
  rectangular sample_population /\ 0 < shape1 sample_population
  /\ 0 <= 1 /\ 1 <= 4 /\ 4 < shape0 sample_population
  /\ exists pop' h,
       Utils.partition_population sample_population 1 4 = Ok (pop', h)
       /\ 1 <= h <= 4
       /\ pop' ≡ₚ sample_population.
Proof.
  assert (H1 : rectangular sample_population) by rect.
  assert (H2 : 0 < shape1 sample_population) by (vm_compute; reflexivity).
  assert (H3 : 0 <= 1) by lia.
  assert (H4 : 1 <= 4) by lia.
  assert (H5 : 4 < shape0 sample_population) by (vm_compute; reflexivity).
  repeat (split; [assumption|]).
  destruct (partition_population_pivot sample_population 1 4 H1 H2 H3 H4 H5)
    as (pop' & h & A & B & C & _).
  exists pop', h. repeat (split; [assumption|]). exact C.
Defined.

Lemma sample_members_survivors (r : nat) (row : list Z) :
  Z.of_nat r < shape0 sample_members - 2 ->
  sample_members !! r = Some row -> row ≡ₚ [10; 20; 30].
Proof.
  intros Hr Hrow. change (shape0 sample_members - 2) with 2 in Hr.
  destruct r as [|[|r]]; [| |lia]; inversion Hrow; subst row.
  - reflexivity.
  - apply (Permutation_cons_append [10; 20] 30).
Defined.

Lemma spawn_new_population_members_permutations_witness :
  rectangular sample_members
  /\ 0 <= 2 < shape0 sample_members
  /\ length [10; 20; 30] <> 1%nat
  /\ shape0 full4 <> 0 /\ shape1 full4 <> 0
  /\ exists population' rs',
       Gridea.spawn_new_population_members sample_members 2 full4
                                           (Utils.RandomState 1 2 3 4)
       = Ok (population', rs')
       /\ Forall (fun row => row ≡ₚ [10; 20; 30]) population'.
Proof.
  assert (H1 : rectangular sample_members) by rect.
  assert (H2 : 0 <= 2 < shape0 sample_members)
    by (vm_compute; split; congruence).
  assert (H3 : length [10; 20; 30] <> 1%nat) by (simpl; lia).
  assert (H4 : shape0 full4 <> 0) by (vm_compute; congruence).
  assert (H5 : shape1 full4 <> 0) by (vm_compute; congruence).
  repeat (split; [assumption|]).
  destruct (spawn_new_population_members_permutations sample_members full4 2
              [10; 20; 30] (Utils.RandomState 1 2 3 4)
              H1 H2 sample_members_survivors H3 H4 H5)
    as (p & rs' & A & _ & _ & B).
  exists p, rs'. split; assumption.
Defined.

Lemma full4_population_members :
  Forall (member_of full4_points) full4_population.
Proof.
  unfold full4_population.
  repeat first [apply List.Forall_nil | apply List.Forall_cons].
  - split; [simpl; lia | reflexivity].
  - split; [simpl; lia | exact full4_solution_perm].
  - split; [simpl; lia | reflexivity].
Defined.

Lemma generation_keeps_best_witness :
  rectangular full4 /\ shape0 full4 <> 0 /\ shape1 full4 <> 0
  /\ rectangular zeros4 /\ same_shape zeros4 full4
  /\ Forall (valid_point full4) full4_points
  /\ length full4_points <> 1%nat
  /\ shape0 full4_population = 2 + 1
  /\ Forall (member_of full4_points) full4_population
  /\ exists population' scratch' rs',
       Gridea.generation full4_population full4 zeros4 16 2 1
                         (Utils.RandomState 1 2 3 4)
       = Ok (population', scratch', rs')
       /\ Forall (member_of full4_points) population'.
Proof.
  assert (H1 : rectangular full4) by rect.
  assert (H2 : shape0 full4 <> 0) by (vm_compute; congruence).
  assert (H3 : shape1 full4 <> 0) by (vm_compute; congruence).
  assert (H4 : rectangular zeros4) by rect.
  assert (H5 : same_shape zeros4 full4) by (split; reflexivity).
  assert (H6 : Forall (valid_point full4) full4_points)
    by (unfold full4_points; valid_points).
  assert (H7 : length full4_points <> 1%nat) by (simpl; lia).
  assert (H8 : shape0 full4_population = 2 + 1) by reflexivity.
  pose proof full4_population_members as H9.
  repeat (split; [assumption|]).
  destruct (generation_keeps_best full4_population full4 zeros4 16 2 1
              full4_points (Utils.RandomState 1 2 3 4)
              H1 H2 H3 H4 H5 H6 H7 ltac:(lia) ltac:(lia) H8 H9)
    as (p & s & rs' & A & _ & B & _).
  exists p, s, rs'. split; assumption.
Defined.

Lemma init_population_seeds_valid_members_witness :
  rectangular full4
  /\ rectangular zeros4 /\ same_shape zeros4 full4
  /\ shape0 full4 <= 2 ^ 16 /\ shape1 full4 <= 2 ^ 16
  /\ 256 <= 300
  /\ exists population scratch',
       Initialize.init_population full4 16 zeros4 300
       = Ok (population, scratch')
       /\ shape0 population = 300
       /\ Forall (member_of (pack <$> anchors full4)) population.
Proof.
  assert (H1 : rectangular full4) by rect.
  assert (H2 : rectangular zeros4) by rect.
  assert (H3 : same_shape zeros4 full4) by (split; reflexivity).
  assert (H4 : shape0 full4 <= 2 ^ 16) by (vm_compute; congruence).
  assert (H5 : shape1 full4 <= 2 ^ 16) by (vm_compute; congruence).
  assert (H6 : 256 <= 300) by lia.
  repeat (split; [assumption|]).
  destruct (init_population_seeds_valid_members full4 zeros4 16 300
              H1 H2 H3 H4 H5 H6) as (p & s & A & B & C & _).
  exists p, s. repeat (split; [assumption|]). exact C.
Defined.

Lemma init_population_needs_256_rows_witness :
  rectangular full4 /\ 0 <= 110 < 256
  /\ Initialize.init_population full4 16 zeros4 110 = Raise IndexError.
Proof.
  assert (H1 : rectangular full4) by rect.
  assert (H2 : 0 <= 110 < 256) by lia.
  split; [exact H1|]. split; [exact H2|].
  exact (init_population_needs_256_rows full4 zeros4 16 110 H1 H2).
Defined.


Lemma solve_single_point_raises_witness :
  rectangular block2
  /\ shape0 block2 <= 2 ^ 16 /\ shape1 block2 <= 2 ^ 16
  /\ rectangular zeros2 /\ same_shape zeros2 block2
  /\ length (anchors block2) = 1%nat
  /\ GrideaWorker.solve no_dumps 0 ∅ None block2 zeros2 1000 100
                        (Utils.RandomState 1 2 3 4)
                        (Network.MkGlobalBest None None None 0) [None] 2
     = Raise ZeroDivisionError.
Proof.
  assert (H1 : rectangular block2) by rect.
  assert (H2 : shape0 block2 <= 2 ^ 16) by (vm_compute; congruence).
  assert (H3 : shape1 block2 <= 2 ^ 16) by (vm_compute; congruence).
  assert (H4 : rectangular zeros2) by rect.
  assert (H5 : same_shape zeros2 block2) by (split; reflexivity).
  assert (H6 : length (anchors block2) = 1%nat) by (vm_compute; reflexivity).
  split; [exact H1|]. split; [exact H2|]. split; [exact H3|].
  split; [exact H4|]. split; [exact H5|]. split; [exact H6|].
  exact (solve_single_point_raises no_dumps 0 ∅ None block2 zeros2 1000 100
           (Utils.RandomState 1 2 3 4)
           (Network.MkGlobalBest None None None 0) [None] 2
           H1 H2 H3 H4 H5 H6 ltac:(lia) ltac:(lia) ltac:(lia)
           ltac:(discriminate)).
Defined.

Lemma score_solution_ignores_scratch_witness :
  rectangular full4
  /\ rectangular zeros4 /\ same_shape zeros4 full4
  /\ same_shape full4 full4
  /\ Scoring.score_solution full4 16 zeros4 [pt_1_1; pt_0_0]
     = Scoring.score_solution full4 16 full4 [pt_1_1; pt_0_0].
Proof.
  assert (H1 : rectangular full4) by rect.
  assert (H2 : rectangular zeros4) by rect.
  assert (H3 : same_shape zeros4 full4) by (split; reflexivity).
  assert (H4 : same_shape full4 full4) by (split; reflexivity).
  split; [exact H1|]. split; [exact H2|]. split; [exact H3|].
  split; [exact H4|].
  exact (proj1 (score_solution_ignores_scratch full4 zeros4 full4 16
                  [pt_1_1; pt_0_0] H1 H2 H3 H1 H4)).
Defined.


Lemma fill_population_repeating_any_count_witness :
  rectangular seeded_population
  /\ exists population',
       Initialize.fill_population_repeating seeded_population 7
       = Ok population'
       /\ length population' = length seeded_population.
Proof.
  assert (H1 : rectangular seeded_population) by rect.
  split; [assumption|].
  destruct (proj1 (fill_population_repeating_any_count seeded_population 7 H1)
              ltac:(lia)) as (p & A & B & _).
  exists p. split; assumption.
Defined.
